(** * pharod: loopback address allocation, listener registry and relay shutdown

    A shallow embedding of [main.go]: the three global maps
    ([sourceAddrs], [dnsZone], [containerListeners]) become fields of an
    explicit state record, panics become an outcome, the choices Go leaves
    to the runtime (map iteration order, whether a [Stop] returns) and to
    the operating system (ifconfig, name resolution, bind) become explicit
    arguments. *)

From stdpp Require Import gmap strings list fin_maps pretty.
From Stdlib Require Import ZArith Ascii Lia.

Local Open Scope string_scope.
Local Open Scope list_scope.
Local Open Scope Z_scope.

(** ** Outcomes: a Go call either returns or panics (the process dies) *)

Inductive Outcome (A : Type) : Type :=
| Ret (a : A)
| Panic (msg : string).
Arguments Ret {A} a.
Arguments Panic {A} msg.

Definition obind {A B} (m : Outcome A) (k : A → Outcome B) : Outcome B :=
  match m with
  | Ret a => k a
  | Panic msg => Panic msg
  end.

Notation "x ←! m ; k" := (obind m (fun x => k))
  (at level 20, m at level 100, k at level 200, right associativity,
   format "x  ←!  m ;  '/' k").
Notation "' x ←! m ; k" := (obind m (fun x => k))
  (at level 20, x pattern, m at level 100, k at level 200,
   right associativity, format "' x  ←!  m ;  '/' k").

(** ** net.IP: a byte slice of length 4 or 16; [nil] is the empty list *)

Definition netIP : Type := list Z.

Definition v4InV6Prefix : list Z := [0;0;0;0;0;0;0;0;0;0;255;255].

(** [net.IPv4(a,b,c,d)]: the 16-byte form of an IPv4 address. *)
Definition IPv4 (a b c d : Z) : netIP := (v4InV6Prefix ++ [a; b; c; d])%list.

Definition ip_eqb (x y : netIP) : bool := bool_decide (x = y).

(** [ip.To4()]: the 4-byte form, or nil when [ip] is not an IPv4 address. *)
Definition To4 (ip : netIP) : netIP :=
  if (List.length ip =? 4)%nat then ip
  else if (List.length ip =? 16)%nat && ip_eqb (take 12 ip) v4InV6Prefix
       then drop 12 ip
       else [].

(** [ip.IsLoopback()]; the IPv6 loopback is [::1]. *)
Definition IPv6loopback : netIP := [0;0;0;0;0;0;0;0;0;0;0;0;0;0;0;1].

Definition IsLoopback (ip : netIP) : bool :=
  match To4 ip with
  | a :: _ => a =? 127
  | [] => ip_eqb ip IPv6loopback
  end.

(** [ipToInt]: indexes bytes 12..15, so it panics (None) on a shorter slice.
    Each operand is a [uint32] built from one byte. *)
Definition ipToInt (ip : netIP) : option Z :=
  b12 ← ip !! 12%nat;
  b13 ← ip !! 13%nat;
  b14 ← ip !! 14%nat;
  b15 ← ip !! 15%nat;
  Some (Z.lor (Z.lor (Z.lor (Z.shiftl b12 24 mod 2^32) (Z.shiftl b13 16 mod 2^32))
                     (Z.shiftl b14 8 mod 2^32)) b15).

(** [byte(x)] of an unsigned value. *)
Definition byte_of (x : Z) : Z := x mod 256.

(** [succIP]: panics unless [ip] is IPv4; [ipInt += 1] wraps at 2^32; the
    result is a 4-byte slice. *)
Definition succIP (ip : netIP) : Outcome netIP :=
  match To4 ip with
  | [] => Panic "only IPv4 supported at the moment"
  | _ =>
      match ipToInt ip with
      | None => Panic "index out of range"
      | Some n =>
          let ipInt := (n + 1) mod 2^32 in
          Ret [ byte_of (Z.shiftr ipInt 24);
                byte_of (Z.shiftr ipInt 16);
                byte_of (Z.shiftr ipInt 8);
                byte_of ipInt ]
      end
  end.

(** *** Text form of IPv4 addresses *)

(** [ip.String()]: dotted decimal for an IPv4 address (4-byte or 16-byte
    form), ["<nil>"] for nil; the IPv6 renderings are not needed by the
    program (every address it prints is IPv4) and are rendered ["?"]. *)
Definition IP_String (ip : netIP) : string :=
  match ip with
  | [] => "<nil>"
  | _ =>
      match To4 ip with
      | [a; b; c; d] =>
          pretty a +:+ "." +:+ pretty b +:+ "." +:+ pretty c +:+ "." +:+ pretty d
      | _ => "?"
      end
  end.

Definition digitVal (c : ascii) : option Z :=
  let n := Z.of_N (N_of_ascii c) in
  if (48 <=? n) && (n <=? 57) then Some (n - 48) else None.

(** Decimal value of a field of a dotted quad, at most 255. *)
Fixpoint dtoi (acc : Z) (s : string) : option Z :=
  match s with
  | EmptyString => Some acc
  | String c s' =>
      match digitVal c with
      | None => None
      | Some d =>
          let acc' := acc * 10 + d in
          if 255 <? acc' then None else dtoi acc' s'
      end
  end.

Definition parseField (s : string) : option Z :=
  match s with
  | EmptyString => None
  | String "0"%char (String _ _) => None
  | _ => dtoi 0 s
  end.

(** The fields of [s] between dots. *)
Fixpoint fields (s : string) : list string :=
  match s with
  | EmptyString => [EmptyString]
  | String c s' =>
      match fields s' with
      | f :: fs =>
          if Ascii.eqb c "."%char then EmptyString :: f :: fs
          else String c f :: fs
      | [] => []
      end
  end.

(** [net.ParseIP] on dotted-quad text: the 16-byte form of the address, nil
    when the text is not a dotted quad (IPv6 text is outside this model:
    the program only parses back what [IP_String] printed). *)
Definition ParseIP (s : string) : netIP :=
  match fields s with
  | [fa; fb; fc; fd] =>
      match parseField fa, parseField fb, parseField fc, parseField fd with
      | Some a, Some b, Some c, Some d => IPv4 a b c d
      | _, _, _, _ => []
      end
  | _ => []
  end.

(** [var SourceStartIP = net.ParseIP("127.2.2.1")] *)
Definition SourceStartIP : netIP := ParseIP "127.2.2.1".

(** ** Hostname derivation *)

(** The complement of the class in [[^-a-z0-9.]+]. *)
Definition allowedChar (c : ascii) : bool :=
  let n := N_of_ascii c in
  (Ascii.eqb c "-"%char)
  || ((97 <=? n)%N && (n <=? 122)%N)
  || ((48 <=? n)%N && (n <=? 57)%N)
  || (Ascii.eqb c "."%char).

(** [dnsNameAllowedChars.ReplaceAllLiteralString(s, "-")]: every maximal
    run of characters outside the class becomes one hyphen.  [inRun] tells
    that the previous character belonged to such a run. *)
Fixpoint replaceDisallowed (inRun : bool) (s : string) : string :=
  match s with
  | EmptyString => EmptyString
  | String c s' =>
      if allowedChar c then String c (replaceDisallowed false s')
      else if inRun then replaceDisallowed true s'
           else String "-"%char (replaceDisallowed true s')
  end.

Definition isHyphen (c : ascii) : bool := Ascii.eqb c "-"%char.

Fixpoint trimLeftHyphens (s : string) : string :=
  match s with
  | EmptyString => EmptyString
  | String c s' => if isHyphen c then trimLeftHyphens s' else s
  end.

Fixpoint trimRightHyphens (s : string) : string :=
  match s with
  | EmptyString => EmptyString
  | String c s' =>
      match trimRightHyphens s' with
      | EmptyString => if isHyphen c then EmptyString else String c EmptyString
      | r => String c r
      end
  end.

(** [strings.Trim(s, "-")] *)
Definition trimHyphens (s : string) : string :=
  trimRightHyphens (trimLeftHyphens s).

(** [dnsNameHyphenStrings.ReplaceAllLiteralString(s, "-")]: every maximal
    run of two or more hyphens becomes one hyphen (a single hyphen stays). *)
Fixpoint collapseHyphens (prevHyphen : bool) (s : string) : string :=
  match s with
  | EmptyString => EmptyString
  | String c s' =>
      if isHyphen c
      then if prevHyphen then collapseHyphens true s'
           else String c (collapseHyphens true s')
      else String c (collapseHyphens false s')
  end.

Definition dnsNameFromContainerName (containerName : string) : string :=
  collapseHyphens false
    (trimHyphens (replaceDisallowed false containerName)).

(** The derivation as the prose describes it: delete the characters outside
    the class, collapse hyphen runs, trim hyphens at both ends. *)
Fixpoint stripDisallowed (s : string) : string :=
  match s with
  | EmptyString => EmptyString
  | String c s' =>
      if allowedChar c then String c (stripDisallowed s') else stripDisallowed s'
  end.

Definition dnsName_strip_collapse_trim (containerName : string) : string :=
  trimHyphens (collapseHyphens false (stripDisallowed containerName)).


(** ** Data model *)

(** [net.TCPAddr] *)
Record TCPAddr : Type := mkTCPAddr {
  IP : netIP;
  Port : Z;
  Zone : string;
}.

(** [docker.APIPort]: ports are [int64], [APIPort_IP] is the host IP text. *)
Record APIPort : Type := mkAPIPort {
  PrivatePort : Z;
  PublicPort : Z;
  APIPort_Type : string;
  APIPort_IP : string;
}.

(** [docker.Container], with the result of
    [NetworkSettings.PortMappingAPI()] as a field. *)
Record Container : Type := mkContainer {
  ID : string;
  Name : string;
  PortMappingAPI : list APIPort;
}.

(** [Listener]: the fields the registry and the allocator read.  The socket,
    the wait group and the channels belong to the relay's goroutines, which
    are modelled separately (module [Relay]). *)
Record Listener : Type := mkListener {
  DNSName : string;
  Src : TCPAddr;
  Dest : TCPAddr;
}.

(** Every write to one of the global maps and every call that leaves the
    process, in program order. *)
Inductive Event : Type :=
| EvIfconfig (addr : string)            (* ifconfig lo0 alias addr up *)
| EvClaim (addr : string) (port : Z)    (* sourceAddrs[addr][port] = dest *)
| EvStart (l : Listener)                (* l.Start() *)
| EvRegister (key : string)             (* containerListeners[key] = l *)
| EvPublish (name : string) (ip : netIP)(* dnsZone[name] = ip *)
| EvUnregister (key : string)           (* delete(containerListeners, key) *)
| EvUnpublish (name : string)           (* delete(dnsZone, name) *)
| EvRelease (addr : string) (port : Z)  (* delete(sourceAddrs[addr], port) *)
| EvStop (l : Listener).                (* l.Stop() *)

(** The global variables of the program, and the log of its effects. *)
Record State : Type := mkState {
  sourceAddrs : gmap string (gmap Z TCPAddr);
  dnsZone : gmap string netIP;
  containerListeners : gmap string Listener;
  trace : list Event;
}.

(** [main] creates the three maps empty. *)
Definition initState : State :=
  {| sourceAddrs := ∅; dnsZone := ∅; containerListeners := ∅; trace := [] |}.

Definition set_sourceAddrs (f : gmap string (gmap Z TCPAddr) → gmap string (gmap Z TCPAddr))
    (st : State) : State :=
  {| sourceAddrs := f (sourceAddrs st); dnsZone := dnsZone st;
     containerListeners := containerListeners st; trace := trace st |}.

Definition set_dnsZone (f : gmap string netIP → gmap string netIP) (st : State) : State :=
  {| sourceAddrs := sourceAddrs st; dnsZone := f (dnsZone st);
     containerListeners := containerListeners st; trace := trace st |}.

Definition set_containerListeners (f : gmap string Listener → gmap string Listener)
    (st : State) : State :=
  {| sourceAddrs := sourceAddrs st; dnsZone := dnsZone st;
     containerListeners := f (containerListeners st); trace := trace st |}.

Definition emit (e : Event) (st : State) : State :=
  {| sourceAddrs := sourceAddrs st; dnsZone := dnsZone st;
     containerListeners := containerListeners st; trace := trace st ++ [e] |}.

(** What the program asks of its environment.  [rangeSourceAddrs] is the
    order in which [for addr, ls := range sourceAddrs] enumerates the map:
    Go leaves it unspecified, so it is an arbitrary function of the map. *)
Record Env : Type := mkEnv {
  InspectContainer : string → option Container;
  ResolveIPAddr : string → option (netIP * string);
  ifconfigAlias : string → bool;
  ListenTCP : TCPAddr → bool;
  rangeSourceAddrs : gmap string (gmap Z TCPAddr) → list string;
}.

(** The keys of a map, in the order [map_to_list] lists them. *)
Definition keys {V} (m : gmap string V) : list string := (map_to_list m).*1.

(** A range loop visits every key of the map exactly once. *)
Definition range_ok (env : Env) : Prop :=
  ∀ m, rangeSourceAddrs env m ≡ₚ keys m.

(** Errors returned as Go [error] values. *)
Inductive Result (A : Type) : Type :=
| Ok (a : A)
| Err (msg : string).
Arguments Ok {A} a.
Arguments Err {A} msg.

(** ** The allocator *)

(** The closure [getSourceAddr]: [net.ResolveTCPAddr("tcp", addr:port)]
    on a literal address; it fails, and the closure panics, when the
    address is not an IP literal or the port is outside 0..65535. *)
Definition getSourceAddr (port : Z) (addr : string) : Outcome TCPAddr :=
  match ParseIP addr with
  | [] => Panic "ResolveTCPAddr: no such host"
  | ip =>
      if (0 <=? port) && (port <=? 65535)
      then Ret {| IP := ip; Port := port; Zone := "" |}
      else Panic "ResolveTCPAddr: invalid port"
  end.

Inductive Scan : Type :=
| Found (addr : string) (ls : gmap Z TCPAddr)
| NotFound (lastAddr : string).

(** The range loop of [sourceAddrForPort] over the enumeration [order],
    with the loop variables [lastAddr] and [lastAddrIP]. *)
Fixpoint scanSourceAddrs (sa : gmap string (gmap Z TCPAddr)) (port : Z)
    (order : list string) (lastAddr : string) (lastAddrIP : netIP) : Outcome Scan :=
  match order with
  | [] => Ret (NotFound lastAddr)
  | addr :: rest =>
      match sa !! addr with
      | None => scanSourceAddrs sa port rest lastAddr lastAddrIP
      | Some ls =>
          let addrIP := ParseIP addr in
          higher ←! match lastAddrIP with
                    | [] => Ret true
                    | _ => match ipToInt addrIP, ipToInt lastAddrIP with
                           | Some a, Some b => Ret (b <? a)
                           | _, _ => Panic "index out of range"
                           end
                    end;
          match ls !! port with
          | None => Ret (Found addr ls)
          | Some _ =>
              if higher : bool
              then scanSourceAddrs sa port rest addr addrIP
              else scanSourceAddrs sa port rest lastAddr lastAddrIP
          end
      end
  end.

(** The address to provision when no held address has [port] free. *)
Definition nextSourceIP (lastAddr : string) : Outcome netIP :=
  if decide (lastAddr = "") then Ret SourceStartIP
  else match ParseIP lastAddr with
       | [] => Panic "lastAddr not an IP address"
       | lastAddrIP => succIP lastAddrIP
       end.

Definition sourceAddrForPort (env : Env) (port : Z) (dest : TCPAddr) (st : State)
    : Outcome (TCPAddr * State) :=
  r ←! scanSourceAddrs (sourceAddrs st) port
         (rangeSourceAddrs env (sourceAddrs st)) "" [];
  match r with
  | Found addr ls =>
      let st' := emit (EvClaim addr port)
                   (set_sourceAddrs (insert addr (<[port := dest]> ls)) st) in
      src ←! getSourceAddr port addr;
      Ret (src, st')
  | NotFound lastAddr =>
      nextIP ←! nextSourceIP lastAddr;
      if negb (IsLoopback nextIP) then Panic "ran out of loopback addresses!"
      else
        let addr := IP_String nextIP in
        if negb (ifconfigAlias env addr) then Panic "error calling ifconfig"
        else
          let st' := emit (EvClaim addr port)
                       (set_sourceAddrs (insert addr {[port := dest]})
                          (emit (EvIfconfig addr) st)) in
          src ←! getSourceAddr port addr;
          Ret (src, st')
  end.

(** ** The registry *)

(** [fmt.Sprintf("%s:%d", c.ID, p.PrivatePort)] *)
Definition containerPortKey (c : Container) (p : APIPort) : string :=
  ID c +:+ ":" +:+ pretty (PrivatePort p).

(** [ip.IsUnspecified()]: 0.0.0.0 or [::]. *)
Definition IsUnspecified (ip : netIP) : bool :=
  ip_eqb (To4 ip) [0; 0; 0; 0] || ip_eqb ip (replicate 16 0).

(** [l.Start()] as the registry sees it: it binds the source address, and
    panics when the bind fails; the goroutines it launches are in [Relay]. *)
Definition Start (env : Env) (l : Listener) (st : State) : Outcome State :=
  if ListenTCP env (Src l) then Ret (emit (EvStart l) st)
  else Panic "ListenTCP".

(** What a call that can block for ever comes to: it has returned, or it
    is blocked, with the globals as they are then. *)
Inductive Progress : Type :=
| Returned (st : State)
| Blocked (st : State).

Definition stateOf (r : Progress) : State :=
  match r with
  | Returned st => st
  | Blocked st => st
  end.

(** [l.Stop()] as the registry sees it: it closes the socket and then sends
    on the unbuffered channel [closeAllConns].  The tracker receives from
    that channel once, and the accept loop sends on it too when [Accept]
    fails on the closed socket: when the tracker takes the accept loop's
    signal, the send of [Stop] blocks for ever (module [Relay]).  [returns]
    is what the scheduler decides for this call. *)
Definition Stop (returns : bool) (l : Listener) (st : State) : Progress :=
  let st' := emit (EvStop l) st in
  if returns then Returned st' else Blocked st'.

Section Registry.

(** The globals [firstEphemeralPort] and [dockerIP], set once by [main]. *)
Variable firstEphemeralPort : Z.
Variable dockerIP : netIP.

(** The source port of a listener, as the comment in the source has it. *)
Definition chooseSourcePort (destPort privatePort : Z) : Z :=
  if firstEphemeralPort <=? destPort then privatePort else destPort.

(** The state is returned on every path, also with an error, so that what
    an error return leaves behind can be stated. *)
Definition ListenerFromContainerAndPort (env : Env) (container : Container)
    (port : APIPort) (st : State) : Outcome (Result Listener * State) :=
  if decide (Name container = "")
  then Ret (Err "Container has no name from which to build a DNS name", st)
  else if (PublicPort port =? 0) || (PrivatePort port =? 0)
  then Ret (Err "Public port not exposed", st)
  else
    let dnsName := dnsNameFromContainerName (Name container) in
    if decide (dnsName = "")
    then Ret (Err "Couldn't build a non-empty DNS name", st)
    else
      match ResolveIPAddr env (APIPort_IP port) with
      | None => Ret (Err "ResolveIPAddr", st)
      | Some (destIP, zone) =>
          let dest := {| IP := if IsUnspecified destIP then dockerIP else destIP;
                         Port := PublicPort port;
                         Zone := zone |} in
          let srcPort := chooseSourcePort (Port dest) (PrivatePort port) in
          '(src, st') ←! sourceAddrForPort env srcPort dest st;
          Ret (Ok {| DNSName := dnsName; Src := src; Dest := dest |}, st')
      end.

(** The body of the loop of [addContainer]. *)
Definition addPort (env : Env) (c : Container) (acc : list Listener * State)
    (port : APIPort) : Outcome (list Listener * State) :=
  let '(out, st) := acc in
  let key := containerPortKey c port in
  match containerListeners st !! key with
  | Some _ => Ret (out, st)
  | None =>
      '(r, st1) ←! ListenerFromContainerAndPort env c port st;
      match r with
      | Err _ => Ret (out, st1)
      | Ok l =>
          st2 ←! Start env l st1;
          let st3 := emit (EvRegister key) (set_containerListeners (insert key l) st2) in
          let st4 := emit (EvPublish (DNSName l) (IP (Src l)))
                       (set_dnsZone (insert (DNSName l) (IP (Src l))) st3) in
          Ret (out ++ [l], st4)
      end
  end.

Fixpoint addPorts (env : Env) (c : Container) (ports : list APIPort)
    (acc : list Listener * State) : Outcome (list Listener * State) :=
  match ports with
  | [] => Ret acc
  | port :: rest => acc' ←! addPort env c acc port; addPorts env c rest acc'
  end.

Definition addContainer (env : Env) (cid : string) (st : State)
    : Outcome (list Listener * State) :=
  match InspectContainer env cid with
  | None => Ret ([], st)
  | Some c => addPorts env c (PortMappingAPI c) ([], st)
  end.

End Registry.

(** [strings.HasPrefix(s, prefix)] *)
Definition HasPrefix (s pre : string) : bool := String.prefix pre s.

(** The body of the loop of [removeContainer], at the key [cp].  Deleting
    from a missing (nil) claim map does nothing.  [stops l] tells whether
    [l.Stop()] returns. *)
Definition removeEntry (stops : Listener → bool) (cid : string) (st : State)
    (cp : string) : Progress :=
  match containerListeners st !! cp with
  | None => Returned st
  | Some l =>
      if HasPrefix cp (cid +:+ ":") then
        let st1 := emit (EvUnregister cp) (set_containerListeners (delete cp) st) in
        let st2 := emit (EvUnpublish (DNSName l)) (set_dnsZone (delete (DNSName l)) st1) in
        let st3 := emit (EvRelease (IP_String (IP (Src l))) (Port (Src l)))
                     (set_sourceAddrs
                        (alter (delete (Port (Src l))) (IP_String (IP (Src l)))) st2) in
        Stop (stops l) l st3
      else Returned st
  end.

(** [removeContainer], with the enumeration [order] of [containerListeners]
    the runtime chooses for the range loop.  The loop goes on to the next
    key when the body returns; when a [Stop] blocks, so does the call, and
    the keys that follow are never visited. *)
Fixpoint removeContainer (stops : Listener → bool) (order : list string)
    (cid : string) (st : State) : Progress :=
  match order with
  | [] => Returned st
  | cp :: rest =>
      match removeEntry stops cid st cp with
      | Returned st' => removeContainer stops rest cid st'
      | Blocked st' => Blocked st'
      end
  end.

(** The globals once the body of the loop has run at [cp], up to and
    including the call of [Stop], whether that call returns or not. *)
Definition afterEntry (cid : string) (st : State) (cp : string) : State :=
  stateOf (removeEntry (λ _, true) cid st cp).

(** The globals once the loop has run at the keys of [order], one after the
    other. *)
Definition afterEntries (order : list string) (cid : string) (st : State) : State :=
  foldl (afterEntry cid) st order.

(** ** Runs of the control loop *)

(** One event of [main]'s loop: a container started or stopped.  The
    environment, the enumeration orders and the scheduling of [Stop] may
    differ at every event.  The state after a removal is the one the globals
    are left in, also when the call is blocked in a [Stop]: the servers of
    the program go on reading the maps then.  The loop takes no further
    event after a blocked removal; [reachable] does not use that, and so
    holds every state the program reaches and some more. *)
Inductive step (fep : Z) (dip : netIP) : State → State → Prop :=
| step_add env cid st out st' :
    range_ok env →
    addContainer fep dip env cid st = Ret (out, st') →
    step fep dip st st'
| step_remove stops order cid st :
    order ≡ₚ keys (containerListeners st) →
    step fep dip st (stateOf (removeContainer stops order cid st)).

Inductive reachable (fep : Z) (dip : netIP) : State → Prop :=
| reachable_init : reachable fep dip initState
| reachable_step st st' :
    reachable fep dip st → step fep dip st st' → reachable fep dip st'.

(** ** Predicates used in the statements *)

(** *** On hostnames *)

Fixpoint allAllowed (s : string) : bool :=
  match s with
  | EmptyString => true
  | String c s' => allowedChar c && allAllowed s'
  end.

Definition startsWithHyphen (s : string) : bool :=
  match s with
  | String c _ => isHyphen c
  | EmptyString => false
  end.

Fixpoint endsWithHyphen (s : string) : bool :=
  match s with
  | EmptyString => false
  | String c EmptyString => isHyphen c
  | String _ s' => endsWithHyphen s'
  end.

Fixpoint hasDoubleHyphen (s : string) : bool :=
  match s with
  | EmptyString => false
  | String c s' => (isHyphen c && startsWithHyphen s') || hasDoubleHyphen s'
  end.

(** The characters of [s] other than hyphens, in order. *)
Fixpoint nonHyphens (s : string) : string :=
  match s with
  | EmptyString => EmptyString
  | String c s' => if isHyphen c then nonHyphens s' else String c (nonHyphens s')
  end.

(** A character of a label: of the class, and no hyphen. *)
Definition labelChar (c : ascii) : bool := allowedChar c && negb (isHyphen c).

Definition startsWithLabel (s : string) : bool :=
  match s with
  | String c _ => labelChar c
  | EmptyString => false
  end.

(** The labels of [s]: its maximal runs of label characters, in order. *)
Fixpoint labels (s : string) : list string :=
  match s with
  | EmptyString => []
  | String c s' =>
      if labelChar c then
        match startsWithLabel s', labels s' with
        | true, w :: ws => String c w :: ws
        | _, ws => String c EmptyString :: ws
        end
      else labels s'
  end.

(** The words of [ws] with one hyphen between consecutive words. *)
Fixpoint joinHyphen (ws : list string) : string :=
  match ws with
  | [] => EmptyString
  | [w] => w
  | w :: ws' => w +:+ String "-"%char (joinHyphen ws')
  end.

(** *** On addresses *)

Definition isByte (b : Z) : Prop := 0 ≤ b < 256.

Fixpoint noDot (s : string) : bool :=
  match s with
  | EmptyString => true
  | String c s' => negb (Ascii.eqb c "."%char) && noDot s'
  end.

(** What is checked of the decimal text of a byte, by running it. *)
Definition byteText_ok (b : Z) : bool :=
  bool_decide (parseField (pretty b) = Some b) && noDot (pretty b).

(** The 32-bit value of the address a.b.c.d. *)
Definition ipValue (a b c d : Z) : Z := a * 16777216 + b * 65536 + c * 256 + d.

(** A key of [sourceAddrs] is the text [IP_String] prints for an IPv4
    address. *)
Definition canonical (k : string) : Prop :=
  ∃ a b c d, isByte a ∧ isByte b ∧ isByte c ∧ isByte d ∧ k = IP_String [a; b; c; d].

Definition keys_canonical (sa : gmap string (gmap Z TCPAddr)) : Prop :=
  ∀ k, is_Some (sa !! k) → canonical k.

(** The 32-bit value of the address a key spells, as the scan computes it
    ([ipToInt(net.ParseIP(addr))]); 0 when the key spells no address. *)
Definition addrNum (k : string) : Z := default 0 (ipToInt (ParseIP k)).

(** The loop variables of the scan: nothing seen yet, or an address seen. *)
Definition scan_vars (la : string) (lip : netIP) : Prop :=
  (la = "" ∧ lip = []) ∨ (canonical la ∧ lip = ParseIP la).

(** *** On claims *)

(** The pair (address, port) is live in the allocator. *)
Definition claimed (sa : gmap string (gmap Z TCPAddr)) (addr : string) (port : Z) : Prop :=
  ∃ ls, sa !! addr = Some ls ∧ is_Some (ls !! port).

(** The claim a listener holds: the key of its address in [sourceAddrs], as
    [removeContainer] computes it, and its port. *)
Definition claimOf (l : Listener) : string * Z :=
  (IP_String (IP (Src l)), Port (Src l)).

(** A returning call of [sourceAddrForPort] has claimed [port] on a held
    address where it was free... *)
Definition reused (st st' : State) (addr : string) (port : Z) (dest : TCPAddr) : Prop :=
  ∃ ls, sourceAddrs st !! addr = Some ls ∧ ls !! port = None ∧
    sourceAddrs st' = <[addr := <[port := dest]> ls]> (sourceAddrs st) ∧
    trace st' = trace st ++ [EvClaim addr port].

(** ... or on a new address, provisioned because every held address had
    [port] claimed: the start address when none is held, else the successor
    of the highest held address. *)
Definition provisioned (st st' : State) (addr : string) (port : Z) (dest : TCPAddr) : Prop :=
  sourceAddrs st !! addr = None ∧
  (∀ a ls, sourceAddrs st !! a = Some ls → is_Some (ls !! port)) ∧
  sourceAddrs st' = <[addr := {[port := dest]}]> (sourceAddrs st) ∧
  trace st' = trace st ++ [EvIfconfig addr; EvClaim addr port] ∧
  ((sourceAddrs st = ∅ ∧ addr = "127.2.2.1") ∨
   (∃ kmax, is_Some (sourceAddrs st !! kmax) ∧
      (∀ k, is_Some (sourceAddrs st !! k) → addrNum k ≤ addrNum kmax) ∧
      addrNum addr = addrNum kmax + 1)).

(** The invariant of the control loop. *)
Record Inv (st : State) : Prop := mkInv {
  inv_keys : keys_canonical (sourceAddrs st);
  inv_src : ∀ key l, containerListeners st !! key = Some l →
              ∃ addr, canonical addr ∧
                Src l = {| IP := ParseIP addr; Port := Port (Src l); Zone := "" |} ∧
                0 ≤ Port (Src l) ≤ 65535;
  inv_claimed : ∀ key l, containerListeners st !! key = Some l →
                  claimed (sourceAddrs st) (claimOf l).1 (claimOf l).2;
  inv_unique : ∀ k1 k2 l1 l2,
                 containerListeners st !! k1 = Some l1 →
                 containerListeners st !! k2 = Some l2 →
                 claimOf l1 = claimOf l2 → k1 = k2;
}.

(** *** On the registry *)

(** The reasons for which [ListenerFromContainerAndPort] returns an error;
    none of them depends on the state. *)
Definition construction_error (env : Env) (c : Container) (port : APIPort) : Prop :=
  Name c = "" ∨ PublicPort port = 0 ∨ PrivatePort port = 0 ∨
  dnsNameFromContainerName (Name c) = "" ∨
  ResolveIPAddr env (APIPort_IP port) = None.

(** What one turn of the loop of [addContainer] does. *)
Inductive addPort_cases (fep : Z) (dip : netIP) (env : Env) (c : Container)
    (port : APIPort) (out : list Listener) (st : State)
    (out' : list Listener) (st' : State) : Prop :=
| addPort_present l0 :
    containerListeners st !! containerPortKey c port = Some l0 →
    out' = out → st' = st → addPort_cases fep dip env c port out st out' st'
| addPort_error msg :
    containerListeners st !! containerPortKey c port = None →
    ListenerFromContainerAndPort fep dip env c port st = Ret (Err msg, st) →
    out' = out → st' = st → addPort_cases fep dip env c port out st out' st'
| addPort_started l st1 :
    containerListeners st !! containerPortKey c port = None →
    ListenerFromContainerAndPort fep dip env c port st = Ret (Ok l, st1) →
    ListenTCP env (Src l) = true →
    out' = out ++ [l] →
    st' = {| sourceAddrs := sourceAddrs st1;
             dnsZone := <[DNSName l := IP (Src l)]> (dnsZone st1);
             containerListeners := <[containerPortKey c port := l]> (containerListeners st1);
             trace := trace st1 ++ [EvStart l; EvRegister (containerPortKey c port);
                                    EvPublish (DNSName l) (IP (Src l))] |} →
    addPort_cases fep dip env c port out st out' st'.

(** The events of the removal of the entry [cp], in program order. *)
Definition removalEvents (cp : string) (l : Listener) : list Event :=
  [EvUnregister cp; EvUnpublish (DNSName l);
   EvRelease (IP_String (IP (Src l))) (Port (Src l)); EvStop l].

(** What one turn of the loop of [removeContainer] does to the globals. *)
Inductive afterEntry_cases (cid : string) (st : State) (cp : string) (st' : State) : Prop :=
| afterEntry_skip :
    (containerListeners st !! cp = None ∨ HasPrefix cp (cid +:+ ":") = false) →
    st' = st → afterEntry_cases cid st cp st'
| afterEntry_removed l :
    containerListeners st !! cp = Some l → HasPrefix cp (cid +:+ ":") = true →
    st' = {| sourceAddrs := alter (delete (Port (Src l))) (IP_String (IP (Src l)))
                              (sourceAddrs st);
             dnsZone := delete (DNSName l) (dnsZone st);
             containerListeners := delete cp (containerListeners st);
             trace := trace st ++ removalEvents cp l |} →
    afterEntry_cases cid st cp st'.

(** A port is settled in [st]: its key is registered, or no listener can be
    constructed for it. *)
Definition settled (env : Env) (c : Container) (st : State) (port : APIPort) : Prop :=
  is_Some (containerListeners st !! containerPortKey c port) ∨
  construction_error env c port.


(** An enumeration of a map that starts at the key [a] when it is held. *)
Definition rangeFirst {V} (a : string) (m : gmap string V) : list string :=
  if bool_decide (a ∈ keys m) then a :: filter (λ k, k ≠ a) (keys m) else keys m.

(** ** The relay's goroutines *)

(** One started [Listener] as a transition system: the tracker and the
    accept loop launched by [Start], one call of [Stop], one call of [Wait],
    and for every accepted connection the [forward] goroutine with its two
    copy goroutines.  Every send on an (unbuffered) channel is a rendezvous
    with the tracker's [select]; every operation on the wait group
    [finished] is a step of its own.  What the network decides (a connection
    arrives, [Accept] fails, a dial succeeds or fails, [io.Copy] returns) is
    a step that may be taken at any time. *)
Module Relay.

Definition Conn : Type := nat.

(** The tracker goroutine: at its [select]; in the close-all branch with the
    connections still to close (the empty list: about to call
    [finished.Done()]); returned. *)
Inductive TrackerPC : Type :=
| TSelect
| TCloseAll (todo : list Conn)
| TExited.

(** The accept loop: in [Accept]; sending on [newConn]; about to launch
    [forward]; sending on [closeAllConns]; returned. *)
Inductive AcceptPC : Type :=
| AAccept
| ASendNew (c : Conn)
| AGo (c : Conn)
| ASendCloseAll
| AExited.

(** A call of [Stop]: not made yet; socket closed and sending on
    [closeAllConns]; returned. *)
Inductive StopPC : Type :=
| SNotCalled
| SSendCloseAll
| SReturned.

(** A call of [Wait]: not made yet; inside [finished.Wait()]; returned. *)
Inductive WaitPC : Type :=
| WNotCalled
| WBlocked
| WReturned.

(** A copy goroutine: inside [io.Copy]; about to call [finished.Done()];
    about to call [wg.Done()]; running its deferred closes; returned. *)
Inductive CopyPC : Type :=
| CCopy
| CFinished
| CSignalled
| CClosing
| CExited.

(** A [forward] goroutine: not launched yet; dialling; about to add 2 to
    both wait groups and launch the copies; in [wg.Wait()] with the two
    copies; sending on [closedConn]; returned. *)
Inductive FwdPC : Type :=
| FNotStarted
| FDial
| FAdd
| FWait (c1 c2 : CopyPC)
| FSendClosed
| FExited.

Record RState : Type := mkRState {
  listening : bool;                 (* the listening socket is open *)
  tracker : TrackerPC;
  openConnections : list Conn;      (* the tracker's set *)
  acceptor : AcceptPC;
  stopper : StopPC;
  waiter : WaitPC;
  finished : Z;                     (* the counter of the wait group *)
  forwards : list FwdPC;            (* indexed by connection *)
  closedConns : list Conn;          (* local connections closed so far *)
  openAtStop : list Conn;           (* ghost: [openConnections] when Stop was called *)
}.

(** The state [Start] leaves: socket bound, [finished.Add(1)] done, the
    tracker and the accept loop launched. *)
Definition initR : RState :=
  {| listening := true; tracker := TSelect; openConnections := [];
     acceptor := AAccept; stopper := SNotCalled; waiter := WNotCalled;
     finished := 1; forwards := []; closedConns := []; openAtStop := [] |}.

Inductive Label : Type :=
| LAcceptConn                      (* Accept returns a connection *)
| LAcceptErr                       (* Accept returns an error *)
| LTrackNew                        (* newConn: accept loop -> tracker *)
| LGoForward                       (* go self.forward(conn) *)
| LCloseAllFromAccept              (* closeAllConns: accept loop -> tracker *)
| LStopCall                        (* Stop: tcpListener.Close() *)
| LCloseAllFromStop                (* closeAllConns: Stop -> tracker *)
| LCloseConn                       (* tracker: conn.Close() *)
| LTrackerDone                     (* tracker: finished.Done(); return *)
| LWaitCall                        (* Wait is called *)
| LWaitReturn                      (* finished.Wait() returns *)
| LDialOk (c : Conn)               (* forward: DialTCP succeeds *)
| LDialFail (c : Conn)             (* forward: DialTCP fails; return *)
| LAdd (c : Conn)                  (* forward: wg.Add(2); finished.Add(2); go; go *)
| LCopyReturn (c : Conn) (second : bool)   (* io.Copy returns *)
| LCopyFinished (c : Conn) (second : bool) (* copy: finished.Done() *)
| LCopyWgDone (c : Conn) (second : bool)   (* copy: wg.Done() *)
| LCopyClose (c : Conn) (second : bool)    (* copy: deferred Close of both ends *)
| LForwardWake (c : Conn)          (* forward: wg.Wait() returns *)
| LTrackClosed (c : Conn).         (* closedConn: forward -> tracker *)

Definition set_fwd (c : Conn) (f : FwdPC) (s : RState) : RState :=
  {| listening := listening s; tracker := tracker s;
     openConnections := openConnections s; acceptor := acceptor s;
     stopper := stopper s; waiter := waiter s; finished := finished s;
     forwards := <[c := f]> (forwards s); closedConns := closedConns s;
     openAtStop := openAtStop s |}.

Definition set_finished (n : Z) (s : RState) : RState :=
  {| listening := listening s; tracker := tracker s;
     openConnections := openConnections s; acceptor := acceptor s;
     stopper := stopper s; waiter := waiter s; finished := n;
     forwards := forwards s; closedConns := closedConns s;
     openAtStop := openAtStop s |}.

Definition set_tracker (t : TrackerPC) (s : RState) : RState :=
  {| listening := listening s; tracker := t;
     openConnections := openConnections s; acceptor := acceptor s;
     stopper := stopper s; waiter := waiter s; finished := finished s;
     forwards := forwards s; closedConns := closedConns s;
     openAtStop := openAtStop s |}.

Definition set_open (o : list Conn) (s : RState) : RState :=
  {| listening := listening s; tracker := tracker s;
     openConnections := o; acceptor := acceptor s;
     stopper := stopper s; waiter := waiter s; finished := finished s;
     forwards := forwards s; closedConns := closedConns s;
     openAtStop := openAtStop s |}.

Definition set_acceptor (a : AcceptPC) (s : RState) : RState :=
  {| listening := listening s; tracker := tracker s;
     openConnections := openConnections s; acceptor := a;
     stopper := stopper s; waiter := waiter s; finished := finished s;
     forwards := forwards s; closedConns := closedConns s;
     openAtStop := openAtStop s |}.

Definition set_stopper (p : StopPC) (s : RState) : RState :=
  {| listening := listening s; tracker := tracker s;
     openConnections := openConnections s; acceptor := acceptor s;
     stopper := p; waiter := waiter s; finished := finished s;
     forwards := forwards s; closedConns := closedConns s;
     openAtStop := openAtStop s |}.

Definition set_waiter (w : WaitPC) (s : RState) : RState :=
  {| listening := listening s; tracker := tracker s;
     openConnections := openConnections s; acceptor := acceptor s;
     stopper := stopper s; waiter := w; finished := finished s;
     forwards := forwards s; closedConns := closedConns s;
     openAtStop := openAtStop s |}.

Definition add_closed (c : Conn) (s : RState) : RState :=
  {| listening := listening s; tracker := tracker s;
     openConnections := openConnections s; acceptor := acceptor s;
     stopper := stopper s; waiter := waiter s; finished := finished s;
     forwards := forwards s; closedConns := closedConns s ++ [c];
     openAtStop := openAtStop s |}.

Definition copy_of (second : bool) (c1 c2 : CopyPC) : CopyPC :=
  if second then c2 else c1.

Definition with_copy (second : bool) (c1 c2 p : CopyPC) : FwdPC :=
  if second then FWait c1 p else FWait p c2.

(** A copy goroutine that has called [wg.Done()]. *)
Definition pastWgDone (p : CopyPC) : bool :=
  match p with
  | CClosing | CExited => true
  | _ => false
  end.

(** One step of a copy goroutine of connection [c], from [from] to [to]. *)
Definition copy_step (c : Conn) (second : bool) (from to : CopyPC)
    (eff : RState → RState) (s : RState) : option RState :=
  match forwards s !! c with
  | Some (FWait c1 c2) =>
      match copy_of second c1 c2, from with
      | CCopy, CCopy | CFinished, CFinished
      | CSignalled, CSignalled | CClosing, CClosing =>
          Some (set_fwd c (with_copy second c1 c2 to) (eff s))
      | _, _ => None
      end
  | _ => None
  end.

(** [exec l s]: the state after the step [l], when [l] is enabled in [s]. *)
Definition exec (l : Label) (s : RState) : option RState :=
  match l with
  | LAcceptConn =>
      match acceptor s with
      | AAccept =>
          if listening s
          then Some {| listening := listening s; tracker := tracker s;
                       openConnections := openConnections s;
                       acceptor := ASendNew (List.length (forwards s));
                       stopper := stopper s; waiter := waiter s;
                       finished := finished s;
                       forwards := forwards s ++ [FNotStarted];
                       closedConns := closedConns s;
                       openAtStop := openAtStop s |}
          else None
      | _ => None
      end
  | LAcceptErr =>
      match acceptor s with
      | AAccept => Some (set_acceptor ASendCloseAll s)
      | _ => None
      end
  | LTrackNew =>
      match acceptor s, tracker s with
      | ASendNew c, TSelect =>
          Some (set_acceptor (AGo c) (set_open (c :: openConnections s) s))
      | _, _ => None
      end
  | LGoForward =>
      match acceptor s with
      | AGo c => Some (set_acceptor AAccept (set_fwd c FDial s))
      | _ => None
      end
  | LCloseAllFromAccept =>
      match acceptor s, tracker s with
      | ASendCloseAll, TSelect =>
          Some (set_acceptor AExited (set_tracker (TCloseAll (openConnections s)) s))
      | _, _ => None
      end
  | LStopCall =>
      match stopper s with
      | SNotCalled =>
          Some {| listening := false; tracker := tracker s;
                  openConnections := openConnections s; acceptor := acceptor s;
                  stopper := SSendCloseAll; waiter := waiter s;
                  finished := finished s; forwards := forwards s;
                  closedConns := closedConns s;
                  openAtStop := openConnections s |}
      | _ => None
      end
  | LCloseAllFromStop =>
      match stopper s, tracker s with
      | SSendCloseAll, TSelect =>
          Some (set_stopper SReturned (set_tracker (TCloseAll (openConnections s)) s))
      | _, _ => None
      end
  | LCloseConn =>
      match tracker s with
      | TCloseAll (c :: todo) => Some (set_tracker (TCloseAll todo) (add_closed c s))
      | _ => None
      end
  | LTrackerDone =>
      match tracker s with
      | TCloseAll [] => Some (set_tracker TExited (set_finished (finished s - 1) s))
      | _ => None
      end
  | LWaitCall =>
      match waiter s with
      | WNotCalled => Some (set_waiter WBlocked s)
      | _ => None
      end
  | LWaitReturn =>
      match waiter s with
      | WBlocked => if finished s =? 0 then Some (set_waiter WReturned s) else None
      | _ => None
      end
  | LDialOk c =>
      match forwards s !! c with
      | Some FDial => Some (set_fwd c FAdd s)
      | _ => None
      end
  | LDialFail c =>
      match forwards s !! c with
      | Some FDial => Some (set_fwd c FExited s)
      | _ => None
      end
  | LAdd c =>
      match forwards s !! c with
      | Some FAdd => Some (set_fwd c (FWait CCopy CCopy) (set_finished (finished s + 2) s))
      | _ => None
      end
  | LCopyReturn c second => copy_step c second CCopy CFinished id s
  | LCopyFinished c second =>
      copy_step c second CFinished CSignalled (set_finished (finished s - 1)) s
  | LCopyWgDone c second => copy_step c second CSignalled CClosing id s
  | LCopyClose c second => copy_step c second CClosing CExited (add_closed c) s
  | LForwardWake c =>
      match forwards s !! c with
      | Some (FWait c1 c2) =>
          if pastWgDone c1 && pastWgDone c2 then Some (set_fwd c FSendClosed s) else None
      | _ => None
      end
  | LTrackClosed c =>
      match forwards s !! c, tracker s with
      | Some FSendClosed, TSelect =>
          Some (set_fwd c FExited
                  (set_open (filter (λ x, x ≠ c) (openConnections s)) s))
      | _, _ => None
      end
  end.

(** A schedule, run from [s]; [None] when one of its steps is not enabled. *)
Fixpoint run (sched : list Label) (s : RState) : option RState :=
  match sched with
  | [] => Some s
  | l :: rest =>
      match exec l s with
      | Some s' => run rest s'
      | None => None
      end
  end.

Definition rreachable (s : RState) : Prop := ∃ sched, run sched initR = Some s.

(** The number of [finished.Done()] calls a goroutine still owes. *)
Definition copyOwes (p : CopyPC) : Z :=
  match p with
  | CCopy | CFinished => 1
  | _ => 0
  end.

Definition fwdOwes (f : FwdPC) : Z :=
  match f with
  | FWait c1 c2 => copyOwes c1 + copyOwes c2
  | _ => 0
  end.

Definition trackerOwes (t : TrackerPC) : Z :=
  match t with
  | TExited => 0
  | _ => 1
  end.

(** The sum of what the [forward] goroutines owe. *)
Fixpoint sumOwes (fs : list FwdPC) : Z :=
  match fs with
  | [] => 0
  | f :: fs' => fwdOwes f + sumOwes fs'
  end.

Definition owed (s : RState) : Z :=
  trackerOwes (tracker s) + sumOwes (forwards s).

(** The invariant of the goroutines of a listener: the counter of
    [finished] is what is owed to it; once [Stop] is called the socket is
    closed; once [Stop] has returned the tracker has left its [select]; the
    slot of a connection the accept loop still holds is not launched. *)
Record RInv (s : RState) : Prop := mkRInv {
  rinv_finished : finished s = owed s;
  rinv_closed : stopper s ≠ SNotCalled → listening s = false;
  rinv_signalled : stopper s = SReturned → tracker s ≠ TSelect;
  rinv_slot : ∀ c, acceptor s = ASendNew c ∨ acceptor s = AGo c →
                forwards s !! c = Some FNotStarted;
}.

(** A copy goroutine of the connection has not called [finished.Done()]
    yet. *)
Definition copiesRunning (f : option FwdPC) : bool :=
  match f with
  | Some (FWait c1 c2) => negb (copyOwes c1 + copyOwes c2 =? 0)
  | _ => false
  end.

(** [Stop] waits for completion: once it has returned, the tracker has
    returned and no copy goroutine of a connection that was open when
    [Stop] was called is still running. *)
Definition Stop_waits_for_completion : Prop :=
  ∀ s, rreachable s → stopper s = SReturned →
    tracker s = TExited ∧
    ∀ c, c ∈ openAtStop s → copiesRunning (forwards s !! c) = false.

(** A connection accepted and being copied, then [Stop]. *)
Definition early_return_schedule : list Label :=
  [LAcceptConn; LTrackNew; LGoForward; LDialOk 0%nat; LAdd 0%nat;
   LStopCall; LCloseAllFromStop].

(** [Stop], and the accept loop's own close-all signal wins the race. *)
Definition blocked_stop_schedule : list Label :=
  [LStopCall; LAcceptErr; LCloseAllFromAccept; LTrackerDone].

(** The states these schedules lead to. *)
Definition early_return_state : RState :=
  {| listening := false; tracker := TCloseAll [0%nat]; openConnections := [0%nat];
     acceptor := AAccept; stopper := SReturned; waiter := WNotCalled;
     finished := 3; forwards := [FWait CCopy CCopy]; closedConns := [];
     openAtStop := [0%nat] |}.

Definition blocked_stop_state : RState :=
  {| listening := false; tracker := TExited; openConnections := [];
     acceptor := AExited; stopper := SSendCloseAll; waiter := WNotCalled;
     finished := 0; forwards := []; closedConns := []; openAtStop := [] |}.

End Relay.

(** ** A concrete run, for the examples *)

Module Scenario.

Definition web : Container :=
  mkContainer "c1" "/web_app"
    [mkAPIPort 8080 51234 "tcp" "0.0.0.0"; mkAPIPort 443 32768 "tcp" "0.0.0.0"].

Definition web2 : Container :=
  mkContainer "c2" "/web-app" [mkAPIPort 8080 51235 "tcp" "0.0.0.0"].

Definition env0 : Env :=
  {| InspectContainer := λ cid,
       if decide (cid = "c1") then Some web
       else if decide (cid = "c2") then Some web2
       else None;
     ResolveIPAddr := λ s, match ParseIP s with [] => None | ip => Some (ip, "") end;
     ifconfigAlias := λ _, true;
     ListenTCP := λ _, true;
     rangeSourceAddrs := keys |}.

Definition fep : Z := 49152.
Definition dip : netIP := IPv4 192 168 99 100.

Definition after (r : Outcome (list Listener * State)) : State :=
  match r with
  | Ret (_, st) => st
  | Panic _ => initState
  end.

Definition started (r : Outcome (list Listener * State)) : list Listener :=
  match r with
  | Ret (out, _) => out
  | Panic _ => []
  end.

(** c1 starts, c2 starts, c1 stops. *)
Definition st1 : State := after (addContainer fep dip env0 "c1" initState).
Definition st2 : State := after (addContainer fep dip env0 "c2" st1).
Definition st3 : State :=
  stateOf (removeContainer (λ _, true) (keys (containerListeners st2)) "c1" st2).

(** c1 starts, c2 starts, c1 stops and the first [Stop] blocks. *)
Definition st2_blocked : State :=
  stateOf (removeContainer (λ _, false) (keys (containerListeners st2)) "c1" st2).

End Scenario.

(** ** Predicates of the further properties *)

(** The key spells a loopback address 127.b.c.d at or after the start
    address 127.2.2.1. *)
Definition loopbackKey (k : string) : Prop :=
  ∃ b c d, isByte b ∧ isByte c ∧ isByte d ∧ k = IP_String [127; b; c; d] ∧
    ipValue 127 2 2 1 ≤ ipValue 127 b c d.

(** The addresses of the table are loopback addresses from the start
    address on, without a gap. *)
Record AddrInv (st : State) : Prop := mkAddrInv {
  ainv_loopback : ∀ k, is_Some (sourceAddrs st !! k) → loopbackKey k;
  ainv_nogap : ∀ k v, is_Some (sourceAddrs st !! k) →
                 ipValue 127 2 2 1 ≤ v ≤ addrNum k →
                 ∃ k', is_Some (sourceAddrs st !! k') ∧ addrNum k' = v;
}.

(** The addresses the log shows as aliased on the loopback interface. *)
Fixpoint aliased (tr : list Event) : list string :=
  match tr with
  | [] => []
  | EvIfconfig addr :: tr' => addr :: aliased tr'
  | _ :: tr' => aliased tr'
  end.

(** Every address of the table was aliased once, and nothing else was. *)
Record AliasInv (st : State) : Prop := mkAliasInv {
  alias_nodup : NoDup (aliased (trace st));
  alias_dom : ∀ k, k ∈ aliased (trace st) ↔ is_Some (sourceAddrs st !! k);
}.

(** The addresses were aliased in increasing order, from the start address
    on: the i-th of them has the 32-bit value of 127.2.2.1 plus i. *)
Definition aliased_in_order (st : State) : Prop :=
  ∀ i addr, aliased (trace st) !! i = Some addr →
    addrNum addr = ipValue 127 2 2 1 + Z.of_nat i.

(** Every entry of the zone is the source address of a registered listener
    with that hostname. *)
Definition zone_fresh (st : State) : Prop :=
  ∀ n ip, dnsZone st !! n = Some ip →
    ∃ key l, containerListeners st !! key = Some l ∧ DNSName l = n ∧ IP (Src l) = ip.

(** Two states hold the same three maps (their logs may differ). *)
Definition same_maps (s1 s2 : State) : Prop :=
  sourceAddrs s1 = sourceAddrs s2 ∧ dnsZone s1 = dnsZone s2 ∧
  containerListeners s1 = containerListeners s2.

(** The string has no colon. *)
Fixpoint noColon (s : string) : bool :=
  match s with
  | EmptyString => true
  | String c s' => negb (Ascii.eqb c ":"%char) && noColon s'
  end.

Module RelayInv.
Import Relay.

(** The [forward] goroutine of the connection is running. *)
Definition fwdActive (f : FwdPC) : bool :=
  match f with
  | FDial | FAdd | FWait _ _ | FSendClosed => true
  | FNotStarted | FExited => false
  end.

(** The tracker knows every connection whose [forward] is running, and the
    one the accept loop is about to launch [forward] for. *)
Record TrackInv (s : RState) : Prop := mkTrackInv {
  track_active : ∀ c f, forwards s !! c = Some f → fwdActive f = true →
                   c ∈ openConnections s;
  track_go : ∀ c, acceptor s = AGo c → c ∈ openConnections s;
  track_slot : ∀ c, acceptor s = ASendNew c ∨ acceptor s = AGo c →
                 forwards s !! c = Some FNotStarted;
}.

(** In the close-all branch every tracked connection is closed or still to
    close; after it, every tracked connection is closed. *)
Definition CloseInv (s : RState) : Prop :=
  match tracker s with
  | TSelect => True
  | TCloseAll todo => ∀ c, c ∈ openConnections s → c ∈ todo ∨ c ∈ closedConns s
  | TExited => ∀ c, c ∈ openConnections s → c ∈ closedConns s
  end.

(** The tracker takes one close-all signal: [Stop] has not returned and the
    accept loop has not returned while the tracker is at its [select], and
    they never both have. *)
Definition OneSignal (s : RState) : Prop :=
  (tracker s = TSelect → stopper s ≠ SReturned ∧ acceptor s ≠ AExited) ∧
  ¬ (stopper s = SReturned ∧ acceptor s = AExited).

End RelayInv.

(** ** The event loop of [main] *)

(** [docker.APIEvents]: the fields the loop reads. *)
Record APIEvents : Type := mkAPIEvents {
  Status : string;
  Event_ID : string;
}.

(** What the runtime decides while one event is handled: the environment,
    the order in which [removeContainer] ranges over the registry and
    whether the [Stop] of a listener returns. *)
Record Turn : Type := mkTurn {
  turnEnv : Env;
  rangeListeners : gmap string Listener → list string;
  stopReturns : Listener → bool;
}.

Definition turn_ok (t : Turn) : Prop :=
  range_ok (turnEnv t) ∧ ∀ m, rangeListeners t m ≡ₚ keys m.

(** The body of [for ev := range dockerEvents]. *)
Definition handleEvent (fep : Z) (dip : netIP) (t : Turn) (ev : APIEvents)
    (st : State) : Outcome Progress :=
  if bool_decide (Status ev = "start") || bool_decide (Status ev = "unpause")
  then '(_, st') ←! addContainer fep dip (turnEnv t) (Event_ID ev) st; Ret (Returned st')
  else if bool_decide (Status ev = "stop") || bool_decide (Status ev = "pause")
          || bool_decide (Status ev = "die")
  then Ret (removeContainer (stopReturns t) (rangeListeners t (containerListeners st))
              (Event_ID ev) st)
  else Ret (Returned st).

(** The loop takes the next event when the body has returned; when a
    [Stop] blocks, the loop is blocked for good. *)
Fixpoint eventLoop (fep : Z) (dip : netIP) (evs : list (Turn * APIEvents))
    (st : State) : Outcome Progress :=
  match evs with
  | [] => Ret (Returned st)
  | (t, ev) :: rest =>
      r ←! handleEvent fep dip t ev st;
      match r with
      | Returned st' => eventLoop fep dip rest st'
      | Blocked st' => Ret (Blocked st')
      end
  end.

(** [for _, c := range containers { addContainer(dockerClient, c.ID) }] *)
Fixpoint startupLoop (fep : Z) (dip : netIP) (cs : list (Turn * string))
    (st : State) : Outcome State :=
  match cs with
  | [] => Ret st
  | (t, cid) :: rest =>
      '(_, st') ←! addContainer fep dip (turnEnv t) cid st; startupLoop fep dip rest st'
  end.

(** [main], from the creation of the maps on: the containers listed at
    startup, then the events. *)
Definition mainLoop (fep : Z) (dip : netIP) (cs : list (Turn * string))
    (evs : list (Turn * APIEvents)) : Outcome Progress :=
  st ←! startupLoop fep dip cs initState; eventLoop fep dip evs st.

(** * Proofs *)

(** * Hostname derivation *)

Lemma isHyphen_allowed c : isHyphen c = true → allowedChar c = true.
Proof. unfold isHyphen, allowedChar. intros ->. reflexivity. Qed.

Lemma replaceDisallowed_allowed b s : allAllowed (replaceDisallowed b s) = true.
Proof.
  revert b. induction s as [|c s IH]; intros b; simpl; [done|].
  destruct (allowedChar c) eqn:Hc; simpl.
  - by rewrite Hc, IH.
  - destruct b; simpl; by rewrite ?IH.
Qed.

Lemma trimLeftHyphens_allowed s :
  allAllowed s = true → allAllowed (trimLeftHyphens s) = true.
Proof.
  induction s as [|c s IH]; simpl; [done|].
  intros [Hc Hs]%andb_prop. destruct (isHyphen c); simpl; [auto|].
  by rewrite Hc, Hs.
Qed.

Lemma trimRightHyphens_allowed s :
  allAllowed s = true → allAllowed (trimRightHyphens s) = true.
Proof.
  induction s as [|c s IH]; simpl; [done|].
  intros [Hc Hs]%andb_prop. specialize (IH Hs).
  destruct (trimRightHyphens s) eqn:Hr.
  - destruct (isHyphen c); simpl; [done|]. by rewrite Hc.
  - simpl in *. by rewrite Hc, IH.
Qed.

Lemma collapseHyphens_allowed b s :
  allAllowed s = true → allAllowed (collapseHyphens b s) = true.
Proof.
  revert b. induction s as [|c s IH]; intros b; simpl; [done|].
  intros [Hc Hs]%andb_prop.
  destruct (isHyphen c), b; simpl; rewrite ?Hc; simpl; auto.
Qed.

Lemma trimLeftHyphens_start s : startsWithHyphen (trimLeftHyphens s) = false.
Proof.
  induction s as [|c s IH]; simpl; [done|].
  destruct (isHyphen c) eqn:Hc; simpl; [done|]. by rewrite Hc.
Qed.

Lemma trimRightHyphens_start s :
  startsWithHyphen s = false → startsWithHyphen (trimRightHyphens s) = false.
Proof.
  destruct s as [|c s]; simpl; [done|]. intros Hc.
  destruct (trimRightHyphens s); rewrite ?Hc; simpl; by rewrite ?Hc.
Qed.

Lemma trimRightHyphens_end s : endsWithHyphen (trimRightHyphens s) = false.
Proof.
  induction s as [|c s IH]; simpl; [done|].
  destruct (trimRightHyphens s) as [|c' r] eqn:Hr.
  - destruct (isHyphen c) eqn:Hc; simpl; [done|]. by rewrite Hc.
  - exact IH.
Qed.

Lemma collapseHyphens_start s :
  startsWithHyphen s = false → startsWithHyphen (collapseHyphens false s) = false.
Proof.
  destruct s as [|c s]; simpl; [done|]. intros Hc. by rewrite Hc.
Qed.

Lemma collapseHyphens_true_start s :
  startsWithHyphen (collapseHyphens true s) = false.
Proof.
  induction s as [|c s IH]; simpl; [done|].
  destruct (isHyphen c) eqn:Hc; simpl; [done|]. by rewrite Hc.
Qed.

Lemma collapseHyphens_end b s :
  endsWithHyphen s = false → endsWithHyphen (collapseHyphens b s) = false.
Proof.
  revert b. induction s as [|c s IH]; intros b; simpl; [done|].
  destruct s as [|c' s'].
  - intros Hc. rewrite Hc. simpl. by rewrite Hc.
  - intros Hs.
    assert (Hne : ∀ b', collapseHyphens b' (String c' s') ≠ EmptyString
                        ∨ endsWithHyphen (String c' s') = true).
    { intros b'. clear IH. revert b' c' Hs. induction s' as [|c'' s'' IH']; intros b' c' Hs.
      - simpl in *. destruct (isHyphen c'); [by right|]. by left.
      - destruct (IH' (if isHyphen c' then true else false) c'' Hs) as [Hn|He].
        + left. simpl. simpl in Hn.
          destruct (isHyphen c'); [destruct b'|]; try done.
        + right. exact He. }
    destruct (isHyphen c) eqn:Hc.
    + destruct b; [by apply IH|].
      destruct (Hne true) as [Hn|He]; [|congruence].
      specialize (IH true Hs).
      destruct (collapseHyphens true (String c' s')) eqn:E; [done|]. exact IH.
    + destruct (Hne false) as [Hn|He]; [|congruence].
      specialize (IH false Hs).
      destruct (collapseHyphens false (String c' s')) eqn:E; [done|]. exact IH.
Qed.

Lemma collapseHyphens_no_double b s : hasDoubleHyphen (collapseHyphens b s) = false.
Proof.
  revert b. induction s as [|c s IH]; intros b; simpl; [done|].
  destruct (isHyphen c) eqn:Hc.
  - destruct b; [apply IH|]. simpl.
    by rewrite collapseHyphens_true_start, IH, andb_false_r.
  - simpl. by rewrite Hc, IH.
Qed.

Lemma nonHyphens_replaceDisallowed b s :
  nonHyphens (replaceDisallowed b s) = nonHyphens (stripDisallowed s).
Proof.
  revert b. induction s as [|c s IH]; intros b; simpl; [done|].
  destruct (allowedChar c); simpl; [by rewrite IH|].
  destruct b; simpl; by rewrite IH.
Qed.

Lemma nonHyphens_trimLeft s : nonHyphens (trimLeftHyphens s) = nonHyphens s.
Proof.
  induction s as [|c s IH]; simpl; [done|].
  destruct (isHyphen c) eqn:Hc; simpl; [done|]. by rewrite Hc.
Qed.

Lemma nonHyphens_trimRight s : nonHyphens (trimRightHyphens s) = nonHyphens s.
Proof.
  induction s as [|c s IH]; simpl; [done|].
  destruct (trimRightHyphens s) eqn:Hr; simpl in *.
  - rewrite <- IH. destruct (isHyphen c) eqn:Hc; simpl; by rewrite ?Hc.
  - by rewrite <- IH.
Qed.

Lemma nonHyphens_collapse b s : nonHyphens (collapseHyphens b s) = nonHyphens s.
Proof.
  revert b. induction s as [|c s IH]; intros b; simpl; [done|].
  destruct (isHyphen c) eqn:Hc; [destruct b|]; simpl; rewrite ?Hc, ?IH; done.
Qed.



Lemma byteText_all : forallb byteText_ok (seqZ 0 256) = true.
Proof. vm_compute. reflexivity. Qed.

Lemma byteText b : isByte b → parseField (pretty b) = Some b ∧ noDot (pretty b) = true.
Proof.
  intros Hb. pose proof byteText_all as H.
  rewrite forallb_forall in H.
  specialize (H b). unfold byteText_ok in H.
  rewrite andb_true_iff, bool_decide_eq_true in H. apply H.
  apply list_elem_of_In, elem_of_seqZ. unfold isByte in Hb. lia.
Qed.

Lemma fields_noDot s : noDot s = true → fields s = [s].
Proof.
  induction s as [|c s IH]; simpl; [done|].
  intros [Hc Hs]%andb_prop. rewrite (IH Hs).
  apply negb_true_iff in Hc. by rewrite Hc.
Qed.

Lemma fields_nonempty s : fields s ≠ [].
Proof.
  induction s as [|c s IH]; simpl; [done|].
  destruct (fields s); [done|]. by destruct (Ascii.eqb c ".").
Qed.

Lemma fields_app_dot s1 s2 :
  noDot s1 = true → fields (s1 +:+ String "."%char s2) = s1 :: fields s2.
Proof.
  induction s1 as [|c s1 IH]; simpl.
  - intros _. pose proof (fields_nonempty s2). by destruct (fields s2).
  - intros [Hc Hs]%andb_prop. rewrite (IH Hs).
    apply negb_true_iff in Hc. by rewrite Hc.
Qed.

Lemma ParseIP_dotted a b c d :
  isByte a → isByte b → isByte c → isByte d →
  ParseIP (pretty a +:+ "." +:+ pretty b +:+ "." +:+ pretty c +:+ "." +:+ pretty d)
  = IPv4 a b c d.
Proof.
  intros [Ha Na]%byteText [Hb Nb]%byteText [Hc Nc]%byteText [Hd Nd]%byteText.
  unfold ParseIP.
  change (pretty a +:+ "." +:+ pretty b +:+ "." +:+ pretty c +:+ "." +:+ pretty d)
    with (pretty a +:+ String "."%char (pretty b +:+ String "."%char
            (pretty c +:+ String "."%char (pretty d)))).
  rewrite !fields_app_dot, (fields_noDot _ Nd) by done.
  by rewrite Ha, Hb, Hc, Hd.
Qed.

Lemma IP_String_4 a b c d :
  IP_String [a; b; c; d]
  = pretty a +:+ "." +:+ pretty b +:+ "." +:+ pretty c +:+ "." +:+ pretty d.
Proof. reflexivity. Qed.

Lemma IP_String_IPv4 a b c d : IP_String (IPv4 a b c d) = IP_String [a; b; c; d].
Proof. reflexivity. Qed.

Lemma ParseIP_String a b c d :
  isByte a → isByte b → isByte c → isByte d →
  ParseIP (IP_String [a; b; c; d]) = IPv4 a b c d.
Proof. intros. rewrite IP_String_4. by apply ParseIP_dotted. Qed.

(** Bits *)
Lemma lor_mul_add hi lo m k :
  m = 2 ^ k → 0 ≤ k → 0 ≤ lo < m → Z.lor (hi * m) lo = hi * m + lo.
Proof.
  intros -> Hk Hlo.
  assert (Hland : Z.land (hi * 2 ^ k) lo = 0).
  { apply Z.bits_inj'; intros n Hn. rewrite Z.land_spec, Z.bits_0.
    destruct (Z.lt_ge_cases n k).
    - by rewrite Z.mul_pow2_bits_low by lia.
    - rewrite andb_comm. destruct (decide (lo = 0)) as [->|].
      + by rewrite Z.bits_0.
      + rewrite (Z.bits_above_log2 lo n); [done|lia|].
        apply Z.lt_le_trans with k; [|done]. apply Z.log2_lt_pow2; lia. }
  by rewrite Z.add_nocarry_lxor, Z.lxor_lor.
Qed.

Lemma ipToInt_IPv4 a b c d :
  isByte a → isByte b → isByte c → isByte d →
  ipToInt (IPv4 a b c d) = Some (ipValue a b c d).
Proof.
  unfold isByte, ipValue. intros Ha Hb Hc Hd.
  unfold ipToInt, IPv4. simpl. f_equal.
  rewrite !Z.shiftl_mul_pow2 by lia.
  change (2 ^ 32) with 4294967296. change (2 ^ 24) with 16777216.
  change (2 ^ 16) with 65536. change (2 ^ 8) with 256.
  rewrite !Z.mod_small by lia.
  rewrite (lor_mul_add a (b * 65536) 16777216 24) by (done || lia).
  replace (a * 16777216 + b * 65536) with ((a * 256 + b) * 65536) by lia.
  rewrite (lor_mul_add _ (c * 256) 65536 16) by (done || lia).
  replace ((a * 256 + b) * 65536 + c * 256) with (((a * 256 + b) * 256 + c) * 256) by lia.
  rewrite (lor_mul_add _ d 256 8) by (done || lia).
  lia.
Qed.

Lemma succIP_IPv4 a b c d :
  isByte a → isByte b → isByte c → isByte d →
  ∃ a' b' c' d', isByte a' ∧ isByte b' ∧ isByte c' ∧ isByte d' ∧
    succIP (IPv4 a b c d) = Ret [a'; b'; c'; d'] ∧
    ipValue a' b' c' d' = (ipValue a b c d + 1) mod 2^32.
Proof.
  intros Ha Hb Hc Hd. unfold succIP.
  rewrite ipToInt_IPv4 by done.
  change (To4 (IPv4 a b c d)) with [a; b; c; d]. cbv beta iota.
  set (m := (ipValue a b c d + 1) mod 2 ^ 32).
  assert (Hm : 0 ≤ m < 2^32) by (apply Z.mod_pos_bound; lia).
  eexists _, _, _, _. split_and!; [..|reflexivity|];
    unfold byte_of, isByte, ipValue; rewrite ?Z.shiftr_div_pow2 by lia;
    try (apply Z.mod_pos_bound; lia).
  clearbody m. change (2^24) with 16777216. change (2^16) with 65536.
  change (2^8) with 256. change (2^32) with 4294967296 in Hm.
  change (2^0) with 1.
  Z.div_mod_to_equations. lia.
Qed.



Lemma elem_of_keys {V} (m : gmap string V) k : k ∈ keys m ↔ is_Some (m !! k).
Proof.
  unfold keys. rewrite list_elem_of_fmap. split.
  - intros [[k' v] [-> Hin]]. apply elem_of_map_to_list in Hin. by exists v.
  - intros [v Hv]. exists (k, v). split; [done|]. by apply elem_of_map_to_list.
Qed.

Lemma canonical_ParseIP k :
  canonical k → ∃ a b c d, isByte a ∧ isByte b ∧ isByte c ∧ isByte d ∧
    k = IP_String [a; b; c; d] ∧ ParseIP k = IPv4 a b c d ∧
    ipToInt (ParseIP k) = Some (ipValue a b c d) ∧ addrNum k = ipValue a b c d.
Proof.
  intros (a & b & c & d & Ha & Hb & Hc & Hd & ->).
  exists a, b, c, d. split_and!; try done.
  - by apply ParseIP_String.
  - rewrite ParseIP_String by done. by apply ipToInt_IPv4.
  - unfold addrNum. rewrite ParseIP_String by done. by rewrite ipToInt_IPv4.
Qed.

Lemma canonical_roundtrip k : canonical k → IP_String (ParseIP k) = k.
Proof.
  intros (a & b & c & d & _ & _ & _ & _ & -> & -> & _)%canonical_ParseIP.
  apply IP_String_IPv4.
Qed.

Lemma canonical_nonempty k : canonical k → k ≠ "".
Proof.
  intros (a & b & c & d & _ & _ & _ & _ & ->). rewrite IP_String_4.
  destruct (pretty a); discriminate.
Qed.

Lemma canonical_ParseIP_cons k : canonical k → ∃ x xs, ParseIP k = x :: xs.
Proof.
  intros (a & b & c & d & _ & _ & _ & _ & _ & -> & _)%canonical_ParseIP.
  by eexists _, _.
Qed.

Lemma ipValue_inj a b c d a' b' c' d' :
  isByte a → isByte b → isByte c → isByte d →
  isByte a' → isByte b' → isByte c' → isByte d' →
  ipValue a b c d = ipValue a' b' c' d' → a = a' ∧ b = b' ∧ c = c' ∧ d = d'.
Proof. unfold isByte, ipValue. lia. Qed.

Lemma canonical_addrNum_inj k1 k2 :
  canonical k1 → canonical k2 → addrNum k1 = addrNum k2 → k1 = k2.
Proof.
  intros (a & b & c & d & ? & ? & ? & ? & -> & _ & _ & ->)%canonical_ParseIP
         (a' & b' & c' & d' & ? & ? & ? & ? & -> & _ & _ & ->)%canonical_ParseIP Heq.
  apply ipValue_inj in Heq as (-> & -> & -> & ->); done.
Qed.

Lemma scanSourceAddrs_spec sa port order la lip :
  keys_canonical sa → scan_vars la lip →
  match scanSourceAddrs sa port order la lip with
  | Ret (Found addr ls) =>
      addr ∈ order ∧ sa !! addr = Some ls ∧ ls !! port = None
  | Ret (NotFound last) =>
      (∀ addr ls, addr ∈ order → sa !! addr = Some ls → is_Some (ls !! port)) ∧
      (last = la ∨ (last ∈ order ∧ is_Some (sa !! last))) ∧
      (∀ addr, addr ∈ order → is_Some (sa !! addr) → addrNum addr ≤ addrNum last) ∧
      (la ≠ "" → last ≠ "" ∧ addrNum la ≤ addrNum last) ∧
      (last = "" → ∀ addr, addr ∈ order → sa !! addr = None)
  | Panic _ => False
  end.
Proof.
  intros Hsa. revert la lip.
  induction order as [|addr rest IH]; intros la lip Hv; simpl.
  - split_and!; [by intros ?? ?%elem_of_nil| by left | by intros ? ?%elem_of_nil | done
                 | by intros _ ? ?%elem_of_nil].
  - destruct (sa !! addr) as [ls|] eqn:Hls.
    2:{ specialize (IH la lip Hv).
        destruct (scanSourceAddrs sa port rest la lip) as [[a' ls'|last]|]; [|
          |done].
        - destruct IH as (? & ? & ?). split_and!; [by right|done..].
        - destruct IH as (K1 & K2 & K3 & K4 & K7). split_and!.
          + intros a l [->|?]%elem_of_cons ?; [congruence|eauto].
          + destruct K2 as [?|[? ?]]; [by left|right; split; [by right|done]].
          + intros a [->|?]%elem_of_cons [? ?]; [congruence|eauto].
          + done.
          + intros Hl a [->|?]%elem_of_cons; [done|eauto]. }
    assert (Hcan : canonical addr) by (apply Hsa; eauto).
    destruct (canonical_ParseIP _ Hcan) as (a & b & c & d & ? & ? & ? & ? & Hk & HP & HI & HN).
    assert (Hhigher : ∃ h : bool,
      match lip with
      | [] => Ret true
      | _ => match ipToInt (ParseIP addr), ipToInt lip with
             | Some x, Some y => Ret (y <? x)
             | _, _ => Panic "index out of range"
             end
      end = Ret h ∧ (h = true → la ≠ "" → addrNum la ≤ addrNum addr)
      ∧ (h = false → la ≠ "" ∧ addrNum addr ≤ addrNum la)).
    { destruct Hv as [[-> ->]|[Hla ->]].
      - exists true. by split_and!.
      - destruct (canonical_ParseIP _ Hla) as
          (a' & b' & c' & d' & ? & ? & ? & ? & Hk' & HP' & HI' & HN').
        rewrite HI, HI'. rewrite HP'. unfold IPv4. simpl.
        exists (ipValue a' b' c' d' <? ipValue a b c d). split; [done|].
        rewrite HN, HN'. split.
        + intros ?%Z.ltb_lt _. lia.
        + intros ?%Z.ltb_ge. split; [by apply canonical_nonempty|lia]. }
    destruct Hhigher as (h & -> & Hht & Hhf). simpl.
    destruct (ls !! port) as [d0|] eqn:Hport.
    2:{ split_and!; [by left|done|done]. }
    destruct h.
    + specialize (IH addr (ParseIP addr)).
      destruct (scanSourceAddrs sa port rest addr (ParseIP addr)) as [[a' ls'|last]|].
      * destruct IH as (? & ? & ?); [by right|]. split_and!; [by right|done..].
      * destruct IH as (K1 & K2 & K3 & K4 & K7); [by right|].
        destruct K4 as [K4 K5]; [by apply canonical_nonempty|].
        split_and!; [| | | |done].
        -- intros a0 l0 [->|?]%elem_of_cons Hl0; [|eauto].
           rewrite Hls in Hl0. injection Hl0 as <-. eauto.
        -- right. destruct K2 as [->|[? ?]]; [split; [by left|eauto]|].
           split; [by right|done].
        -- intros a0 [->|?]%elem_of_cons ?; [done|eauto].
        -- intros Hla. split; [done|]. specialize (Hht eq_refl Hla). lia.
      * apply IH. by right.
    + specialize (IH la lip Hv).
      destruct (Hhf eq_refl) as [Hla Hle].
      destruct (scanSourceAddrs sa port rest la lip) as [[a' ls'|last]|]; [| |done].
      * destruct IH as (? & ? & ?). split_and!; [by right|done..].
      * destruct IH as (K1 & K2 & K3 & K4 & K7). destruct (K4 Hla) as [K5 K6].
        split_and!; [| | | |done].
        -- intros a0 l0 [->|?]%elem_of_cons Hl0; [|eauto].
           rewrite Hls in Hl0. injection Hl0 as <-. eauto.
        -- destruct K2 as [?|[? ?]]; [by left|right; split; [by right|done]].
        -- intros a0 [->|?]%elem_of_cons ?; [lia|eauto].
        -- done.
Qed.

Lemma keys_empty_inv {V} (m : gmap string V) (order : list string) :
  order ≡ₚ keys m → (∀ k, k ∈ order → m !! k = None) → m = ∅.
Proof.
  intros Hp Hn. apply map_empty. intros k.
  destruct (m !! k) eqn:Hk; [|done].
  assert (k ∈ order) as Hin by (rewrite Hp; apply elem_of_keys; eauto).
  rewrite (Hn k Hin) in Hk. done.
Qed.

Lemma getSourceAddr_Ret port addr src :
  getSourceAddr port addr = Ret src →
  src = {| IP := ParseIP addr; Port := port; Zone := "" |} ∧ 0 ≤ port ≤ 65535.
Proof.
  unfold getSourceAddr. destruct (ParseIP addr) eqn:HP; [done|].
  destruct (0 <=? port) eqn:H1, (port <=? 65535) eqn:H2; simpl; try done.
  intros [= <-]. split; [done|lia].
Qed.

Lemma getSourceAddr_canonical port addr :
  canonical addr → 0 ≤ port ≤ 65535 →
  getSourceAddr port addr = Ret {| IP := ParseIP addr; Port := port; Zone := "" |}.
Proof.
  intros [x [xs HP]]%canonical_ParseIP_cons Hport. unfold getSourceAddr. rewrite HP.
  destruct (0 <=? port) eqn:H1, (port <=? 65535) eqn:H2; simpl; try done; lia.
Qed.

Lemma sourceAddrForPort_spec env port dest st src st' :
  range_ok env → keys_canonical (sourceAddrs st) →
  sourceAddrForPort env port dest st = Ret (src, st') →
  ∃ addr, canonical addr ∧
    src = {| IP := ParseIP addr; Port := port; Zone := "" |} ∧
    0 ≤ port ≤ 65535 ∧
    dnsZone st' = dnsZone st ∧ containerListeners st' = containerListeners st ∧
    (reused st st' addr port dest ∨ provisioned st st' addr port dest).
Proof.
  intros Hr Hc. unfold sourceAddrForPort.
  pose proof (scanSourceAddrs_spec (sourceAddrs st) port
                (rangeSourceAddrs env (sourceAddrs st)) "" [] Hc) as Hscan.
  destruct (scanSourceAddrs _ _ _ _ _) as [[addr ls|last]|]; simpl; [| |done].
  - destruct Hscan as (Hin & Hls & Hp); [by left|].
    destruct (getSourceAddr port addr) as [src0|] eqn:Hg; simpl; [|done].
    intros [= <- <-]. apply getSourceAddr_Ret in Hg as [-> Hport].
    exists addr. split_and!; try done; try lia; [apply Hc; eauto|].
    left. exists ls. by split_and!.
  - destruct Hscan as (K1 & K2 & K3 & K4 & K5); [by left|].
    assert (Hall : ∀ a ls, sourceAddrs st !! a = Some ls → is_Some (ls !! port)).
    { intros a ls Hls. apply (K1 a ls); [|done]. rewrite (Hr _). apply elem_of_keys. eauto. }
    unfold nextSourceIP. destruct (decide (last = "")) as [->|Hne]; cbn [obind].
    + assert (Hemp : sourceAddrs st = ∅).
      { apply (keys_empty_inv _ _ (Hr _)). by apply K5. }
      change (IsLoopback SourceStartIP) with true.
      change (IP_String SourceStartIP) with "127.2.2.1". cbn [negb].
      destruct (ifconfigAlias env "127.2.2.1"); cbn [negb]; [|done].
      destruct (getSourceAddr port "127.2.2.1") as [src0|] eqn:Hg; cbn [obind]; [|done].
      intros [= <- <-]. apply getSourceAddr_Ret in Hg as [-> Hport].
      exists "127.2.2.1". split_and!; try done; try lia.
      * exists 127, 2, 2, 1. unfold isByte. split_and!; try lia. reflexivity.
      * right. split_and!; try done;
          [by rewrite Hemp|by (simpl; rewrite <- app_assoc)|by left].
    + destruct K2 as [?|[Hlin Hlast]]; [done|].
      assert (Hlc : canonical last) by (by apply Hc).
      destruct (canonical_ParseIP _ Hlc) as (a & b & c & d & ? & ? & ? & ? & Hk & HP & HI & HN).
      rewrite HP. change (IPv4 a b c d) with (0 :: tail (IPv4 a b c d)).
      cbv iota. change (0 :: tail (IPv4 a b c d)) with (IPv4 a b c d).
      destruct (succIP_IPv4 a b c d) as (a' & b' & c' & d' & Ha' & Hb' & Hc' & Hd' & -> & Hv);
        try done.
      cbn [obind].
      change (IsLoopback [a'; b'; c'; d']) with (a' =? 127).
      destruct (a' =? 127) eqn:Ha127; cbn [negb]; [|done].
      apply Z.eqb_eq in Ha127. subst a'.
      set (addr := IP_String [127; b'; c'; d']).
      assert (Hac : canonical addr) by (exists 127, b', c', d'; by split_and!).
      destruct (ifconfigAlias env addr); cbn [negb]; [|done].
      destruct (getSourceAddr port addr) as [src0|] eqn:Hg; cbn [obind]; [|done].
      intros [= <- <-]. apply getSourceAddr_Ret in Hg as [-> Hport].
      assert (Hnum : addrNum addr = addrNum last + 1).
      { destruct (canonical_ParseIP _ Hac) as
          (a2 & b2 & c2 & d2 & ? & ? & ? & ? & Hk2 & _ & _ & HN2).
        unfold addr in Hk2. rewrite !IP_String_4 in Hk2.
        assert (ParseIP (IP_String [127; b'; c'; d']) = ParseIP (IP_String [a2; b2; c2; d2]))
          as HPP by (by rewrite !IP_String_4, Hk2).
        rewrite !ParseIP_String in HPP by done.
        injection HPP as <- <- <- <-.
        rewrite HN2, HN, Hv.
        unfold isByte, ipValue in *.
        change (2 ^ 32) with 4294967296 in *.
        destruct (decide (a * 16777216 + b * 65536 + c * 256 + d + 1 < 4294967296)).
        - rewrite Z.mod_small in * by lia. done.
        - assert (a * 16777216 + b * 65536 + c * 256 + d + 1 = 4294967296) as E by lia.
          rewrite E, Z.mod_same in Hv by lia. lia. }
      exists addr. split_and!; try done; try lia.
      right. split_and!; try done.
      * destruct (sourceAddrs st !! addr) eqn:Haddr; [|done].
        assert (addrNum addr ≤ addrNum last).
        { apply K3; [|eauto]. rewrite (Hr _). apply elem_of_keys. eauto. }
        lia.
      * simpl. by rewrite <- app_assoc.
      * right. exists last. split_and!; try done.
        intros k Hk'. apply K3; [|done]. rewrite (Hr _). by apply elem_of_keys.
Qed.



Lemma Inv_init : Inv initState.
Proof.
  split; simpl.
  - intros k [? Hk]. by rewrite lookup_empty in Hk.
  - intros ?? Hk. by rewrite lookup_empty in Hk.
  - intros ?? Hk. by rewrite lookup_empty in Hk.
  - intros ???? Hk. by rewrite lookup_empty in Hk.
Qed.

Section Registry_facts.
Variable fep : Z.
Variable dip : netIP.

Lemma ListenerFromContainerAndPort_Ok env c port st l st' :
  ListenerFromContainerAndPort fep dip env c port st = Ret (Ok l, st') →
  Name c ≠ "" ∧ PublicPort port ≠ 0 ∧ PrivatePort port ≠ 0 ∧
  DNSName l = dnsNameFromContainerName (Name c) ∧ DNSName l ≠ "" ∧
  Port (Dest l) = PublicPort port ∧
  sourceAddrForPort env (chooseSourcePort fep (PublicPort port) (PrivatePort port))
    (Dest l) st = Ret (Src l, st').
Proof.
  unfold ListenerFromContainerAndPort.
  destruct (decide (Name c = "")); [done|].
  destruct (PublicPort port =? 0) eqn:Hpub; [done|].
  destruct (PrivatePort port =? 0) eqn:Hpriv; [done|]. cbn [orb].
  destruct (decide (dnsNameFromContainerName (Name c) = "")); [done|].
  destruct (ResolveIPAddr env (APIPort_IP port)) as [[destIP zone]|]; [|done].
  cbn [Port].
  destruct (sourceAddrForPort _ _ _ _) as [[src st1]|] eqn:Hs; cbn [obind]; [|done].
  intros [= <- <-]. cbn [DNSName Src Dest Port].
  apply Z.eqb_neq in Hpub, Hpriv. by split_and!.
Qed.

Lemma ListenerFromContainerAndPort_Err env c port st msg st' :
  ListenerFromContainerAndPort fep dip env c port st = Ret (Err msg, st') → st' = st.
Proof.
  unfold ListenerFromContainerAndPort.
  destruct (decide (Name c = "")); [by intros [= _ <-]|].
  destruct (_ || _); [by intros [= _ <-]|].
  destruct (decide (dnsNameFromContainerName (Name c) = "")); [by intros [= _ <-]|].
  destruct (ResolveIPAddr env (APIPort_IP port)) as [[destIP zone]|]; [|by intros [= _ <-]].
  destruct (sourceAddrForPort _ _ _ _) as [[src st1]|]; cbn [obind]; done.
Qed.

Lemma addPort_inv env c port out st out' st' :
  addPort fep dip env c (out, st) port = Ret (out', st') →
  addPort_cases fep dip env c port out st out' st'.
Proof.
  unfold addPort.
  destruct (containerListeners st !! containerPortKey c port) as [l0|] eqn:Hk.
  { intros [= <- <-]. by eapply addPort_present. }
  destruct (ListenerFromContainerAndPort fep dip env c port st) as [[[l|msg] st1]|] eqn:HL;
    cbn [obind]; [| |done].
  - unfold Start. destruct (ListenTCP env (Src l)) eqn:HT; cbn [obind]; [|done].
    intros [= <- <-]. eapply addPort_started; eauto.
    unfold emit, set_dnsZone, set_containerListeners. cbn. f_equal.
    by rewrite <- !app_assoc.
  - intros [= <- <-].
    pose proof (ListenerFromContainerAndPort_Err _ _ _ _ _ _ HL) as ->.
    by eapply addPort_error.
Qed.

Lemma claimed_insert_mono sa addr claims a p :
  (∀ ls, sa !! addr = Some ls → ∀ q, is_Some (ls !! q) → is_Some (claims !! q)) →
  claimed sa a p → claimed (<[addr := claims]> sa) a p.
Proof.
  intros Hm (ls & Hls & Hp). destruct (decide (addr = a)) as [->|Hne].
  - exists claims. rewrite lookup_insert_eq. split; [done|]. by eapply Hm.
  - exists ls. by rewrite lookup_insert_ne.
Qed.

Lemma alloc_claimed st st' addr port dest a p :
  reused st st' addr port dest ∨ provisioned st st' addr port dest →
  claimed (sourceAddrs st) a p → claimed (sourceAddrs st') a p.
Proof.
  intros [(ls & Hls & Hp & -> & _)|(Hn & _ & -> & _)]; apply claimed_insert_mono.
  - intros ls' Hls' q Hq. rewrite Hls in Hls'. injection Hls' as <-.
    destruct (decide (port = q)) as [->|]; [by rewrite lookup_insert_eq|].
    by rewrite lookup_insert_ne.
  - intros ls' Hls'. congruence.
Qed.

Lemma alloc_fresh st st' addr port dest :
  reused st st' addr port dest ∨ provisioned st st' addr port dest →
  ¬ claimed (sourceAddrs st) addr port.
Proof.
  intros [(ls & Hls & Hp & _)|(Hn & _)] (ls' & Hls' & Hq).
  - rewrite Hls in Hls'. injection Hls' as <-. rewrite Hp in Hq. by destruct Hq.
  - congruence.
Qed.

Lemma alloc_now_claimed st st' addr port dest :
  reused st st' addr port dest ∨ provisioned st st' addr port dest →
  ∃ ls, sourceAddrs st' !! addr = Some ls ∧ ls !! port = Some dest.
Proof.
  intros [(ls & Hls & Hp & -> & _)|(Hn & _ & -> & _)].
  - exists (<[port := dest]> ls). by rewrite !lookup_insert_eq.
  - exists {[port := dest]}. by rewrite lookup_insert_eq, lookup_singleton_eq.
Qed.

Lemma alloc_keys st st' addr port dest :
  canonical addr →
  reused st st' addr port dest ∨ provisioned st st' addr port dest →
  keys_canonical (sourceAddrs st) → keys_canonical (sourceAddrs st').
Proof.
  intros Hc Hr Hk k.
  assert (sourceAddrs st' !! k = sourceAddrs st' !! k) as _ by done.
  destruct Hr as [(ls & _ & _ & -> & _)|(_ & _ & -> & _)];
    (destruct (decide (addr = k)) as [->|]; [done|]; rewrite lookup_insert_ne by done;
     apply Hk).
Qed.

Lemma alloc_dom st st' addr port dest :
  reused st st' addr port dest ∨ provisioned st st' addr port dest →
  dom (sourceAddrs st) ⊆ dom (sourceAddrs st').
Proof.
  intros [(ls & _ & _ & -> & _)|(_ & _ & -> & _)]; rewrite dom_insert_L; set_solver.
Qed.

Lemma addPort_Inv env c port out st out' st' :
  range_ok env → Inv st →
  addPort fep dip env c (out, st) port = Ret (out', st') → Inv st'.
Proof.
  intros Hr HI Hadd. destruct (addPort_inv _ _ _ _ _ _ _ Hadd) as
    [l0 _ _ ->|msg _ _ _ ->|l st1 Hk HL HT _ ->]; [done|done|].
  apply ListenerFromContainerAndPort_Ok in HL as (_ & _ & _ & _ & _ & _ & Hs).
  destruct (sourceAddrForPort_spec _ _ _ _ _ _ Hr (inv_keys _ HI) Hs)
    as (addr & Hc & Hsrc & Hport & Hz & Hcl & Hcase).
  assert (Hclaim : claimOf l = (addr, Port (Src l))).
  { unfold claimOf. rewrite Hsrc. cbn [IP Port]. by rewrite canonical_roundtrip. }
  assert (HP : Port (Src l) = chooseSourcePort fep (PublicPort port) (PrivatePort port))
    by (by rewrite Hsrc).
  split; cbn [sourceAddrs containerListeners].
  - eapply alloc_keys; [exact Hc|exact Hcase|apply HI].
  - intros key l1. rewrite Hcl. destruct (decide (containerPortKey c port = key)) as [<-|Hne].
    + rewrite lookup_insert_eq. intros [= <-]. exists addr. split; [done|].
      rewrite Hsrc. cbn [IP Port]. split; [done|lia].
    + rewrite lookup_insert_ne by done. by apply inv_src.
  - intros key l1. rewrite Hcl. destruct (decide (containerPortKey c port = key)) as [<-|Hne].
    + rewrite lookup_insert_eq. intros [= <-]. rewrite Hclaim. cbn [fst snd]. rewrite HP.
      destruct (alloc_now_claimed _ _ _ _ _ Hcase) as (ls & ? & ?). exists ls. eauto.
    + rewrite lookup_insert_ne by done. intros Hl1.
      eapply alloc_claimed; [done|]. by eapply inv_claimed.
  - assert (Hfresh : ∀ k0 l0, containerListeners st !! k0 = Some l0 → claimOf l0 ≠ claimOf l).
    { intros k0 l0 Hl0 Heq. apply (alloc_fresh _ _ _ _ _ Hcase).
      pose proof (inv_claimed _ HI _ _ Hl0) as Hcl0.
      rewrite Heq, Hclaim, HP in Hcl0. exact Hcl0. }
    intros k1 k2 l1 l2. rewrite Hcl.
    destruct (decide (containerPortKey c port = k1)) as [<-|Hne1],
             (decide (containerPortKey c port = k2)) as [<-|Hne2];
      rewrite ?lookup_insert_eq, ?lookup_insert_ne by done; try done.
    + intros [= <-] Hl2 Heq. by destruct (Hfresh _ _ Hl2).
    + intros Hl1 [= <-] Heq. by destruct (Hfresh _ _ Hl1).
    + by apply inv_unique.
Qed.

Lemma addPorts_Inv env c ports out st out' st' :
  range_ok env → Inv st →
  addPorts fep dip env c ports (out, st) = Ret (out', st') → Inv st'.
Proof.
  intros Hr. revert out st. induction ports as [|p ports IH]; intros out st HI;
    cbn [addPorts].
  - by intros [= _ <-].
  - destruct (addPort fep dip env c (out, st) p) as [[out1 st1]|] eqn:Hp; cbn [obind]; [|done].
    intros Hrest. eapply IH; [|done]. by eapply addPort_Inv.
Qed.

Lemma addContainer_Inv env cid st out st' :
  range_ok env → Inv st →
  addContainer fep dip env cid st = Ret (out, st') → Inv st'.
Proof.
  intros Hr HI. unfold addContainer. destruct (InspectContainer env cid); [|by intros [= _ <-]].
  by apply addPorts_Inv.
Qed.

End Registry_facts.

Lemma afterEntry_inv cid st cp : afterEntry_cases cid st cp (afterEntry cid st cp).
Proof.
  unfold afterEntry, removeEntry. destruct (containerListeners st !! cp) as [l|] eqn:Hl.
  - destruct (HasPrefix cp (cid +:+ ":")) eqn:Hp.
    + eapply afterEntry_removed; [done..|].
      unfold Stop, emit, set_dnsZone, set_containerListeners, set_sourceAddrs,
        removalEvents. cbn.
      f_equal. by rewrite <- !app_assoc.
    + apply afterEntry_skip; auto.
  - apply afterEntry_skip; auto.
Qed.

(** *** Calls that return and calls that block *)

(** Whether [Stop] returns or not, the body of the loop leaves the globals
    in the same state. *)
Lemma removeEntry_stateOf stops cid st cp :
  stateOf (removeEntry stops cid st cp) = afterEntry cid st cp.
Proof.
  unfold afterEntry, removeEntry. destruct (containerListeners st !! cp) as [l|]; [|done].
  destruct (HasPrefix cp (cid +:+ ":")); [|done]. unfold Stop. by destruct (stops l).
Qed.

Lemma removeEntry_Returned stops cid st cp st' :
  removeEntry stops cid st cp = Returned st' → st' = afterEntry cid st cp.
Proof. intros H. by rewrite <- (removeEntry_stateOf stops), H. Qed.

Lemma removeEntry_Blocked stops cid st cp st' :
  removeEntry stops cid st cp = Blocked st' →
  st' = afterEntry cid st cp ∧
  ∃ l, containerListeners st !! cp = Some l ∧ HasPrefix cp (cid +:+ ":") = true ∧
       stops l = false.
Proof.
  intros H. split; [by rewrite <- (removeEntry_stateOf stops), H|].
  unfold removeEntry in H. destruct (containerListeners st !! cp) as [l|]; [|done].
  destruct (HasPrefix cp (cid +:+ ":")); [|done]. unfold Stop in H.
  destruct (stops l) eqn:Hs; [done|]. eauto.
Qed.

(** The body returns at a key that is not registered or is not of the
    container, and at a key whose [Stop] returns. *)
Lemma removeEntry_returns stops cid st cp :
  (∀ l, containerListeners st !! cp = Some l → HasPrefix cp (cid +:+ ":") = true →
        stops l = true) →
  removeEntry stops cid st cp = Returned (afterEntry cid st cp).
Proof.
  intros Hs. rewrite <- (removeEntry_stateOf stops).
  destruct (removeEntry stops cid st cp) as [s|s] eqn:H; [done|].
  apply removeEntry_Blocked in H as (_ & l & Hl & Hp & Hn).
  rewrite (Hs l Hl Hp) in Hn. done.
Qed.

(** A call that returns has run the body at every key of the enumeration. *)
Lemma removeContainer_Returned stops order cid st st' :
  removeContainer stops order cid st = Returned st' → st' = afterEntries order cid st.
Proof.
  revert st. induction order as [|cp order IH]; intros st; cbn [removeContainer].
  - by intros [= <-].
  - destruct (removeEntry stops cid st cp) as [s|s] eqn:H; [|done].
    apply removeEntry_Returned in H as ->. apply IH.
Qed.

(** A call that blocks has run the body at the keys up to the one whose
    [Stop] blocks, and at no key after it. *)
Lemma removeContainer_Blocked stops order cid st st' :
  removeContainer stops order cid st = Blocked st' →
  ∃ visited cp rest l,
    order = visited ++ cp :: rest ∧ st' = afterEntries (visited ++ [cp]) cid st ∧
    containerListeners (afterEntries visited cid st) !! cp = Some l ∧
    HasPrefix cp (cid +:+ ":") = true ∧ stops l = false.
Proof.
  revert st. induction order as [|cp order IH]; intros st; cbn [removeContainer]; [done|].
  destruct (removeEntry stops cid st cp) as [s|s] eqn:H.
  - apply removeEntry_Returned in H as ->.
    intros (visited & cp' & rest & l & -> & -> & Hl & Hp & Hs)%IH.
    exists (cp :: visited), cp', rest, l. done.
  - intros [= <-]. apply removeEntry_Blocked in H as (-> & l & Hl & Hp & Hs).
    exists [], cp, order, l. done.
Qed.

(** In either case the globals are those the loop leaves after a part of
    the enumeration. *)
Lemma removeContainer_stateOf stops order cid st :
  ∃ visited rest, order = visited ++ rest ∧
    stateOf (removeContainer stops order cid st) = afterEntries visited cid st.
Proof.
  destruct (removeContainer stops order cid st) as [s|s] eqn:H.
  - apply removeContainer_Returned in H as ->. exists order, []. by rewrite app_nil_r.
  - apply removeContainer_Blocked in H as (visited & cp & rest & l & -> & -> & _).
    exists (visited ++ [cp]), rest. by rewrite <- app_assoc.
Qed.

(** What every turn of the loop preserves holds when the call has returned
    and when it is blocked. *)
Lemma removeContainer_preserves (P : State → Prop) stops order cid st :
  (∀ s cp, P s → P (afterEntry cid s cp)) →
  P st → P (stateOf (removeContainer stops order cid st)).
Proof.
  intros Hstep HP.
  destruct (removeContainer_stateOf stops order cid st) as (visited & _ & _ & ->).
  clear order. unfold afterEntries. revert st HP.
  induction visited as [|cp visited IH]; intros st HP; [done|].
  simpl. apply IH. by apply Hstep.
Qed.

(** The call returns exactly when the [Stop] of every listener it removes
    returns. *)
Lemma removeContainer_returns stops order cid st :
  (∀ cp l, cp ∈ order → containerListeners st !! cp = Some l →
           HasPrefix cp (cid +:+ ":") = true → stops l = true) →
  removeContainer stops order cid st = Returned (afterEntries order cid st).
Proof.
  revert st. induction order as [|cp order IH]; intros st Hs; cbn [removeContainer]; [done|].
  rewrite removeEntry_returns.
  2:{ intros l Hl Hp. apply (Hs cp l); [left|done..]. }
  apply IH. intros cp' l' Hin Hl' Hp'. apply (Hs cp' l'); [by right| |done].
  destruct (afterEntry_inv cid st cp) as [_ Heq|l _ _ Heq]; rewrite Heq in Hl';
    [done|].
  cbn [containerListeners] in Hl'. by apply lookup_delete_Some in Hl' as [_ ?].
Qed.

Lemma claimed_release sa a p a' p' :
  (a, p) ≠ (a', p') → claimed sa a p → claimed (alter (delete p') a' sa) a p.
Proof.
  intros Hne (ls & Hls & Hp). destruct (decide (a' = a)) as [->|Hna].
  - exists (delete p' ls). rewrite lookup_alter_eq, Hls. split; [done|].
    rewrite lookup_delete_ne; [done|congruence].
  - exists ls. by rewrite lookup_alter_ne.
Qed.

Lemma afterEntry_Inv cid st cp : Inv st → Inv (afterEntry cid st cp).
Proof.
  intros HI. destruct (afterEntry_inv cid st cp) as [_ ->|l Hl Hp ->]; [done|].
  split; cbn [sourceAddrs containerListeners].
  - intros k [ls Hk]. apply (inv_keys _ HI).
    destruct (decide (IP_String (IP (Src l)) = k)) as [<-|Hne].
    + rewrite lookup_alter_eq in Hk. destruct (sourceAddrs st !! _); [eauto|done].
    + rewrite lookup_alter_ne in Hk by done. eauto.
  - intros key l1 [_ Hl1]%lookup_delete_Some. by eapply inv_src.
  - intros key l1 Hl1. apply lookup_delete_Some in Hl1 as [Hne Hl1].
    apply claimed_release; [|by eapply inv_claimed].
    intros Heq. apply Hne. symmetry. by eapply (inv_unique _ HI).
  - intros k1 k2 l1 l2 [_ H1]%lookup_delete_Some [_ H2]%lookup_delete_Some.
    by apply (inv_unique _ HI).
Qed.

Lemma afterEntries_Inv order cid st : Inv st → Inv (afterEntries order cid st).
Proof.
  unfold afterEntries. revert st. induction order as [|cp order IH]; intros st HI; [done|].
  simpl. apply IH. by apply afterEntry_Inv.
Qed.

Lemma reachable_Inv fep dip st : reachable fep dip st → Inv st.
Proof.
  induction 1 as [|st st' _ IH Hstep]; [apply Inv_init|].
  destruct Hstep as [env cid st out st' Hr Hadd|stops order cid st _].
  - by eapply addContainer_Inv.
  - apply removeContainer_preserves; [|done]. intros s cp. apply afterEntry_Inv.
Qed.

(** ** The concrete run *)

Lemma Scenario_range_ok : range_ok Scenario.env0.
Proof. intros m. reflexivity. Qed.

Lemma Scenario_reachable_st1 : reachable Scenario.fep Scenario.dip Scenario.st1.
Proof.
  eapply reachable_step; [apply reachable_init|].
  apply (step_add _ _ Scenario.env0 "c1" initState
           (Scenario.started (addContainer Scenario.fep Scenario.dip Scenario.env0
                                "c1" initState)) Scenario.st1 Scenario_range_ok).
  vm_compute. reflexivity.
Qed.

Lemma Scenario_reachable_st2 : reachable Scenario.fep Scenario.dip Scenario.st2.
Proof.
  eapply reachable_step; [apply Scenario_reachable_st1|].
  apply (step_add _ _ Scenario.env0 "c2" Scenario.st1
           (Scenario.started (addContainer Scenario.fep Scenario.dip Scenario.env0
                                "c2" Scenario.st1)) Scenario.st2 Scenario_range_ok).
  vm_compute. reflexivity.
Qed.

Lemma Scenario_reachable_st3 : reachable Scenario.fep Scenario.dip Scenario.st3.
Proof.
  eapply reachable_step; [apply Scenario_reachable_st2|].
  apply (step_remove _ _ (λ _, true) (keys (containerListeners Scenario.st2)) "c1"
           Scenario.st2).
  reflexivity.
Qed.

Lemma Scenario_reachable_st2_blocked :
  reachable Scenario.fep Scenario.dip Scenario.st2_blocked.
Proof.
  eapply reachable_step; [apply Scenario_reachable_st2|].
  apply (step_remove _ _ (λ _, false) (keys (containerListeners Scenario.st2)) "c1"
           Scenario.st2).
  reflexivity.
Qed.

Lemma Scenario_keys_st2 :
  keys (containerListeners Scenario.st2) = ["c1:443"; "c1:8080"; "c2:8080"].
Proof. vm_compute. reflexivity. Qed.

Lemma Scenario_removeContainer_st2 :
  removeContainer (λ _, true) (keys (containerListeners Scenario.st2)) "c1" Scenario.st2
  = Returned Scenario.st3.
Proof. vm_compute. reflexivity. Qed.

(** ** Construction of a listener *)

Lemma sourceAddrForPort_port env port dest st src st' :
  sourceAddrForPort env port dest st = Ret (src, st') → Port src = port.
Proof.
  unfold sourceAddrForPort.
  destruct (scanSourceAddrs _ _ _ _ _) as [[addr ls|last]|]; cbn [obind]; [| |done].
  - destruct (getSourceAddr port addr) as [src0|] eqn:Hg; cbn [obind]; [|done].
    intros [= <- _]. by apply getSourceAddr_Ret in Hg as [-> _].
  - destruct (nextSourceIP last) as [nextIP|]; cbn [obind]; [|done].
    destruct (negb (IsLoopback nextIP)); [done|].
    destruct (negb (ifconfigAlias env (IP_String nextIP))); [done|].
    destruct (getSourceAddr port (IP_String nextIP)) as [src0|] eqn:Hg; cbn [obind]; [|done].
    intros [= <- _]. by apply getSourceAddr_Ret in Hg as [-> _].
Qed.

Lemma construction_error_Err fep dip env c port st :
  construction_error env c port →
  ∃ msg, ListenerFromContainerAndPort fep dip env c port st = Ret (Err msg, st).
Proof.
  unfold ListenerFromContainerAndPort. intros Herr.
  destruct (decide (Name c = "")); [by eexists|].
  destruct (PublicPort port =? 0) eqn:Hpub; [by eexists|].
  destruct (PrivatePort port =? 0) eqn:Hpriv; [by eexists|]. cbn [orb].
  destruct (decide (dnsNameFromContainerName (Name c) = "")); [by eexists|].
  destruct (ResolveIPAddr env (APIPort_IP port)) as [[destIP zone]|] eqn:HR; [|by eexists].
  apply Z.eqb_neq in Hpub, Hpriv.
  destruct Herr as [?|[?|[?|[?|?]]]]; congruence.
Qed.

Lemma Err_construction_error fep dip env c port st msg st' :
  ListenerFromContainerAndPort fep dip env c port st = Ret (Err msg, st') →
  construction_error env c port.
Proof.
  unfold ListenerFromContainerAndPort, construction_error.
  destruct (decide (Name c = "")); [by left|].
  destruct (PublicPort port =? 0) eqn:Hpub; [apply Z.eqb_eq in Hpub; by auto|].
  destruct (PrivatePort port =? 0) eqn:Hpriv; [apply Z.eqb_eq in Hpriv; by auto|].
  cbn [orb].
  destruct (decide (dnsNameFromContainerName (Name c) = "")); [by auto 6|].
  destruct (ResolveIPAddr env (APIPort_IP port)) as [[destIP zone]|] eqn:HR; [|by auto 6].
  destruct (sourceAddrForPort _ _ _ _) as [[src st1]|]; cbn [obind]; done.
Qed.

(** C4. A listener that is constructed forwards to the public port, and
    listens on the container's private port when the public port is at or
    above [firstEphemeralPort], on the public port otherwise. *)
Theorem port_selection_policy fep dip env c port st l st' :
  ListenerFromContainerAndPort fep dip env c port st = Ret (Ok l, st') →
  Port (Dest l) = PublicPort port ∧
  (fep ≤ PublicPort port → Port (Src l) = PrivatePort port) ∧
  (PublicPort port < fep → Port (Src l) = PublicPort port).
Proof.
  intros (_ & _ & _ & _ & _ & Hd & Hs)%ListenerFromContainerAndPort_Ok.
  apply sourceAddrForPort_port in Hs. rewrite Hs. unfold chooseSourcePort.
  split; [done|]. split; intros Hc.
  - apply Z.leb_le in Hc. by rewrite Hc.
  - apply Z.leb_gt in Hc. by rewrite Hc.
Qed.

(** With [firstEphemeralPort] = 49152: private 8080 and public 51234 give
    source port 8080; private 8080 and public 32768 give 32768. *)
Lemma port_selection_policy_witness :
  ∃ l1 l2 s1 s2,
    ListenerFromContainerAndPort 49152 Scenario.dip Scenario.env0 Scenario.web
      (mkAPIPort 8080 51234 "tcp" "0.0.0.0") initState = Ret (Ok l1, s1) ∧
    ListenerFromContainerAndPort 49152 Scenario.dip Scenario.env0 Scenario.web
      (mkAPIPort 8080 32768 "tcp" "0.0.0.0") initState = Ret (Ok l2, s2) ∧
    Port (Src l1) = 8080 ∧ Port (Src l2) = 32768.
Proof.
  eexists _, _, _, _.
  split; [vm_compute; reflexivity|]. split; [vm_compute; reflexivity|].
  split.
  - refine (proj1 (proj2 (port_selection_policy 49152 Scenario.dip Scenario.env0
             Scenario.web (mkAPIPort 8080 51234 "tcp" "0.0.0.0") initState _ _ _)) _).
    + vm_compute; reflexivity.
    + simpl. lia.
  - refine (proj2 (proj2 (port_selection_policy 49152 Scenario.dip Scenario.env0
             Scenario.web (mkAPIPort 8080 32768 "tcp" "0.0.0.0") initState _ _ _)) _).
    + vm_compute; reflexivity.
    + simpl. lia.
Defined.

(** C8. [ListenerFromContainerAndPort] returns an error when the container
    has no name, when the public or the private port is zero, and when the
    derived hostname is empty; an error return leaves the state as it was
    (no claim, no provisioning, nothing started), and [addContainer]'s loop
    then registers and publishes nothing. *)
Theorem construction_failure fep dip env c port st :
  (Name c = "" ∨ PublicPort port = 0 ∨ PrivatePort port = 0 ∨
   dnsNameFromContainerName (Name c) = "" →
   ∃ msg, ListenerFromContainerAndPort fep dip env c port st = Ret (Err msg, st)) ∧
  (∀ msg st', ListenerFromContainerAndPort fep dip env c port st = Ret (Err msg, st') →
     st' = st) ∧
  (∀ msg st' out, ListenerFromContainerAndPort fep dip env c port st = Ret (Err msg, st') →
     addPort fep dip env c (out, st) port = Ret (out, st)).
Proof.
  split_and!.
  - intros H. apply construction_error_Err. unfold construction_error. tauto.
  - intros msg st'. apply ListenerFromContainerAndPort_Err.
  - intros msg st' out HL. unfold addPort.
    destruct (containerListeners st !! containerPortKey c port); [done|].
    pose proof (ListenerFromContainerAndPort_Err _ _ _ _ _ _ _ _ HL) as ->.
    by rewrite HL.
Qed.

Lemma construction_failure_witness :
  ∃ msg, ListenerFromContainerAndPort Scenario.fep Scenario.dip Scenario.env0
           (mkContainer "c9" "####" []) (mkAPIPort 80 8080 "tcp" "0.0.0.0")
           Scenario.st2 = Ret (Err msg, Scenario.st2).
Proof.
  apply (proj1 (construction_failure Scenario.fep Scenario.dip Scenario.env0
                  (mkContainer "c9" "####" []) (mkAPIPort 80 8080 "tcp" "0.0.0.0")
                  Scenario.st2)).
  right. right. right. vm_compute. reflexivity.
Defined.

(** ** Hostname derivation *)

(** *** The hostname as labels joined by hyphens *)

Lemma trimLeft_replaceDisallowed b s :
  trimLeftHyphens (replaceDisallowed b s) = trimLeftHyphens (replaceDisallowed false s).
Proof.
  destruct s as [|c s]; simpl; [done|].
  destruct (allowedChar c); [done|]. by destruct b.
Qed.

(** The derivation after its left trim: what follows a label character. *)
Lemma collapse_true_trimLeft t :
  collapseHyphens true t = collapseHyphens false (trimLeftHyphens t).
Proof.
  induction t as [|c t IH]; simpl; [done|]. destruct (isHyphen c) eqn:Hc; [done|].
  simpl. by rewrite Hc.
Qed.

Lemma trimLeft_trimRight r :
  trimLeftHyphens (trimRightHyphens r) = trimRightHyphens (trimLeftHyphens r).
Proof.
  induction r as [|c r IH]; [done|].
  cbn [trimLeftHyphens trimRightHyphens]. destruct (isHyphen c) eqn:Hc.
  - rewrite <- IH. destruct (trimRightHyphens r); cbn [trimLeftHyphens]; [done|].
    by rewrite Hc.
  - cbn [trimRightHyphens]. rewrite Hc.
    destruct (trimRightHyphens r); cbn [trimLeftHyphens]; by rewrite Hc.
Qed.

Lemma collapseHyphens_empty t : collapseHyphens false t = "" → t = "".
Proof. destruct t as [|c t]; simpl; [done|]. by destruct (isHyphen c). Qed.

Lemma trimLeftHyphens_empty t : trimLeftHyphens t = "" → endsWithHyphen t = false → t = "".
Proof.
  induction t as [|c t IH]; [done|].
  cbn [trimLeftHyphens]. destruct (isHyphen c) eqn:Hc; [|done].
  intros He Hend. destruct t as [|c' t']; [cbn in Hend; congruence|].
  specialize (IH He Hend). discriminate IH.
Qed.

Lemma trimLeftHyphens_hyphen r :
  trimLeftHyphens (String "-"%char r) = trimLeftHyphens r.
Proof. reflexivity. Qed.

Lemma dnsName_after_separator r :
  collapseHyphens false (trimRightHyphens (String "-"%char r))
  = match collapseHyphens false (trimRightHyphens (trimLeftHyphens r)) with
    | EmptyString => EmptyString
    | y => String "-"%char y
    end.
Proof.
  rewrite <- trimLeft_trimRight, <- collapse_true_trimLeft.
  cbn [trimRightHyphens].
  destruct (trimRightHyphens r) as [|c x] eqn:Hx; [done|].
  change (collapseHyphens false (String "-"%char (String c x)))
    with (String "-"%char (collapseHyphens true (String c x))).
  destruct (collapseHyphens true (String c x)) eqn:Hy; [|done].
  rewrite collapse_true_trimLeft in Hy. apply collapseHyphens_empty in Hy.
  apply trimLeftHyphens_empty in Hy; [done|].
  rewrite <- Hx. apply trimRightHyphens_end.
Qed.

Lemma labelChar_inv c :
  labelChar c = true → allowedChar c = true ∧ isHyphen c = false.
Proof. unfold labelChar. intros [? ?%negb_true_iff]%andb_true_iff. done. Qed.

Lemma labels_nonempty s : Forall (λ w, w ≠ "") (labels s).
Proof.
  induction s as [|c s IH]; simpl; [constructor|].
  destruct (labelChar c); [|done].
  destruct (startsWithLabel s), (labels s) as [|w ws]; try (by constructor).
  apply Forall_cons in IH as [_ ?]. by constructor.
Qed.

Lemma labels_startsWithLabel s : startsWithLabel s = true → labels s ≠ [].
Proof.
  destruct s as [|c s]; simpl; [done|]. intros ->.
  by destruct (startsWithLabel s), (labels s).
Qed.

Lemma joinHyphen_empty ws : Forall (λ w, w ≠ "") ws → joinHyphen ws = "" → ws = [].
Proof.
  destruct ws as [|w ws]; [done|]. intros [Hw _]%Forall_cons.
  destruct w as [|c w]; [done|]. simpl. by destruct ws.
Qed.

Lemma joinHyphen_cons_char c w ws :
  joinHyphen (String c w :: ws) = String c (joinHyphen (w :: ws)).
Proof. by destruct ws. Qed.

(** The hostname is the labels of the name joined by single hyphens. *)
Lemma dnsName_labels s : dnsNameFromContainerName s = joinHyphen (labels s).
Proof.
  unfold dnsNameFromContainerName, trimHyphens.
  induction s as [|c s IH]; [done|].
  cbn [labels]. destruct (labelChar c) eqn:Hc.
  - apply labelChar_inv in Hc as [Ha Hh].
    cbn [replaceDisallowed]. rewrite Ha. cbn [trimLeftHyphens]. rewrite Hh.
    assert (Hstep : ∀ r, collapseHyphens false (trimRightHyphens (String c r))
                         = String c (collapseHyphens false (trimRightHyphens r))).
    { intros r. cbn [trimRightHyphens]. destruct (trimRightHyphens r); rewrite ?Hh;
        cbn [collapseHyphens]; by rewrite Hh. }
    rewrite Hstep.
    destruct s as [|c' s']; [done|].
    cbn [startsWithLabel]. destruct (labelChar c') eqn:Hc'.
    + (* the label goes on *)
      assert (Hl : labels (String c' s') ≠ []) by (apply labels_startsWithLabel; done).
      destruct (labels (String c' s')) as [|w ws]; [done|].
      rewrite joinHyphen_cons_char, <- IH. f_equal.
      apply labelChar_inv in Hc' as [Ha' Hh'].
      cbn [replaceDisallowed]. rewrite Ha'. cbn [trimLeftHyphens]. by rewrite Hh'.
    + (* a separator follows *)
      assert (Hsep : collapseHyphens false
                       (trimRightHyphens (replaceDisallowed false (String c' s')))
                     = match collapseHyphens false
                               (trimRightHyphens
                                  (trimLeftHyphens (replaceDisallowed false (String c' s'))))
                       with
                       | EmptyString => EmptyString
                       | y => String "-"%char y
                       end).
      { cbn [replaceDisallowed]. destruct (allowedChar c') eqn:Ha'.
        - assert (Hh' : isHyphen c' = true).
          { unfold labelChar in Hc'. rewrite Ha' in Hc'. simpl in Hc'.
            by apply negb_false_iff in Hc'. }
          assert (c' = "-"%char) as -> by (by apply Ascii.eqb_eq).
          rewrite trimLeftHyphens_hyphen. apply dnsName_after_separator.
        - rewrite trimLeftHyphens_hyphen. apply dnsName_after_separator. }
      rewrite Hsep, IH.
      pose proof (labels_nonempty (String c' s')) as Hne.
      destruct (labels (String c' s')) as [|w ws] eqn:Hl; [done|].
      change (joinHyphen (String c "" :: w :: ws))
        with (String c (String "-"%char (joinHyphen (w :: ws)))).
      destruct (joinHyphen (w :: ws)) eqn:Hj; [|done].
      by apply joinHyphen_empty in Hj.
  - (* a leading separator is dropped *)
    rewrite <- IH. cbn [replaceDisallowed]. destruct (allowedChar c) eqn:Ha.
    + assert (Hh : isHyphen c = true).
      { unfold labelChar in Hc. rewrite Ha in Hc. simpl in Hc.
        by apply negb_false_iff in Hc. }
      cbn [trimLeftHyphens]. by rewrite Hh.
    + by rewrite trimLeftHyphens_hyphen, trimLeft_replaceDisallowed.
Qed.

(** C5, as the code has it. [dnsNameFromContainerName] replaces every
    maximal run of characters outside [a-z0-9.-] by one hyphen (it does not
    delete them), case-sensitively, trims the hyphens at both ends and
    collapses runs of hyphens.  So the result is the labels of the name,
    its maximal runs of characters of [a-z0-9.], in order, with exactly one
    hyphen between two consecutive labels, whatever stood between them in
    the name, and nothing before the first and after the last.  It has only
    characters of the class, its characters other than hyphens are the
    input's characters of the class other than hyphens, in order, it neither
    starts nor ends with a hyphen and has no two adjacent hyphens;
    "api_server-1" gives "api-server-1", "a__b" gives "a-b", "--x--" gives
    "x", "MyApp" gives "y-pp" and "####" gives the empty string, for which
    the construction of a listener fails. *)
Theorem dnsNameFromContainerName_shape (containerName : string) :
  dnsNameFromContainerName containerName = joinHyphen (labels containerName) ∧
  allAllowed (dnsNameFromContainerName containerName) = true ∧
  nonHyphens (dnsNameFromContainerName containerName)
    = nonHyphens (stripDisallowed containerName) ∧
  startsWithHyphen (dnsNameFromContainerName containerName) = false ∧
  endsWithHyphen (dnsNameFromContainerName containerName) = false ∧
  hasDoubleHyphen (dnsNameFromContainerName containerName) = false ∧
  labels "api_server-1" = ["api"; "server"; "1"] ∧
  dnsNameFromContainerName "api_server-1" = "api-server-1" ∧
  dnsNameFromContainerName "a__b" = "a-b" ∧
  dnsNameFromContainerName "--x--" = "x" ∧
  dnsNameFromContainerName "MyApp" = "y-pp" ∧
  dnsNameFromContainerName "####" = "" ∧
  (∀ fep dip env c port st, Name c = "####" →
     ∃ msg, ListenerFromContainerAndPort fep dip env c port st = Ret (Err msg, st)).
Proof.
  split; [apply dnsName_labels|].
  unfold dnsNameFromContainerName, trimHyphens. split_and!; try reflexivity.
  - apply collapseHyphens_allowed, trimRightHyphens_allowed, trimLeftHyphens_allowed,
      replaceDisallowed_allowed.
  - by rewrite nonHyphens_collapse, nonHyphens_trimRight, nonHyphens_trimLeft,
      nonHyphens_replaceDisallowed.
  - apply collapseHyphens_start, trimRightHyphens_start, trimLeftHyphens_start.
  - apply collapseHyphens_end, trimRightHyphens_end.
  - apply collapseHyphens_no_double.
  - intros fep dip env c port st Hn. apply construction_error_Err.
    unfold construction_error. rewrite Hn. auto.
Qed.

(** C5 as stated fails: deleting the characters outside the class gives
    "apiserver-1" for "api_server-1", the code gives "api-server-1". *)
Lemma dnsName_is_not_strip :
  dnsNameFromContainerName "api_server-1" ≠ dnsName_strip_collapse_trim "api_server-1".
Proof. vm_compute. discriminate. Qed.

(** ** Reconciliation is idempotent *)

Section Idempotent.
Variable fep : Z.
Variable dip : netIP.

Lemma addPort_settled env c out st port :
  settled env c st port → addPort fep dip env c (out, st) port = Ret (out, st).
Proof.
  intros [[l0 Hl0]|Herr]; unfold addPort.
  - by rewrite Hl0.
  - destruct (containerListeners st !! containerPortKey c port); [done|].
    destruct (construction_error_Err fep dip env c port st Herr) as [msg ->]. done.
Qed.

Lemma addPorts_settled env c ports out st :
  Forall (settled env c st) ports → addPorts fep dip env c ports (out, st) = Ret (out, st).
Proof.
  induction 1 as [|p ports Hp _ IH]; cbn [addPorts]; [done|].
  rewrite (addPort_settled _ _ _ _ _ Hp). cbn [obind]. exact IH.
Qed.

Lemma addPort_settles env c out st port out' st' :
  addPort fep dip env c (out, st) port = Ret (out', st') →
  settled env c st' port ∧
  (∀ k, is_Some (containerListeners st !! k) → is_Some (containerListeners st' !! k)).
Proof.
  intros Hadd. destruct (addPort_inv _ _ _ _ _ _ _ _ _ Hadd) as
    [l0 Hk _ ->|msg _ HL _ ->|l st1 Hk HL HT _ ->].
  - split; [left; eauto|done].
  - split; [right; by eapply Err_construction_error|done].
  - unfold settled. cbn [containerListeners]. split.
    + left. rewrite lookup_insert_eq. eauto.
    + intros k Hkk. destruct (decide (containerPortKey c port = k)) as [<-|Hne].
      * rewrite lookup_insert_eq. eauto.
      * rewrite lookup_insert_ne by done.
        apply ListenerFromContainerAndPort_Ok in HL as (_ & _ & _ & _ & _ & _ & Hs).
        unfold sourceAddrForPort in Hs.
        assert (containerListeners st1 = containerListeners st) as ->; [|done].
        destruct (scanSourceAddrs _ _ _ _ _) as [[addr ls|last]|]; cbn [obind] in Hs;
          [| |done].
        -- destruct (getSourceAddr _ addr); cbn [obind] in Hs; [|done].
           by injection Hs as _ <-.
        -- destruct (nextSourceIP last) as [nextIP|]; cbn [obind] in Hs; [|done].
           destruct (negb (IsLoopback nextIP)); [done|].
           destruct (negb (ifconfigAlias env (IP_String nextIP))); [done|].
           destruct (getSourceAddr _ _); cbn [obind] in Hs; [|done].
           by injection Hs as _ <-.
Qed.

Lemma settled_mono env c st st' port :
  (∀ k, is_Some (containerListeners st !! k) → is_Some (containerListeners st' !! k)) →
  settled env c st port → settled env c st' port.
Proof. intros Hm [?|?]; [left; auto|by right]. Qed.

Lemma addPorts_settles env c ports out st out' st' :
  addPorts fep dip env c ports (out, st) = Ret (out', st') →
  Forall (settled env c st') ports ∧
  (∀ k, is_Some (containerListeners st !! k) → is_Some (containerListeners st' !! k)).
Proof.
  revert out st. induction ports as [|p ports IH]; intros out st; cbn [addPorts].
  - intros [= _ <-]. by split.
  - destruct (addPort fep dip env c (out, st) p) as [[out1 st1]|] eqn:Hp; cbn [obind];
      [|done].
    intros Hrest. destruct (addPort_settles _ _ _ _ _ _ _ Hp) as [Hs1 Hm1].
    destruct (IH _ _ Hrest) as [Hs2 Hm2]. split; [|by auto].
    constructor; [|done]. by eapply settled_mono.
Qed.

(** C2. A second [addContainer] for the same container, with the same
    inspection result, returns no listener and leaves the whole state as the
    first call left it: no allocation, no start, no publication, and the
    registry still holds one listener per key.  In any state, a port whose
    key is registered is skipped by the loop. *)
Theorem addContainer_idempotent env cid st out st1 :
  addContainer fep dip env cid st = Ret (out, st1) →
  addContainer fep dip env cid st1 = Ret ([], st1) ∧
  (∀ env2 c port l0 out2,
     containerListeners st1 !! containerPortKey c port = Some l0 →
     addPort fep dip env2 c (out2, st1) port = Ret (out2, st1)).
Proof.
  intros Hadd. split.
  - unfold addContainer in *. destruct (InspectContainer env cid) as [c|].
    + apply addPorts_settles in Hadd as [Hs _]. by apply addPorts_settled.
    + by injection Hadd as _ <-.
  - intros env2 c port l0 out2 Hl0. unfold addPort. by rewrite Hl0.
Qed.

End Idempotent.

Lemma addContainer_idempotent_witness :
  addContainer Scenario.fep Scenario.dip Scenario.env0 "c1" Scenario.st1
    = Ret ([], Scenario.st1) ∧
  size (containerListeners Scenario.st1) = 2%nat.
Proof.
  split; [|vm_compute; reflexivity].
  refine (proj1 (addContainer_idempotent Scenario.fep Scenario.dip Scenario.env0 "c1"
                   initState (Scenario.started
                      (addContainer Scenario.fep Scenario.dip Scenario.env0 "c1" initState))
                   Scenario.st1 _)).
  vm_compute. reflexivity.
Defined.

(** ** Removal of a container *)

Lemma afterEntry_listeners cid st cp :
  containerListeners (afterEntry cid st cp)
  = if HasPrefix cp (cid +:+ ":") then delete cp (containerListeners st)
    else containerListeners st.
Proof.
  destruct (afterEntry_inv cid st cp) as [[Hn|Hp] ->|l Hl Hp ->].
  - rewrite delete_id by done. by destruct (HasPrefix _ _).
  - by rewrite Hp.
  - by rewrite Hp.
Qed.

Lemma afterEntries_app o1 o2 cid st :
  afterEntries (o1 ++ o2) cid st = afterEntries o2 cid (afterEntries o1 cid st).
Proof. unfold afterEntries. apply foldl_app. Qed.

Lemma afterEntries_cons cp o cid st :
  afterEntries (cp :: o) cid st = afterEntries o cid (afterEntry cid st cp).
Proof. reflexivity. Qed.

Lemma afterEntries_listeners order cid st cp :
  containerListeners (afterEntries order cid st) !! cp
  = if bool_decide (cp ∈ order) && HasPrefix cp (cid +:+ ":") then None
    else containerListeners st !! cp.
Proof.
  revert st. induction order as [|a order IH]; intros st.
  - done.
  - rewrite afterEntries_cons, IH, afterEntry_listeners.
    destruct (decide (a = cp)) as [->|Hne].
    + rewrite (bool_decide_eq_true_2 (cp ∈ cp :: order)) by left. cbn [andb].
      destruct (HasPrefix cp (cid +:+ ":")) eqn:Hp.
      * rewrite lookup_delete_eq. by destruct (_ && _).
      * by rewrite andb_false_r.
    + assert (bool_decide (cp ∈ a :: order) = bool_decide (cp ∈ order)) as ->.
      { apply bool_decide_ext. rewrite elem_of_cons.
        split; [intros [?|?]; [congruence|done]|by right]. }
      destruct (_ && _); [done|].
      destruct (HasPrefix a _); [by rewrite lookup_delete_ne|done].
Qed.

(** Removal only deletes: what is absent stays absent, the log only grows. *)
Lemma afterEntry_dns_None cid st cp n :
  dnsZone st !! n = None → dnsZone (afterEntry cid st cp) !! n = None.
Proof.
  intros Hn. destruct (afterEntry_inv cid st cp) as [_ ->|l _ _ ->]; [done|].
  cbn [dnsZone]. apply lookup_delete_None. auto.
Qed.

Lemma claimed_release_inv sa a p a' p' :
  claimed (alter (delete p') a' sa) a p → claimed sa a p ∧ (a, p) ≠ (a', p').
Proof.
  intros (ls & Hls & Hp). destruct (decide (a' = a)) as [->|Hna].
  - rewrite lookup_alter_eq in Hls. destruct (sa !! a) as [ls0|] eqn:Hsa; [|done].
    injection Hls as <-. destruct (decide (p' = p)) as [->|Hnp].
    + rewrite lookup_delete_eq in Hp. by destruct Hp.
    + rewrite lookup_delete_ne in Hp by done. split; [by exists ls0|congruence].
  - rewrite lookup_alter_ne in Hls by done. split; [by exists ls|congruence].
Qed.

Lemma afterEntry_not_claimed cid st cp a p :
  ¬ claimed (sourceAddrs st) a p → ¬ claimed (sourceAddrs (afterEntry cid st cp)) a p.
Proof.
  intros Hn. destruct (afterEntry_inv cid st cp) as [_ ->|l _ _ ->]; [done|].
  cbn [sourceAddrs]. by intros [? _]%claimed_release_inv.
Qed.

Lemma afterEntry_dom cid st cp :
  dom (sourceAddrs (afterEntry cid st cp)) = dom (sourceAddrs st).
Proof.
  destruct (afterEntry_inv cid st cp) as [_ ->|l _ _ ->]; [done|].
  cbn [sourceAddrs]. apply set_eq. intros k. rewrite !elem_of_dom.
  destruct (decide (IP_String (IP (Src l)) = k)) as [<-|Hne].
  - rewrite lookup_alter_eq. destruct (sourceAddrs st !! _); simpl; split; intros [? ?]; eauto; done.
  - by rewrite lookup_alter_ne.
Qed.

Lemma afterEntry_trace cid st cp :
  ∃ more, trace (afterEntry cid st cp) = trace st ++ more.
Proof.
  destruct (afterEntry_inv cid st cp) as [_ ->|l _ _ ->].
  - exists []. by rewrite app_nil_r.
  - by eexists.
Qed.

Lemma afterEntries_preserved order cid st :
  (∀ n, dnsZone st !! n = None → dnsZone (afterEntries order cid st) !! n = None) ∧
  (∀ a p, ¬ claimed (sourceAddrs st) a p →
          ¬ claimed (sourceAddrs (afterEntries order cid st)) a p) ∧
  dom (sourceAddrs (afterEntries order cid st)) = dom (sourceAddrs st) ∧
  (∃ more, trace (afterEntries order cid st) = trace st ++ more).
Proof.
  revert st. induction order as [|a order IH]; intros st.
  - split_and!; try done. exists []. by rewrite app_nil_r.
  - rewrite afterEntries_cons.
    destruct (IH (afterEntry cid st a)) as (I1 & I2 & I3 & more & I4). split_and!.
    + intros n Hn. by apply I1, afterEntry_dns_None.
    + intros a0 p Hn. by apply I2, afterEntry_not_claimed.
    + by rewrite I3, afterEntry_dom.
    + destruct (afterEntry_trace cid st a) as [m1 Hm1].
      exists (m1 ++ more). by rewrite I4, Hm1, app_assoc.
Qed.




Lemma containerPortKey_prefix c port :
  HasPrefix (containerPortKey c port) (ID c +:+ ":") = true.
Proof.
  unfold HasPrefix, containerPortKey.
  generalize (pretty (PrivatePort port)). intros s.
  induction (ID c) as [|ch id IH]; simpl.
  - by destruct s.
  - destruct (ascii_dec ch ch); [exact IH|done].
Qed.

Lemma keys_NoDup {V} (m : gmap string V) order : order ≡ₚ keys m → NoDup order.
Proof. intros ->. unfold keys. apply NoDup_fst_map_to_list. Qed.

(** The effects of the loop at an entry it has visited. *)
Lemma afterEntries_entry order cid st cp l :
  NoDup order → cp ∈ order →
  containerListeners st !! cp = Some l → HasPrefix cp (cid +:+ ":") = true →
  dnsZone (afterEntries order cid st) !! DNSName l = None ∧
  ¬ claimed (sourceAddrs (afterEntries order cid st)) (claimOf l).1 (claimOf l).2 ∧
  ∃ before later,
    trace (afterEntries order cid st)
    = trace st ++ before ++
      [EvUnregister cp; EvUnpublish (DNSName l);
       EvRelease (claimOf l).1 (claimOf l).2; EvStop l] ++ later.
Proof.
  intros Hnd Hcp Hl Hp.
  apply list_elem_of_split in Hcp as (o1 & o2 & ->).
  assert (Hncp : cp ∉ o1).
  { apply NoDup_app in Hnd as (_ & Hd & _). intros Hi. apply (Hd _ Hi). left. }
  rewrite afterEntries_app, afterEntries_cons.
  set (sa := afterEntries o1 cid st).
  assert (Hla : containerListeners sa !! cp = Some l).
  { unfold sa. rewrite afterEntries_listeners.
    by rewrite (bool_decide_eq_false_2 _ Hncp). }
  destruct (afterEntries_preserved o1 cid st) as (_ & _ & _ & m1 & Ht1).
  fold sa in Ht1.
  destruct (afterEntry_inv cid sa cp) as [[Hn|Hq] _|l' Hl' _ Hst]; [congruence..|].
  rewrite Hla in Hl'. injection Hl' as <-.
  set (sb := afterEntry cid sa cp) in *.
  destruct (afterEntries_preserved o2 cid sb) as (P1 & P2 & _ & m2 & Ht2).
  split_and!.
  - apply P1. rewrite Hst. cbn [dnsZone]. apply lookup_delete_eq.
  - apply P2. rewrite Hst. cbn [sourceAddrs]. intros [_ Hne]%claimed_release_inv.
    by apply Hne.
  - exists m1, m2. rewrite Ht2, Hst. cbn [trace]. rewrite Ht1.
    unfold removalEvents, claimOf. cbn [fst snd]. by rewrite <- !app_assoc.
Qed.

(** The effects of the loop when it has visited every key, entry by entry. *)
Lemma afterEntries_effects order cid st :
  order ≡ₚ keys (containerListeners st) →
  (∀ cp, HasPrefix cp (cid +:+ ":") = true →
     containerListeners (afterEntries order cid st) !! cp = None) ∧
  (∀ c port, ID c = cid →
     containerListeners (afterEntries order cid st) !! containerPortKey c port = None) ∧
  (∀ cp, HasPrefix cp (cid +:+ ":") = false →
     containerListeners (afterEntries order cid st) !! cp = containerListeners st !! cp) ∧
  (∀ cp l, containerListeners st !! cp = Some l → HasPrefix cp (cid +:+ ":") = true →
     dnsZone (afterEntries order cid st) !! DNSName l = None ∧
     ¬ claimed (sourceAddrs (afterEntries order cid st)) (claimOf l).1 (claimOf l).2 ∧
     ∃ before later,
       trace (afterEntries order cid st)
       = trace st ++ before ++
         [EvUnregister cp; EvUnpublish (DNSName l);
          EvRelease (claimOf l).1 (claimOf l).2; EvStop l] ++ later).
Proof.
  intros Hperm.
  assert (Hin : ∀ cp, is_Some (containerListeners st !! cp) → cp ∈ order).
  { intros cp Hcp. rewrite Hperm. by apply elem_of_keys. }
  assert (Hgone : ∀ cp, HasPrefix cp (cid +:+ ":") = true →
            containerListeners (afterEntries order cid st) !! cp = None).
  { intros cp Hp. rewrite afterEntries_listeners, Hp, andb_true_r.
    destruct (bool_decide (cp ∈ order)) eqn:Hb; [done|].
    apply bool_decide_eq_false in Hb.
    destruct (containerListeners st !! cp) eqn:Hcp; [|done].
    destruct Hb. apply Hin. eauto. }
  split_and!.
  - exact Hgone.
  - intros c port <-. apply Hgone, containerPortKey_prefix.
  - intros cp Hp. by rewrite afterEntries_listeners, Hp, andb_false_r.
  - intros cp l Hl Hp. apply afterEntries_entry; [by eapply keys_NoDup| |done..].
    apply Hin. eauto.
Qed.

(** The [Stop] of every entry a returning call removes has returned. *)
Lemma removeContainer_Returned_stops stops order cid st st' cp l :
  removeContainer stops order cid st = Returned st' → cp ∈ order →
  containerListeners st !! cp = Some l → HasPrefix cp (cid +:+ ":") = true →
  stops l = true.
Proof.
  intros Hret Hcp Hl Hp. revert st Hret Hl.
  induction order as [|a order IH]; intros st Hret Hl; [by apply elem_of_nil in Hcp|].
  cbn [removeContainer] in Hret.
  destruct (removeEntry stops cid st a) as [s|s] eqn:Ha; [|done].
  destruct (decide (a = cp)) as [->|Hne].
  - unfold removeEntry in Ha. rewrite Hl, Hp in Ha. unfold Stop in Ha.
    by destruct (stops l).
  - apply elem_of_cons in Hcp as [?|Hcp]; [congruence|].
    apply (IH Hcp s Hret).
    apply removeEntry_Returned in Ha as ->. rewrite afterEntry_listeners.
    destruct (HasPrefix a _); [by rewrite lookup_delete_ne|done].
Qed.

(** The effects of a call of [removeContainer] that returns. *)
Lemma removeContainer_effects stops order cid st st' :
  order ≡ₚ keys (containerListeners st) →
  removeContainer stops order cid st = Returned st' →
  (∀ cp, HasPrefix cp (cid +:+ ":") = true → containerListeners st' !! cp = None) ∧
  (∀ c port, ID c = cid → containerListeners st' !! containerPortKey c port = None) ∧
  (∀ cp, HasPrefix cp (cid +:+ ":") = false →
     containerListeners st' !! cp = containerListeners st !! cp) ∧
  (∀ cp l, containerListeners st !! cp = Some l → HasPrefix cp (cid +:+ ":") = true →
     dnsZone st' !! DNSName l = None ∧
     ¬ claimed (sourceAddrs st') (claimOf l).1 (claimOf l).2 ∧
     stops l = true ∧
     ∃ before later,
       trace st'
       = trace st ++ before ++
         [EvUnregister cp; EvUnpublish (DNSName l);
          EvRelease (claimOf l).1 (claimOf l).2; EvStop l] ++ later).
Proof.
  intros Hperm Hret.
  assert (Hcalled : ∀ cp l, containerListeners st !! cp = Some l →
            HasPrefix cp (cid +:+ ":") = true → stops l = true).
  { intros cp l Hl Hp. eapply removeContainer_Returned_stops; [done| |done..].
    rewrite Hperm. apply elem_of_keys. eauto. }
  pose proof (removeContainer_Returned _ _ _ _ _ Hret) as ->.
  destruct (afterEntries_effects order cid st Hperm) as (E1 & E2 & E3 & E4).
  split_and!; try done.
  intros cp l Hl Hp. destruct (E4 cp l Hl Hp) as (? & ? & ?). split_and!; eauto.
Qed.

(** ** Two listeners with one hostname *)

Section Collision.
Variable fep : Z.
Variable dip : netIP.

Lemma sourceAddrForPort_frame env port dest st src st' :
  sourceAddrForPort env port dest st = Ret (src, st') →
  dnsZone st' = dnsZone st ∧ containerListeners st' = containerListeners st.
Proof.
  unfold sourceAddrForPort.
  destruct (scanSourceAddrs _ _ _ _ _) as [[addr ls|last]|]; cbn [obind]; [| |done].
  - destruct (getSourceAddr port addr); cbn [obind]; [|done]. by intros [= _ <-].
  - destruct (nextSourceIP last) as [nextIP|]; cbn [obind]; [|done].
    destruct (negb (IsLoopback nextIP)); [done|].
    destruct (negb (ifconfigAlias env (IP_String nextIP))); [done|].
    destruct (getSourceAddr port (IP_String nextIP)); cbn [obind]; [|done].
    by intros [= _ <-].
Qed.

(** What a run of the loop of [addContainer] leaves: the listeners it
    started are registered, all under the container's hostname, earlier
    entries are kept, and the zone maps the hostname to the address of the
    listener started last. *)
Lemma addPorts_started env c ports out st out' st' :
  addPorts fep dip env c ports (out, st) = Ret (out', st') →
  ∃ more, out' = out ++ more ∧
    (∀ k l, containerListeners st !! k = Some l → containerListeners st' !! k = Some l) ∧
    (∀ l, l ∈ more → DNSName l = dnsNameFromContainerName (Name c) ∧
        ∃ port, containerListeners st' !! containerPortKey c port = Some l) ∧
    (more = [] → st' = st) ∧
    (∀ l, last more = Some l → dnsZone st' !! DNSName l = Some (IP (Src l))).
Proof.
  revert out st. induction ports as [|p ports IH]; intros out st; cbn [addPorts].
  - intros [= <- <-]. exists []. rewrite app_nil_r. split_and!; try done.
    intros l Hl. by apply elem_of_nil in Hl.
  - destruct (addPort fep dip env c (out, st) p) as [[out1 st1]|] eqn:Hp; cbn [obind];
      [|done].
    intros Hrest. destruct (IH _ _ Hrest) as (more & -> & K1 & K2 & K3 & K4).
    destruct (addPort_inv _ _ _ _ _ _ _ _ _ Hp) as
      [l0 _ -> ->|msg _ _ -> ->|l st2 Hk HL HT -> Hst1].
    + exists more. by split_and!.
    + exists more. by split_and!.
    + pose proof HL as HL'.
      apply ListenerFromContainerAndPort_Ok in HL' as (_ & _ & _ & Hname & _ & _ & Hs).
      apply sourceAddrForPort_frame in Hs as [Hz Hcl].
      assert (Hreg : containerListeners st1 !! containerPortKey c p = Some l).
      { rewrite Hst1. cbn [containerListeners]. apply lookup_insert_eq. }
      exists (l :: more). split_and!.
      * by rewrite <- app_assoc.
      * intros k l1 Hl1. apply K1. rewrite Hst1. cbn [containerListeners].
        rewrite lookup_insert_ne; [by rewrite Hcl|]. intros <-. congruence.
      * intros l1 [->|Hin]%elem_of_cons; [|by apply K2].
        split; [done|]. exists p. by apply K1.
      * done.
      * intros l1 Hlast. destruct more as [|l2 more].
        -- injection Hlast as <-. rewrite (K3 eq_refl), Hst1. cbn [dnsZone].
           apply lookup_insert_eq.
        -- by apply K4.
Qed.





End Collision.



(** ** The allocator: uniqueness, growth, first fit *)

Lemma reused_dom st st' addr port dest :
  reused st st' addr port dest → dom (sourceAddrs st') = dom (sourceAddrs st).
Proof.
  intros (ls & Hls & _ & -> & _). rewrite dom_insert_L.
  apply subseteq_union_1_L, singleton_subseteq_l, elem_of_dom. eauto.
Qed.

(** First fit: when some held address has [port] free, the call returns and
    claims [port] on a held address. *)
Lemma sourceAddrForPort_first_fit env port dest st :
  range_ok env → keys_canonical (sourceAddrs st) → 0 ≤ port ≤ 65535 →
  (∃ a ls, sourceAddrs st !! a = Some ls ∧ ls !! port = None) →
  ∃ addr src st', sourceAddrForPort env port dest st = Ret (src, st') ∧
    reused st st' addr port dest ∧ IP_String (IP src) = addr.
Proof.
  intros Hr Hc Hport (a & ls & Ha & Hfree). unfold sourceAddrForPort.
  pose proof (scanSourceAddrs_spec (sourceAddrs st) port
                (rangeSourceAddrs env (sourceAddrs st)) "" [] Hc) as Hscan.
  destruct (scanSourceAddrs _ _ _ _ _) as [[addr ls'|last]|]; cbn [obind].
  - destruct Hscan as (Hin & Hls & Hp); [by left|].
    assert (Hcan : canonical addr) by (apply Hc; eauto).
    rewrite (getSourceAddr_canonical _ _ Hcan Hport). cbn [obind].
    eexists addr, _, _. split; [done|]. split.
    + exists ls'. by split_and!.
    + cbn [IP]. by apply canonical_roundtrip.
  - destruct Hscan as (K1 & _); [by left|].
    destruct (K1 a ls) as [x Hx]; [|done|congruence].
    rewrite (Hr _). apply elem_of_keys. eauto.
  - destruct Hscan. by left.
Qed.

Lemma range_empty env : range_ok env → rangeSourceAddrs env ∅ = [].
Proof.
  intros Hr. apply Permutation_nil_r. rewrite (Hr ∅). unfold keys.
  by rewrite map_to_list_empty.
Qed.

(** The first provisioning: from an empty table the call provisions
    127.2.2.1. *)
Lemma sourceAddrForPort_empty env port dest st :
  range_ok env → sourceAddrs st = ∅ →
  ifconfigAlias env "127.2.2.1" = true → 0 ≤ port ≤ 65535 →
  ∃ st', sourceAddrForPort env port dest st
         = Ret ({| IP := SourceStartIP; Port := port; Zone := "" |}, st') ∧
    sourceAddrs st' = {[ "127.2.2.1" := {[ port := dest ]} ]} ∧
    trace st' = trace st ++ [EvIfconfig "127.2.2.1"; EvClaim "127.2.2.1" port].
Proof.
  intros Hr Hemp Hif Hport. unfold sourceAddrForPort.
  rewrite Hemp, (range_empty _ Hr). cbn [scanSourceAddrs obind].
  unfold nextSourceIP. rewrite decide_True by done. cbn [obind].
  change (IsLoopback SourceStartIP) with true.
  change (IP_String SourceStartIP) with "127.2.2.1". cbn [negb].
  rewrite Hif. cbn [negb].
  assert (Hcan : canonical "127.2.2.1").
  { exists 127, 2, 2, 1. unfold isByte. split_and!; try lia. reflexivity. }
  rewrite (getSourceAddr_canonical _ _ Hcan Hport). cbn [obind].
  eexists. split; [reflexivity|]. cbn [sourceAddrs trace emit set_sourceAddrs].
  rewrite Hemp. split; [by rewrite insert_empty|by rewrite <- app_assoc].
Qed.

Lemma sourceAddrForPort_dom env port dest st src st' :
  sourceAddrForPort env port dest st = Ret (src, st') →
  dom (sourceAddrs st) ⊆ dom (sourceAddrs st').
Proof.
  unfold sourceAddrForPort.
  destruct (scanSourceAddrs _ _ _ _ _) as [[addr ls|last]|]; cbn [obind]; [| |done].
  - destruct (getSourceAddr port addr); cbn [obind]; [|done]. intros [= _ <-].
    cbn [sourceAddrs emit set_sourceAddrs]. rewrite dom_insert_L. set_solver.
  - destruct (nextSourceIP last) as [nextIP|]; cbn [obind]; [|done].
    destruct (negb (IsLoopback nextIP)); [done|].
    destruct (negb (ifconfigAlias env (IP_String nextIP))); [done|].
    destruct (getSourceAddr port (IP_String nextIP)); cbn [obind]; [|done].
    intros [= _ <-]. cbn [sourceAddrs emit set_sourceAddrs]. rewrite dom_insert_L.
    set_solver.
Qed.

Lemma addPorts_dom fep dip env c ports out st out' st' :
  addPorts fep dip env c ports (out, st) = Ret (out', st') →
  dom (sourceAddrs st) ⊆ dom (sourceAddrs st').
Proof.
  revert out st. induction ports as [|p ports IH]; intros out st; cbn [addPorts].
  - by intros [= _ <-].
  - destruct (addPort fep dip env c (out, st) p) as [[out1 st1]|] eqn:Hp; cbn [obind];
      [|done].
    intros Hrest. etrans; [|by eapply IH].
    destruct (addPort_inv _ _ _ _ _ _ _ _ _ Hp) as
      [l0 _ _ ->|msg _ _ _ ->|l st2 _ HL _ _ ->]; [done..|].
    cbn [sourceAddrs].
    apply ListenerFromContainerAndPort_Ok in HL as (_ & _ & _ & _ & _ & _ & Hs).
    by eapply sourceAddrForPort_dom.
Qed.

Lemma step_dom fep dip st st' :
  step fep dip st st' → dom (sourceAddrs st) ⊆ dom (sourceAddrs st').
Proof.
  intros [env cid st0 out st1 _ Hadd|stops order cid st0 _].
  - unfold addContainer in Hadd. destruct (InspectContainer env cid).
    + by eapply addPorts_dom.
    + by injection Hadd as _ <-.
  - destruct (removeContainer_stateOf stops order cid st0) as (visited & _ & _ & ->).
    destruct (afterEntries_preserved visited cid st0) as (_ & _ & -> & _). done.
Qed.

(** C1. In every state the control loop reaches, two registered listeners
    never hold the same (address, port) claim, every registered listener's
    claim is live in the allocator, and a returning [sourceAddrForPort]
    claims a pair that was not live before, distinct from the claim of every
    registered listener, keeping every live claim live.  (That an address
    holds one destination per port is the type of the claim map.) *)
Theorem allocation_uniqueness fep dip st :
  reachable fep dip st →
  (∀ k1 k2 l1 l2,
     containerListeners st !! k1 = Some l1 → containerListeners st !! k2 = Some l2 →
     k1 ≠ k2 → claimOf l1 ≠ claimOf l2) ∧
  (∀ key l, containerListeners st !! key = Some l →
     claimed (sourceAddrs st) (claimOf l).1 (claimOf l).2) ∧
  (∀ env port dest src st',
     range_ok env → sourceAddrForPort env port dest st = Ret (src, st') →
     Port src = port ∧
     ¬ claimed (sourceAddrs st) (IP_String (IP src)) port ∧
     (∀ key l, containerListeners st !! key = Some l →
        claimOf l ≠ (IP_String (IP src), port)) ∧
     (∃ ls, sourceAddrs st' !! IP_String (IP src) = Some ls ∧ ls !! port = Some dest) ∧
     (∀ a p, claimed (sourceAddrs st) a p → claimed (sourceAddrs st') a p)).
Proof.
  intros HI%reachable_Inv. split_and!.
  - intros k1 k2 l1 l2 H1 H2 Hne Heq. apply Hne. by eapply (inv_unique _ HI).
  - apply (inv_claimed _ HI).
  - intros env port dest src st' Hr Hs.
    destruct (sourceAddrForPort_spec _ _ _ _ _ _ Hr (inv_keys _ HI) Hs)
      as (addr & Hc & -> & Hport & _ & _ & Hcase).
    cbn [IP Port]. rewrite (canonical_roundtrip _ Hc).
    split_and!; [done|by eapply alloc_fresh| |by eapply alloc_now_claimed|].
    + intros key l Hl Heq. apply (alloc_fresh _ _ _ _ _ Hcase).
      pose proof (inv_claimed _ HI _ _ Hl) as Hcl. by rewrite Heq in Hcl.
    + intros a p. by eapply alloc_claimed.
Qed.

Lemma allocation_uniqueness_witness :
  containerListeners Scenario.st2 !! "c1:8080"
    = Some (mkListener "web-app" (mkTCPAddr (IPv4 127 2 2 1) 8080 "")
              (mkTCPAddr (IPv4 192 168 99 100) 51234 "")) ∧
  containerListeners Scenario.st2 !! "c2:8080"
    = Some (mkListener "web-app" (mkTCPAddr (IPv4 127 2 2 2) 8080 "")
              (mkTCPAddr (IPv4 192 168 99 100) 51235 "")) ∧
  claimOf (mkListener "web-app" (mkTCPAddr (IPv4 127 2 2 1) 8080 "")
             (mkTCPAddr (IPv4 192 168 99 100) 51234 ""))
  ≠ claimOf (mkListener "web-app" (mkTCPAddr (IPv4 127 2 2 2) 8080 "")
               (mkTCPAddr (IPv4 192 168 99 100) 51235 "")).
Proof.
  assert (H1 : containerListeners Scenario.st2 !! "c1:8080"
    = Some (mkListener "web-app" (mkTCPAddr (IPv4 127 2 2 1) 8080 "")
              (mkTCPAddr (IPv4 192 168 99 100) 51234 ""))) by (vm_compute; reflexivity).
  assert (H2 : containerListeners Scenario.st2 !! "c2:8080"
    = Some (mkListener "web-app" (mkTCPAddr (IPv4 127 2 2 2) 8080 "")
              (mkTCPAddr (IPv4 192 168 99 100) 51235 ""))) by (vm_compute; reflexivity).
  split; [exact H1|]. split; [exact H2|].
  exact (proj1 (allocation_uniqueness Scenario.fep Scenario.dip Scenario.st2
                  Scenario_reachable_st2) "c1:8080" "c2:8080" _ _ H1 H2
           ltac:(discriminate)).
Defined.


(** *** The order in which addresses are provisioned *)

Lemma start_addrNum : addrNum "127.2.2.1" = ipValue 127 2 2 1.
Proof. vm_compute. reflexivity. Qed.

Lemma aliased_app tr1 tr2 : aliased (tr1 ++ tr2) = aliased tr1 ++ aliased tr2.
Proof.
  induction tr1 as [|e tr1 IH]; simpl; [done|]. destruct e; simpl; by rewrite ?IH.
Qed.

Lemma AliasInv_same st st' :
  AliasInv st → aliased (trace st') = aliased (trace st) →
  (∀ k, is_Some (sourceAddrs st' !! k) ↔ is_Some (sourceAddrs st !! k)) →
  AliasInv st'.
Proof.
  intros [Hn Hd] Htr Hsa. split; rewrite Htr; [done|].
  intros k. by rewrite Hd, Hsa.
Qed.

Lemma sourceAddrForPort_AliasInv env port dest st src st' :
  range_ok env → keys_canonical (sourceAddrs st) → AliasInv st →
  sourceAddrForPort env port dest st = Ret (src, st') → AliasInv st'.
Proof.
  intros Hr Hc HA Hs.
  destruct (sourceAddrForPort_spec _ _ _ _ _ _ Hr Hc Hs)
    as (addr & Hcan & _ & _ & _ & _ & [Hre|Hpr]).
  - destruct Hre as (ls & Hls & _ & Hsa & Htr). apply (AliasInv_same st); [done| |].
    + rewrite Htr, aliased_app. simpl. by rewrite app_nil_r.
    + intros k. rewrite Hsa. destruct (decide (addr = k)) as [<-|Hne].
      * rewrite lookup_insert_eq, Hls. split; eauto.
      * by rewrite lookup_insert_ne.
  - destruct Hpr as (Hn & _ & Hsa & Htr & _). destruct HA as [Hnd Hd].
    split; rewrite Htr, aliased_app; simpl.
    + apply NoDup_app. split_and!; [done| |apply NoDup_singleton].
      intros k Hk ->%list_elem_of_singleton. apply Hd in Hk. rewrite Hn in Hk.
      by destruct Hk.
    + intros k. rewrite elem_of_app, list_elem_of_singleton, Hd, Hsa.
      destruct (decide (addr = k)) as [<-|Hne].
      * rewrite lookup_insert_eq. split; eauto.
      * rewrite lookup_insert_ne by done. split; [by intros [?|?]|by left].
Qed.

Lemma addPorts_AliasInv fep dip env c ports out st out' st' :
  range_ok env → Inv st → AliasInv st →
  addPorts fep dip env c ports (out, st) = Ret (out', st') → AliasInv st'.
Proof.
  intros Hr. revert out st. induction ports as [|p ports IH]; intros out st HI HA;
    cbn [addPorts].
  - by intros [= _ <-].
  - destruct (addPort fep dip env c (out, st) p) as [[out1 st1]|] eqn:Hp; cbn [obind];
      [|done].
    apply IH; [by eapply addPort_Inv|].
    destruct (addPort_inv _ _ _ _ _ _ _ _ _ Hp) as
      [l0 _ _ ->|msg _ _ _ ->|l st2 _ HL _ _ ->]; [done..|].
    apply ListenerFromContainerAndPort_Ok in HL as (_ & _ & _ & _ & _ & _ & Hs).
    pose proof (sourceAddrForPort_AliasInv _ _ _ _ _ _ Hr (inv_keys _ HI) HA Hs) as HA2.
    apply (AliasInv_same st2); [done| |done].
    cbn [trace]. rewrite aliased_app. simpl. by rewrite app_nil_r.
Qed.

Lemma afterEntry_AliasInv cid st cp : AliasInv st → AliasInv (afterEntry cid st cp).
Proof.
  intros HA. apply (AliasInv_same st); [done| |].
  - destruct (afterEntry_inv cid st cp) as [_ ->|l _ _ ->]; [done|].
    cbn [trace]. rewrite aliased_app. simpl. by rewrite app_nil_r.
  - intros k. rewrite <- !elem_of_dom. by rewrite afterEntry_dom.
Qed.

Lemma reachable_AliasInv fep dip st : reachable fep dip st → AliasInv st.
Proof.
  induction 1 as [|st st' Hreach IH Hstep].
  { split; cbn; [constructor|]. intros k. rewrite lookup_empty. split.
    - by intros ?%elem_of_nil.
    - by intros [? ?]. }
  pose proof (reachable_Inv _ _ _ Hreach) as HI.
  destruct Hstep as [env cid st out st' Hr Hadd|stops order cid st _].
  - unfold addContainer in Hadd. destruct (InspectContainer env cid).
    + by eapply addPorts_AliasInv.
    + by injection Hadd as _ <-.
  - apply removeContainer_preserves; [|done]. intros s cp. apply afterEntry_AliasInv.
Qed.

Lemma sourceAddrForPort_in_order env port dest st src st' :
  range_ok env → keys_canonical (sourceAddrs st) → AliasInv st → aliased_in_order st →
  sourceAddrForPort env port dest st = Ret (src, st') → aliased_in_order st'.
Proof.
  intros Hr Hc [_ Hd] HS Hs.
  destruct (sourceAddrForPort_spec _ _ _ _ _ _ Hr Hc Hs)
    as (addr & Hcan & _ & _ & _ & _ & [Hre|Hpr]).
  - destruct Hre as (ls & _ & _ & _ & Htr). intros i a.
    rewrite Htr, aliased_app. simpl. rewrite app_nil_r. apply HS.
  - destruct Hpr as (Hn & _ & Hsa & Htr & Hwhich). intros i a.
    rewrite Htr, aliased_app. simpl.
    intros [Hi|[Hlen [Hi0 <-]%list_lookup_singleton_Some]]%lookup_app_Some;
      [by apply HS|].
    assert (i = List.length (aliased (trace st))) as -> by lia. clear Hlen Hi0.
    destruct Hwhich as [[Hempty ->]|(kmax & Hk & Hmax & Hnum)].
    + destruct (aliased (trace st)) as [|x xs] eqn:E.
      * rewrite start_addrNum. simpl. lia.
      * assert (Hx : x ∈ x :: xs) by left.
        apply Hd in Hx as [? Hx]. by rewrite Hempty, lookup_empty in Hx.
    + apply Hd, list_elem_of_lookup in Hk as [j Hj].
      pose proof (lookup_lt_Some _ _ _ Hj) as Hlt.
      destruct (lookup_lt_is_Some_2 (aliased (trace st))
                  (List.length (aliased (trace st)) - 1)) as [klast Hlast]; [lia|].
      assert (Hheld : is_Some (sourceAddrs st !! klast)).
      { apply Hd, list_elem_of_lookup. eauto. }
      pose proof (Hmax _ Hheld) as Hle.
      rewrite (HS _ _ Hj), (HS _ _ Hlast) in Hle.
      rewrite Hnum, (HS _ _ Hj). lia.
Qed.

Lemma addPorts_in_order fep dip env c ports out st out' st' :
  range_ok env → Inv st → AliasInv st → aliased_in_order st →
  addPorts fep dip env c ports (out, st) = Ret (out', st') → aliased_in_order st'.
Proof.
  intros Hr. revert out st. induction ports as [|p ports IH]; intros out st HI HA HS;
    cbn [addPorts].
  - by intros [= _ <-].
  - destruct (addPort fep dip env c (out, st) p) as [[out1 st1]|] eqn:Hp; cbn [obind];
      [|done].
    apply IH; [by eapply addPort_Inv| |].
    + eapply (addPorts_AliasInv fep dip env c [p] out st); [done..|].
      cbn [addPorts]. by rewrite Hp.
    + destruct (addPort_inv _ _ _ _ _ _ _ _ _ Hp) as
        [l0 _ _ ->|msg _ _ _ ->|l st2 _ HL _ _ ->]; [done..|].
      apply ListenerFromContainerAndPort_Ok in HL as (_ & _ & _ & _ & _ & _ & Hs).
      pose proof (sourceAddrForPort_in_order _ _ _ _ _ _ Hr (inv_keys _ HI) HA HS Hs)
        as HS2.
      intros i a. cbn [trace]. rewrite aliased_app. simpl. rewrite app_nil_r.
      apply HS2.
Qed.

Lemma afterEntry_in_order cid st cp :
  aliased_in_order st → aliased_in_order (afterEntry cid st cp).
Proof.
  intros HS i a. destruct (afterEntry_inv cid st cp) as [_ ->|l _ _ ->]; [apply HS|].
  cbn [trace]. rewrite aliased_app. simpl. rewrite app_nil_r. apply HS.
Qed.

Lemma reachable_in_order fep dip st : reachable fep dip st → aliased_in_order st.
Proof.
  induction 1 as [|st st' Hreach IH Hstep].
  { intros i a Hi. cbn in Hi. by rewrite lookup_nil in Hi. }
  pose proof (reachable_Inv _ _ _ Hreach) as HI.
  pose proof (reachable_AliasInv _ _ _ Hreach) as HA.
  destruct Hstep as [env cid st out st' Hr Hadd|stops order cid st _].
  - unfold addContainer in Hadd. destruct (InspectContainer env cid).
    + by eapply addPorts_in_order.
    + by injection Hadd as _ <-.
  - apply removeContainer_preserves; [|done]. intros s cp. apply afterEntry_in_order.
Qed.

(** C6. From an empty table the call provisions 127.2.2.1.  In a reachable
    state, a call that adds an address to the table adds the start address
    when the table is empty, and otherwise the address whose 32-bit value is
    one more than the highest value held; a call that returns while every
    held address has the port claimed provisions such an address, one that
    the table does not hold yet; and the addresses the program has aliased
    are, in the order of the log, 127.2.2.1 and its successors, each held
    by the table.  No step of the control loop removes an address from the
    table. *)
Theorem allocation_growth fep dip :
  (∀ env port dest st,
     range_ok env → sourceAddrs st = ∅ →
     ifconfigAlias env "127.2.2.1" = true → 0 ≤ port ≤ 65535 →
     ∃ st', sourceAddrForPort env port dest st
            = Ret ({| IP := SourceStartIP; Port := port; Zone := "" |}, st') ∧
       sourceAddrs st' = {[ "127.2.2.1" := {[ port := dest ]} ]} ∧
       trace st' = trace st ++ [EvIfconfig "127.2.2.1"; EvClaim "127.2.2.1" port]) ∧
  (∀ st env port dest src st' addr,
     reachable fep dip st → range_ok env →
     sourceAddrForPort env port dest st = Ret (src, st') →
     sourceAddrs st !! addr = None → is_Some (sourceAddrs st' !! addr) →
     addr = IP_String (IP src) ∧
     trace st' = trace st ++ [EvIfconfig addr; EvClaim addr port] ∧
     ((sourceAddrs st = ∅ ∧ addr = "127.2.2.1") ∨
      (∃ kmax, is_Some (sourceAddrs st !! kmax) ∧
         (∀ k, is_Some (sourceAddrs st !! k) → addrNum k ≤ addrNum kmax) ∧
         addrNum addr = addrNum kmax + 1))) ∧
  (∀ st env port dest src st',
     reachable fep dip st → range_ok env →
     sourceAddrForPort env port dest st = Ret (src, st') →
     (∀ a ls, sourceAddrs st !! a = Some ls → is_Some (ls !! port)) →
     provisioned st st' (IP_String (IP src)) port dest) ∧
  (∀ st i addr,
     reachable fep dip st → aliased (trace st) !! i = Some addr →
     addrNum addr = ipValue 127 2 2 1 + Z.of_nat i ∧ canonical addr ∧
     is_Some (sourceAddrs st !! addr)) ∧
  (∀ st st', step fep dip st st' → dom (sourceAddrs st) ⊆ dom (sourceAddrs st')).
Proof.
  split_and!.
  - intros env port dest st. apply sourceAddrForPort_empty.
  - intros st env port dest src st' addr HI%reachable_Inv Hr Hs Hnew Hnow.
    destruct (sourceAddrForPort_spec _ _ _ _ _ _ Hr (inv_keys _ HI) Hs)
      as (addr0 & Hc & -> & Hport & _ & _ & [Hre|Hpr]).
    + destruct Hre as (ls & Hls & _ & Hsa & _). rewrite Hsa in Hnow.
      destruct (decide (addr0 = addr)) as [->|Hne]; [congruence|].
      rewrite lookup_insert_ne in Hnow by done. rewrite Hnew in Hnow. by destruct Hnow.
    + destruct Hpr as (Hn & _ & Hsa & Htr & Hwhich).
      assert (addr0 = addr) as ->.
      { destruct (decide (addr0 = addr)) as [->|Hne]; [done|].
        rewrite Hsa, lookup_insert_ne in Hnow by done. rewrite Hnew in Hnow.
        by destruct Hnow. }
      cbn [IP]. rewrite (canonical_roundtrip _ Hc). by split_and!.
  - intros st env port dest src st' HI%reachable_Inv Hr Hs Hall.
    destruct (sourceAddrForPort_spec _ _ _ _ _ _ Hr (inv_keys _ HI) Hs)
      as (addr0 & Hc & -> & Hport & _ & _ & [Hre|Hpr]).
    + destruct Hre as (ls & Hls & Hfree & _).
      destruct (Hall _ _ Hls) as [? Hq]. congruence.
    + cbn [IP]. by rewrite (canonical_roundtrip _ Hc).
  - intros st i addr Hreach Hi.
    assert (Hheld : is_Some (sourceAddrs st !! addr)).
    { apply (alias_dom _ (reachable_AliasInv _ _ _ Hreach)), list_elem_of_lookup. eauto. }
    split_and!; [by eapply reachable_in_order| |done].
    by apply (inv_keys _ (reachable_Inv _ _ _ Hreach)).
  - apply step_dom.
Qed.

Lemma allocation_growth_witness :
  (∃ st', sourceAddrForPort Scenario.env0 80 (mkTCPAddr (IPv4 10 0 0 1) 80 "") initState
          = Ret ({| IP := SourceStartIP; Port := 80; Zone := "" |}, st') ∧
     sourceAddrs st' = {[ "127.2.2.1" := {[ 80 := mkTCPAddr (IPv4 10 0 0 1) 80 "" ]} ]} ∧
     trace st' = trace initState ++ [EvIfconfig "127.2.2.1"; EvClaim "127.2.2.1" 80]) ∧
  addrNum "127.2.2.2" = addrNum "127.2.2.1" + 1 ∧
  is_Some (sourceAddrs Scenario.st2 !! "127.2.2.2") ∧
  aliased (trace Scenario.st2) = ["127.2.2.1"; "127.2.2.2"].
Proof.
  split.
  - apply (proj1 (allocation_growth Scenario.fep Scenario.dip) Scenario.env0 80
             (mkTCPAddr (IPv4 10 0 0 1) 80 "") initState Scenario_range_ok);
      [reflexivity|reflexivity|lia].
  - split; [vm_compute; reflexivity|]. split; [vm_compute; eauto|].
    vm_compute. reflexivity.
Defined.

(** ** First fit after a release *)

Lemma rangeFirst_perm {V} (a : string) (m : gmap string V) : rangeFirst a m ≡ₚ keys m.
Proof.
  unfold rangeFirst. case_bool_decide as Ha; [|done].
  assert (Hnd : NoDup (keys m)) by apply NoDup_fst_map_to_list.
  induction (keys m) as [|x l IH]; [by apply elem_of_nil in Ha|].
  apply NoDup_cons in Hnd as [Hx Hnd].
  rewrite filter_cons. destruct (decide (x = a)) as [->|Hne].
  - rewrite decide_False by (intros ?; done). constructor.
    clear IH Ha. induction l as [|y l IH]; [done|].
    apply not_elem_of_cons in Hx as [Hya Hx]. apply NoDup_cons in Hnd as [_ Hnd].
    rewrite filter_cons, decide_True by done. constructor. by apply IH.
  - rewrite decide_True by done.
    apply elem_of_cons in Ha as [->|Ha]; [done|].
    rewrite (Permutation_swap x a). constructor. by apply IH.
Qed.

Lemma sourceAddrForPort_head env port dest st a ls rest :
  rangeSourceAddrs env (sourceAddrs st) = a :: rest →
  sourceAddrs st !! a = Some ls → ls !! port = None → canonical a → 0 ≤ port ≤ 65535 →
  ∃ src st', sourceAddrForPort env port dest st = Ret (src, st') ∧ IP_String (IP src) = a.
Proof.
  intros Ho Ha Hfree Hc Hport. unfold sourceAddrForPort. rewrite Ho.
  cbn [scanSourceAddrs]. rewrite Ha. cbn [obind]. rewrite Hfree. cbn [obind].
  rewrite (getSourceAddr_canonical _ _ Hc Hport). cbn [obind].
  eexists _, _. split; [done|]. cbn [IP]. by apply canonical_roundtrip.
Qed.

(** Removal keeps the claims that do not belong to a removed entry. *)
Lemma afterEntries_keeps_claims order cid st a p :
  claimed (sourceAddrs st) a p →
  (∀ cp l, containerListeners st !! cp = Some l → HasPrefix cp (cid +:+ ":") = true →
           claimOf l ≠ (a, p)) →
  claimed (sourceAddrs (afterEntries order cid st)) a p.
Proof.
  revert st. induction order as [|x order IH]; intros st Hcl Hne; [done|].
  rewrite afterEntries_cons. apply IH.
  - destruct (afterEntry_inv cid st x) as [_ ->|l Hl Hp ->]; [done|].
    cbn [sourceAddrs]. apply claimed_release; [|done].
    intros Heq. by apply (Hne x l Hl Hp).
  - intros cp l Hl Hp. apply (Hne cp l); [|done].
    rewrite afterEntry_listeners in Hl. destruct (HasPrefix x _); [|done].
    by apply lookup_delete_Some in Hl as [_ ?].
Qed.

(** C7. In a reachable state, a call for a port that some held address has
    free returns, claims the port on a held address and provisions nothing.
    [removeContainer] releases the claims of the entries it removes and no
    other, and removes no address.  It has removed every entry of the
    container when it returns; and once it has removed an entry, whether it
    has returned or is blocked in a [Stop], the released port is free on its
    address, so that the next call for that port reuses a held address, and
    returns the released address itself when the enumeration visits it
    first. *)
Theorem first_fit_reuse fep dip st :
  reachable fep dip st →
  (∀ env port dest,
     range_ok env → 0 ≤ port ≤ 65535 →
     (∃ a ls, sourceAddrs st !! a = Some ls ∧ ls !! port = None) →
     ∃ addr src st', sourceAddrForPort env port dest st = Ret (src, st') ∧
       reused st st' addr port dest ∧ IP_String (IP src) = addr ∧
       dom (sourceAddrs st') = dom (sourceAddrs st)) ∧
  (∀ stops order cid cp l,
     order ≡ₚ keys (containerListeners st) →
     containerListeners st !! cp = Some l → HasPrefix cp (cid +:+ ":") = true →
     (∀ st1, removeContainer stops order cid st = Returned st1 →
             containerListeners st1 !! cp = None) ∧
     ∀ st1, stateOf (removeContainer stops order cid st) = st1 →
       containerListeners st1 !! cp = None →
       dom (sourceAddrs st1) = dom (sourceAddrs st) ∧
       ¬ claimed (sourceAddrs st1) (claimOf l).1 (claimOf l).2 ∧
       (∀ a p, claimed (sourceAddrs st) a p →
          (∀ cp' l', containerListeners st !! cp' = Some l' →
             HasPrefix cp' (cid +:+ ":") = true → claimOf l' ≠ (a, p)) →
          claimed (sourceAddrs st1) a p) ∧
       (∀ env dest, range_ok env →
          ∃ addr src st', sourceAddrForPort env (Port (Src l)) dest st1 = Ret (src, st') ∧
            reused st1 st' addr (Port (Src l)) dest ∧
            dom (sourceAddrs st') = dom (sourceAddrs st)) ∧
       (∃ env, range_ok env ∧ ∀ dest,
          ∃ src st', sourceAddrForPort env (Port (Src l)) dest st1 = Ret (src, st') ∧
            IP_String (IP src) = (claimOf l).1)).
Proof.
  intros Hreach. pose proof (reachable_Inv _ _ _ Hreach) as HI. split.
  - intros env port dest Hr Hport Hfree.
    destruct (sourceAddrForPort_first_fit env port dest st Hr (inv_keys _ HI) Hport Hfree)
      as (addr & src & st' & Hs & Hre & Hsrc).
    exists addr, src, st'. split_and!; try done. by eapply reused_dom.
  - intros stops order cid cp l Hperm Hl Hp. split.
    { intros st1 Hret.
      by destruct (removeContainer_effects _ _ _ _ _ Hperm Hret) as (-> & _). }
    intros st1 Hst1 Hgone.
    destruct (removeContainer_stateOf stops order cid st) as (visited & rest & Hord & Hvis).
    rewrite Hst1 in Hvis. clear Hst1.
    assert (Hnd : NoDup visited).
    { apply keys_NoDup in Hperm. rewrite Hord in Hperm.
      by apply NoDup_app in Hperm as (? & _). }
    assert (Hcp : cp ∈ visited).
    { rewrite Hvis, afterEntries_listeners, Hp, andb_true_r in Hgone.
      destruct (bool_decide (cp ∈ visited)) eqn:Hb; [by apply bool_decide_eq_true in Hb|].
      congruence. }
    assert (HI1 : Inv st1) by (rewrite Hvis; by apply afterEntries_Inv).
    destruct (afterEntries_preserved visited cid st) as (_ & _ & Hdom & _).
    rewrite <- Hvis in Hdom.
    destruct (afterEntries_entry visited cid st cp l Hnd Hcp Hl Hp) as (_ & Hfree & _).
    rewrite <- Hvis in Hfree.
    destruct (inv_src _ HI _ _ Hl) as (a0 & Hc0 & Hsrc & Hport).
    destruct (inv_claimed _ HI _ _ Hl) as (ls0 & Hls0 & _).
    assert (Ha0 : (claimOf l).1 = a0).
    { unfold claimOf. cbn [fst]. rewrite Hsrc. cbn [IP]. by apply canonical_roundtrip. }
    assert (Hheld : ∃ ls1, sourceAddrs st1 !! a0 = Some ls1 ∧ ls1 !! Port (Src l) = None).
    { assert (a0 ∈ dom (sourceAddrs st1)) as [ls1 Hls1]%elem_of_dom.
      { rewrite Hdom, <- Ha0. apply elem_of_dom. eauto. }
      exists ls1. split; [done|].
      destruct (ls1 !! Port (Src l)) eqn:Hq; [|done].
      destruct Hfree. rewrite Ha0. exists ls1. cbn [snd claimOf]. eauto. }
    destruct Hheld as (ls1 & Hls1 & Hq).
    split_and!; try done.
    + intros a p. rewrite Hvis. apply afterEntries_keeps_claims.
    + intros env dest Hr.
      destruct (sourceAddrForPort_first_fit env (Port (Src l)) dest st1 Hr
                  (inv_keys _ HI1) Hport) as (addr & src & st' & Hs & Hre & _); [eauto|].
      exists addr, src, st'. split_and!; try done.
      by rewrite (reused_dom _ _ _ _ _ Hre).
    + exists {| InspectContainer := λ _, None; ResolveIPAddr := λ _, None;
                ifconfigAlias := λ _, false; ListenTCP := λ _, false;
                rangeSourceAddrs := rangeFirst a0 |}.
      split; [intros m; apply rangeFirst_perm|].
      intros dest. rewrite Ha0.
      eapply (sourceAddrForPort_head _ _ _ _ a0 ls1); try done.
      cbn [rangeSourceAddrs]. unfold rangeFirst.
      rewrite bool_decide_eq_true_2; [done|]. apply elem_of_keys. eauto.
Qed.

Lemma first_fit_reuse_witness :
  ∃ addr src st',
    sourceAddrForPort Scenario.env0 8080 (mkTCPAddr (IPv4 10 0 0 1) 9000 "") Scenario.st3
      = Ret (src, st') ∧
    reused Scenario.st3 st' addr 8080 (mkTCPAddr (IPv4 10 0 0 1) 9000 "") ∧
    IP_String (IP src) = addr ∧ dom (sourceAddrs st') = dom (sourceAddrs Scenario.st3).
Proof.
  apply (proj1 (first_fit_reuse Scenario.fep Scenario.dip Scenario.st3
                  Scenario_reachable_st3) Scenario.env0 8080
           (mkTCPAddr (IPv4 10 0 0 1) 9000 "") Scenario_range_ok); [lia|].
  exists "127.2.2.1", ∅. split; vm_compute; reflexivity.
Defined.

(** ** Shutdown of a relay *)

Section RelayProofs.
Import Relay.

Lemma copyOwes_nonneg p : 0 ≤ copyOwes p.
Proof. destruct p; simpl; lia. Qed.

Lemma fwdOwes_nonneg f : 0 ≤ fwdOwes f.
Proof.
  destruct f as [| | |c1 c2| |]; simpl; try lia.
  pose proof (copyOwes_nonneg c1). pose proof (copyOwes_nonneg c2). lia.
Qed.

Lemma sumOwes_nonneg fs : 0 ≤ sumOwes fs.
Proof.
  induction fs as [|f fs IH]; simpl; [lia|]. pose proof (fwdOwes_nonneg f). lia.
Qed.

Lemma sumOwes_insert fs c f f' :
  fs !! c = Some f → sumOwes (<[c := f']> fs) = sumOwes fs - fwdOwes f + fwdOwes f'.
Proof.
  revert c. induction fs as [|x fs IH]; intros [|c]; simpl; try done.
  - intros [= ->]. lia.
  - intros Hc. rewrite (IH _ Hc). lia.
Qed.

Lemma sumOwes_snoc fs f : sumOwes (fs ++ [f]) = sumOwes fs + fwdOwes f.
Proof. induction fs as [|x fs IH]; simpl; [lia|]. rewrite IH. lia. Qed.

Lemma sumOwes_zero fs c f : sumOwes fs = 0 → fs !! c = Some f → fwdOwes f = 0.
Proof.
  revert c. induction fs as [|x fs IH]; intros [|c]; simpl; try done.
  - intros Hs [= ->]. pose proof (fwdOwes_nonneg f). pose proof (sumOwes_nonneg fs). lia.
  - intros Hs Hc. apply (IH c); [|done].
    pose proof (fwdOwes_nonneg x). pose proof (sumOwes_nonneg fs). lia.
Qed.

Lemma owed_zero s :
  owed s = 0 → tracker s = TExited ∧ ∀ c f, forwards s !! c = Some f → fwdOwes f = 0.
Proof.
  unfold owed. intros Hz. pose proof (sumOwes_nonneg (forwards s)).
  assert (trackerOwes (tracker s) = 0 ∧ sumOwes (forwards s) = 0) as [Ht Hs].
  { destruct (tracker s); simpl in *; lia. }
  split; [by destruct (tracker s)|]. intros c f. by apply sumOwes_zero.
Qed.

Lemma copy_step_inv c second from to eff s s' :
  copy_step c second from to eff s = Some s' →
  ∃ c1 c2, forwards s !! c = Some (FWait c1 c2) ∧ copy_of second c1 c2 = from ∧
    from ≠ CExited ∧ s' = set_fwd c (with_copy second c1 c2 to) (eff s).
Proof.
  unfold copy_step. destruct (forwards s !! c) as [[| | |c1 c2| |]|]; try done.
  intros H. exists c1, c2.
  destruct (copy_of second c1 c2) eqn:Hc, from; try done; by injection H as <-.
Qed.

Lemma with_copy_owes second c1 c2 to :
  fwdOwes (with_copy second c1 c2 to)
  = fwdOwes (FWait c1 c2) - copyOwes (copy_of second c1 c2) + copyOwes to.
Proof. destruct second; simpl; lia. Qed.

Lemma RInv_init : RInv initR.
Proof. split; simpl; try done. by intros c [?|?]. Qed.

(** A step that rewrites the slot [c] of a launched connection. *)
Lemma RInv_set_fwd_fin s c f f' fin :
  RInv s → forwards s !! c = Some f → f ≠ FNotStarted →
  fin = finished s - fwdOwes f + fwdOwes f' →
  RInv (set_fwd c f' (set_finished fin s)).
Proof.
  intros [Hf Hc Hs Hslot] Hfc Hne ->. split; cbn; try done.
  - unfold owed in *. cbn. rewrite (sumOwes_insert _ _ f) by done. lia.
  - intros c0 Ha. specialize (Hslot c0 Ha).
    rewrite list_lookup_insert_ne; [done|]. intros <-. congruence.
Qed.

Lemma RInv_set_fwd s c f f' :
  RInv s → forwards s !! c = Some f → f ≠ FNotStarted →
  fwdOwes f' = fwdOwes f → RInv (set_fwd c f' s).
Proof.
  intros [Hf Hc Hs Hslot] Hfc Hne Ho. split; cbn; try done.
  - unfold owed in *. cbn. rewrite (sumOwes_insert _ _ f) by done. lia.
  - intros c0 Ha. specialize (Hslot c0 Ha).
    rewrite list_lookup_insert_ne; [done|]. intros <-. congruence.
Qed.

Ltac rinv_side :=
  try done;
  try (match goal with H : tracker _ = _ |- _ => rewrite ?H end);
  first [ assumption | auto; fail | intros ?; eauto; congruence ].

Lemma exec_RInv l s s' : RInv s → exec l s = Some s' → RInv s'.
Proof.
  intros HI. pose proof HI as [Hf Hc Hs Hslot]. unfold owed in Hf.
  destruct l; cbn [exec].
  - (* Accept returns a connection *)
    destruct (acceptor s) eqn:Ha; try done. destruct (listening s) eqn:Hl; [|done].
    intros [= <-]. split; cbn.
    + unfold owed. cbn. rewrite sumOwes_snoc. simpl. lia.
    + intros Hn. specialize (Hc Hn). congruence.
    + rinv_side.
    + intros c [[= <-]|?]; [|done]. by rewrite lookup_app_r, Nat.sub_diag.
  - (* Accept fails *)
    destruct (acceptor s); try done. intros [= <-]. split; cbn; try done.
    by intros c [?|?].
  - (* newConn *)
    destruct (acceptor s) eqn:Ha; try done. destruct (tracker s) eqn:Ht; try done.
    intros [= <-]. split; cbn.
    + unfold owed. cbn. by rewrite Ht.
    + rinv_side.
    + rinv_side.
    + intros c0 [?|[= <-]]; [done|]. apply Hslot. by left.
  - (* go forward *)
    destruct (acceptor s) eqn:Ha; try done. intros [= <-].
    assert (Hfc : forwards s !! c = Some FNotStarted) by (apply Hslot; by right).
    split; cbn.
    + unfold owed. cbn. rewrite (sumOwes_insert _ _ FNotStarted) by done. simpl. lia.
    + rinv_side.
    + rinv_side.
    + by intros c0 [?|?].
  - (* closeAllConns from the accept loop *)
    destruct (acceptor s) eqn:Ha; try done. destruct (tracker s) eqn:Ht; try done.
    intros [= <-]. split; cbn.
    + unfold owed. cbn. rewrite Hf. done.
    + rinv_side.
    + rinv_side.
    + by intros c0 [?|?].
  - (* Stop is called *)
    destruct (stopper s) eqn:Hst; try done. intros [= <-]. split; cbn; rinv_side.
  - (* closeAllConns from Stop *)
    destruct (stopper s) eqn:Hst; try done. destruct (tracker s) eqn:Ht; try done.
    intros [= <-]. split; cbn.
    + unfold owed. cbn. rewrite Hf. done.
    + intros _. apply Hc. done.
    + rinv_side.
    + rinv_side.
  - (* the tracker closes a connection *)
    destruct (tracker s) as [|[|c todo]|] eqn:Ht; try done.
    intros [= <-]. split; cbn.
    + unfold owed. cbn. rewrite Hf. done.
    + rinv_side.
    + rinv_side.
    + rinv_side.
  - (* the tracker calls Done *)
    destruct (tracker s) as [|[|c todo]|] eqn:Ht; try done.
    intros [= <-]. split; cbn.
    + unfold owed. cbn. rewrite Hf. simpl. lia.
    + rinv_side.
    + rinv_side.
    + rinv_side.
  - destruct (waiter s); try done. intros [= <-]. by split.
  - destruct (waiter s); try done. destruct (finished s =? 0); [|done].
    intros [= <-]. by split.
  - (* dial succeeds *)
    destruct (forwards s !! c) as [[| | | | |]|] eqn:Hfc; try done. intros [= <-].
    by eapply (RInv_set_fwd _ _ FDial).
  - (* dial fails *)
    destruct (forwards s !! c) as [[| | | | |]|] eqn:Hfc; try done. intros [= <-].
    by eapply (RInv_set_fwd _ _ FDial).
  - (* Add(2) and the two copies *)
    destruct (forwards s !! c) as [[| | | | |]|] eqn:Hfc; try done. intros [= <-].
    eapply (RInv_set_fwd_fin _ _ FAdd); try done. simpl. lia.
  - (* io.Copy returns *)
    intros (c1 & c2 & Hfc & Hcp & Hne & ->)%copy_step_inv. cbn [id].
    eapply (RInv_set_fwd _ _ (FWait c1 c2)); try done.
    rewrite with_copy_owes, Hcp. simpl. lia.
  - (* finished.Done() *)
    intros (c1 & c2 & Hfc & Hcp & Hne & ->)%copy_step_inv.
    eapply (RInv_set_fwd_fin _ _ (FWait c1 c2)); try done.
    rewrite with_copy_owes, Hcp. simpl. lia.
  - (* wg.Done() *)
    intros (c1 & c2 & Hfc & Hcp & Hne & ->)%copy_step_inv. cbn [id].
    eapply (RInv_set_fwd _ _ (FWait c1 c2)); try done.
    rewrite with_copy_owes, Hcp. simpl. lia.
  - (* the deferred closes *)
    intros (c1 & c2 & Hfc & Hcp & Hne & ->)%copy_step_inv.
    eapply (RInv_set_fwd _ _ (FWait c1 c2)); try done; try (by split).
    rewrite with_copy_owes, Hcp. simpl. lia.
  - (* wg.Wait() returns *)
    destruct (forwards s !! c) as [[| | |c1 c2| |]|] eqn:Hfc; try done.
    destruct (pastWgDone c1) eqn:H1, (pastWgDone c2) eqn:H2; try done.
    intros [= <-]. eapply (RInv_set_fwd _ _ (FWait c1 c2)); try done.
    by destruct c1, c2.
  - (* closedConn *)
    destruct (forwards s !! c) as [[| | | | |]|] eqn:Hfc; try done.
    destruct (tracker s) eqn:Ht; try done. intros [= <-].
    eapply (RInv_set_fwd _ _ FSendClosed); try done.
    split; cbn; try done.
    + unfold owed. cbn. by rewrite Ht.
    + intros Hr. specialize (Hs Hr). by rewrite Ht.
Qed.

Lemma run_RInv sched s s' : RInv s → run sched s = Some s' → RInv s'.
Proof.
  revert s. induction sched as [|l sched IH]; intros s HI; simpl.
  - by intros [= <-].
  - destruct (exec l s) as [s1|] eqn:He; [|done]. apply IH. by eapply exec_RInv.
Qed.

Lemma rreachable_RInv s : rreachable s → RInv s.
Proof. intros [sched Hrun]. eapply run_RInv; [apply RInv_init|done]. Qed.

Lemma run_snoc sched l s s1 s2 :
  run sched s = Some s1 → exec l s1 = Some s2 → run (sched ++ [l]) s = Some s2.
Proof.
  revert s. induction sched as [|x sched IH]; intros s; simpl.
  - intros [= ->] ->. done.
  - destruct (exec x s); [|done]. apply IH.
Qed.

(** [Stop] returns by one step only: the tracker takes its signal. *)
Lemma exec_stop_returns l s s' :
  exec l s = Some s' → stopper s ≠ SReturned → stopper s' = SReturned →
  l = LCloseAllFromStop ∧ stopper s = SSendCloseAll ∧ tracker s = TSelect ∧
  tracker s' = TCloseAll (openConnections s).
Proof.
  destruct l; cbn [exec];
    try (intros (c1 & c2 & _ & _ & _ & ->)%copy_step_inv; cbn; congruence);
    repeat match goal with
           | |- context [match ?x with _ => _ end] => destruct x eqn:?; try done
           end;
    intros [= <-]; cbn; try congruence.
  by intros _ _.
Qed.

(** [Wait] returns by one step only, enabled when the counter is zero. *)
Lemma exec_wait_returns l s s' :
  exec l s = Some s' → waiter s ≠ WReturned → waiter s' = WReturned →
  l = LWaitReturn ∧ waiter s = WBlocked ∧ finished s = 0.
Proof.
  destruct l; cbn [exec];
    try (intros (c1 & c2 & _ & _ & _ & ->)%copy_step_inv; cbn; congruence);
    repeat match goal with
           | |- context [match ?x with _ => _ end] => destruct x eqn:?; try done
           end;
    intros [= <-]; cbn; try congruence.
  intros _ _. split_and!; try done. by apply Z.eqb_eq.
Qed.

Lemma exec_blocked l s s' :
  exec l s = Some s' → stopper s = SSendCloseAll → tracker s = TExited →
  stopper s' = SSendCloseAll ∧ tracker s' = TExited.
Proof.
  intros He Hst Ht.
  destruct l; cbn [exec] in He;
    try (apply copy_step_inv in He as (c1 & c2 & _ & _ & _ & ->); by cbn);
    repeat match type of He with
           | context [match ?x with _ => _ end] => destruct x eqn:?; try done
           end;
    injection He as <-; cbn; try done; congruence.
Qed.

Lemma run_blocked sched s s' :
  run sched s = Some s' → stopper s = SSendCloseAll → tracker s = TExited →
  stopper s' = SSendCloseAll.
Proof.
  revert s. induction sched as [|l sched IH]; intros s; simpl.
  - by intros [= <-].
  - destruct (exec l s) as [s1|] eqn:He; [|done]. intros Hrun Hst Ht.
    destruct (exec_blocked _ _ _ He Hst Ht). by eapply IH.
Qed.

(** The send in [Stop] has no receiver left when the tracker has taken the
    accept loop's close-all signal instead: that call of [Stop] never
    returns. *)
Lemma run_blocked_stop_schedule :
  run blocked_stop_schedule initR = Some blocked_stop_state.
Proof. vm_compute. reflexivity. Qed.

Lemma run_early_return_schedule :
  run early_return_schedule initR = Some early_return_state.
Proof. vm_compute. reflexivity. Qed.

Lemma Stop_may_block_forever :
  run blocked_stop_schedule initR = Some blocked_stop_state ∧
  ∀ sched s', run sched blocked_stop_state = Some s' → stopper s' = SSendCloseAll.
Proof.
  split; [apply run_blocked_stop_schedule|].
  intros sched s' Hrun. by eapply run_blocked.
Qed.

(** C3, as the code has it.  [Stop] closes the listening socket and then
    blocks only until the tracker takes its close-all signal: when it has
    returned the socket is closed and the tracker has left its [select], and
    it returns by that rendezvous alone, with the tracker about to close the
    connections it holds; it does not wait on [finished].  [Wait] returns by
    one step alone, when the counter of [finished] is zero: the tracker has
    then returned and no copy goroutine has its [finished.Done()] still to
    call. *)
Theorem Stop_and_Wait_blocking s :
  Relay.rreachable s →
  (stopper s = SReturned → listening s = false ∧ tracker s ≠ TSelect) ∧
  (∀ l s', exec l s = Some s' → stopper s ≠ SReturned → stopper s' = SReturned →
     l = LCloseAllFromStop ∧ listening s = false ∧ tracker s = TSelect ∧
     tracker s' = TCloseAll (openConnections s)) ∧
  (∀ l s', exec l s = Some s' → waiter s ≠ WReturned → waiter s' = WReturned →
     l = LWaitReturn ∧ finished s = 0 ∧ tracker s = TExited ∧
     ∀ c f, forwards s !! c = Some f → fwdOwes f = 0).
Proof.
  intros HI%rreachable_RInv. split_and!.
  - intros Hr. split; [apply (rinv_closed _ HI); congruence|by apply (rinv_signalled _ HI)].
  - intros l s' He Hn Hr.
    destruct (exec_stop_returns _ _ _ He Hn Hr) as (-> & Hst & Ht & Ht').
    split_and!; try done. apply (rinv_closed _ HI). congruence.
  - intros l s' He Hn Hr.
    destruct (exec_wait_returns _ _ _ He Hn Hr) as (-> & _ & Hz).
    split; [done|]. split; [done|]. apply owed_zero. by rewrite <- (rinv_finished _ HI).
Qed.

Lemma Stop_and_Wait_blocking_witness :
  run early_return_schedule initR = Some early_return_state ∧
  stopper early_return_state = SReturned ∧
  listening early_return_state = false ∧ tracker early_return_state ≠ TSelect ∧
  finished early_return_state = 3.
Proof.
  split; [apply run_early_return_schedule|]. split; [reflexivity|].
  pose proof (proj1 (Stop_and_Wait_blocking early_return_state
                       (ex_intro _ early_return_schedule run_early_return_schedule))
                eq_refl) as [H1 H2].
  split; [exact H1|]. split; [exact H2|reflexivity].
Defined.

(** C3 as stated fails: after the schedule [early_return_schedule], [Stop]
    has returned while the tracker has not returned and both copy
    goroutines of connection 0, open when [Stop] was called, are running. *)
Lemma Stop_returns_early : ¬ Stop_waits_for_completion.
Proof.
  intros H.
  destruct (H early_return_state
              (ex_intro _ early_return_schedule run_early_return_schedule) eq_refl)
    as [Ht _].
  discriminate Ht.
Qed.

End RelayProofs.

(** ** What a blocked [Stop] leaves behind *)

(** C9, on the code.  [removeContainer] does the bookkeeping of an entry
    and then calls its [Stop], and [Stop] blocks for ever when the tracker
    has taken the close-all signal of the accept loop: that state of the
    relay is reached, and no schedule lets [Stop] return from it.
    Container c1 has two listeners; the range loop visits c1:443 first and
    its [Stop] blocks: the call never returns, the entry c1:8080 stays in
    the registry and its claim on 127.2.2.1:8080 stays in the allocator. *)
Theorem removeContainer_blocked_Stop :
  Relay.rreachable Relay.blocked_stop_state ∧
  (∀ sched s', Relay.run sched Relay.blocked_stop_state = Some s' →
     Relay.stopper s' = Relay.SSendCloseAll) ∧
  reachable Scenario.fep Scenario.dip Scenario.st2 ∧
  keys (containerListeners Scenario.st2) = ["c1:443"; "c1:8080"; "c2:8080"] ∧
  removeContainer (λ _, false) (keys (containerListeners Scenario.st2)) "c1" Scenario.st2
  = Blocked Scenario.st2_blocked ∧
  containerListeners Scenario.st2_blocked !! "c1:443" = None ∧
  HasPrefix "c1:8080" ("c1" +:+ ":") = true ∧
  containerListeners Scenario.st2_blocked !! "c1:8080"
  = Some (mkListener "web-app" (mkTCPAddr (IPv4 127 2 2 1) 8080 "")
            (mkTCPAddr (IPv4 192 168 99 100) 51234 "")) ∧
  claimed (sourceAddrs Scenario.st2_blocked) "127.2.2.1" 8080.
Proof.
  split; [exists Relay.blocked_stop_schedule; apply run_blocked_stop_schedule|].
  split; [apply Stop_may_block_forever|].
  split; [apply Scenario_reachable_st2|].
  split; [apply Scenario_keys_st2|].
  split_and!; try (vm_compute; reflexivity).
  vm_compute. eauto.
Qed.

(** * Further properties of the code *)

(** ** Hostname derivation *)

Lemma replaceDisallowed_id b s : allAllowed s = true → replaceDisallowed b s = s.
Proof.
  revert b. induction s as [|c s IH]; intros b; simpl; [done|].
  intros [Hc Hs]%andb_prop. by rewrite Hc, IH.
Qed.

Lemma trimLeftHyphens_id s : startsWithHyphen s = false → trimLeftHyphens s = s.
Proof. destruct s as [|c s]; simpl; [done|]. by intros ->. Qed.

Lemma trimRightHyphens_id s : endsWithHyphen s = false → trimRightHyphens s = s.
Proof.
  induction s as [|c s IH]; simpl; [done|].
  destruct s as [|c' s'].
  - simpl. by intros ->.
  - intros Hs. rewrite (IH Hs). done.
Qed.

Lemma collapseHyphens_id s :
  hasDoubleHyphen s = false → collapseHyphens false s = s ∧
  (startsWithHyphen s = false → collapseHyphens true s = s).
Proof.
  induction s as [|c s IH]; simpl; [done|].
  intros [Hd Hs]%orb_false_elim. destruct (IH Hs) as [IH1 IH2].
  destruct (isHyphen c) eqn:Hc; simpl in Hd.
  - rewrite (IH2 Hd). split; [done|]. discriminate.
  - rewrite IH1. done.
Qed.

Lemma dnsName_wellformed s :
  allAllowed (dnsNameFromContainerName s) = true ∧
  startsWithHyphen (dnsNameFromContainerName s) = false ∧
  endsWithHyphen (dnsNameFromContainerName s) = false ∧
  hasDoubleHyphen (dnsNameFromContainerName s) = false.
Proof.
  unfold dnsNameFromContainerName, trimHyphens. split_and!.
  - apply collapseHyphens_allowed, trimRightHyphens_allowed, trimLeftHyphens_allowed,
      replaceDisallowed_allowed.
  - apply collapseHyphens_start, trimRightHyphens_start, trimLeftHyphens_start.
  - apply collapseHyphens_end, trimRightHyphens_end.
  - apply collapseHyphens_no_double.
Qed.

(** X1. Deriving a hostname from a derived hostname changes nothing. *)
Theorem dnsNameFromContainerName_idempotent (containerName : string) :
  dnsNameFromContainerName (dnsNameFromContainerName containerName)
  = dnsNameFromContainerName containerName.
Proof.
  destruct (dnsName_wellformed containerName) as (Ha & Hs & He & Hd).
  set (n := dnsNameFromContainerName containerName) in *.
  unfold dnsNameFromContainerName at 1, trimHyphens.
  rewrite (replaceDisallowed_id _ _ Ha), (trimLeftHyphens_id _ Hs),
    (trimRightHyphens_id _ He).
  by apply collapseHyphens_id.
Qed.

(** X2. Characters outside the class at the start of the name do not count:
    the name with such a character in front derives the same hostname.  So
    the leading slash of Docker's container names is dropped. *)
Theorem dnsNameFromContainerName_leading (c : ascii) (containerName : string) :
  allowedChar c = false →
  dnsNameFromContainerName (String c containerName)
  = dnsNameFromContainerName containerName.
Proof.
  intros Hc. unfold dnsNameFromContainerName, trimHyphens. simpl. rewrite Hc. simpl.
  by rewrite trimLeft_replaceDisallowed.
Qed.

Lemma dnsNameFromContainerName_leading_witness :
  dnsNameFromContainerName "/web_app" = dnsNameFromContainerName "web_app".
Proof.
  apply (dnsNameFromContainerName_leading "/"%char "web_app"). reflexivity.
Defined.

Lemma only_hyphens_empty s :
  nonHyphens s = "" → startsWithHyphen s = false → s = "".
Proof.
  destruct s as [|c s]; simpl; [done|]. intros Hn Hc. by rewrite Hc in Hn.
Qed.

(** X3. The derived hostname is empty exactly when the name has no
    character of [a-z0-9.]: only then does the construction of a listener
    fail for want of a hostname. *)
Theorem dnsNameFromContainerName_empty (containerName : string) :
  dnsNameFromContainerName containerName = ""
  ↔ nonHyphens (stripDisallowed containerName) = "".
Proof.
  assert (Hn : nonHyphens (dnsNameFromContainerName containerName)
               = nonHyphens (stripDisallowed containerName)).
  { unfold dnsNameFromContainerName, trimHyphens.
    by rewrite nonHyphens_collapse, nonHyphens_trimRight, nonHyphens_trimLeft,
      nonHyphens_replaceDisallowed. }
  split.
  - intros He. by rewrite <- Hn, He.
  - intros He. apply only_hyphens_empty; [by rewrite Hn|].
    apply dnsName_wellformed.
Qed.

(** ** Addresses as 32-bit values *)

(** X4. On the 16-byte form of a.b.c.d, [ipToInt] is the big-endian value,
    below 2^32, and two addresses with the same value are the same. *)
Theorem ipToInt_value a b c d :
  isByte a → isByte b → isByte c → isByte d →
  ipToInt (IPv4 a b c d) = Some (a * 2^24 + b * 2^16 + c * 2^8 + d) ∧
  0 ≤ a * 2^24 + b * 2^16 + c * 2^8 + d < 2^32 ∧
  ∀ a' b' c' d', isByte a' → isByte b' → isByte c' → isByte d' →
    ipToInt (IPv4 a' b' c' d') = ipToInt (IPv4 a b c d) →
    a' = a ∧ b' = b ∧ c' = c ∧ d' = d.
Proof.
  intros Ha Hb Hc Hd. split_and!.
  - by rewrite ipToInt_IPv4.
  - unfold isByte in *. lia.
  - unfold isByte in *. lia.
  - intros a' b' c' d' Ha' Hb' Hc' Hd'. rewrite !ipToInt_IPv4 by done.
    intros [= Heq]. by apply ipValue_inj.
Qed.

Lemma ipToInt_value_witness :
  ipToInt (IPv4 127 2 2 1) = Some (127 * 2^24 + 2 * 2^16 + 2 * 2^8 + 1).
Proof.
  apply (ipToInt_value 127 2 2 1); unfold isByte; lia.
Defined.

(** X5. [succIP] of the 16-byte form of an address is the 4-byte form of the
    address with the next 32-bit value, wrapping from 255.255.255.255 to
    0.0.0.0. *)
Theorem succIP_successor a b c d :
  isByte a → isByte b → isByte c → isByte d →
  ∃ a' b' c' d', isByte a' ∧ isByte b' ∧ isByte c' ∧ isByte d' ∧
    succIP (IPv4 a b c d) = Ret [a'; b'; c'; d'] ∧
    ipToInt (IPv4 a' b' c' d')
    = Some ((a * 2^24 + b * 2^16 + c * 2^8 + d + 1) mod 2^32) ∧
    (a = 255 → b = 255 → c = 255 → d = 255 → [a'; b'; c'; d'] = [0; 0; 0; 0]).
Proof.
  intros Ha Hb Hc Hd.
  destruct (succIP_IPv4 a b c d Ha Hb Hc Hd)
    as (a' & b' & c' & d' & Ha' & Hb' & Hc' & Hd' & Hs & Hv).
  exists a', b', c', d'. split_and!; try done.
  - rewrite ipToInt_IPv4 by done. f_equal. exact Hv.
  - intros -> -> -> ->. unfold ipValue in Hv. change (_ mod _) with 0 in Hv.
    unfold isByte in *. unfold ipValue in Hv. f_equal; [|f_equal; [|f_equal; [|f_equal]]]; lia.
Qed.

Lemma succIP_successor_witness :
  succIP (IPv4 127 2 2 255) = Ret [127; 2; 3; 0] ∧
  succIP (IPv4 255 255 255 255) = Ret [0; 0; 0; 0].
Proof.
  split.
  - destruct (succIP_successor 127 2 2 255) as (a & b & c & d & _ & _ & _ & _ & Hs & _);
      try (unfold isByte; lia).
    rewrite Hs. vm_compute in Hs. by injection Hs as <- <- <- <-.
  - destruct (succIP_successor 255 255 255 255)
      as (a & b & c & d & _ & _ & _ & _ & Hs & _ & Hw); try (unfold isByte; lia).
    rewrite Hs. by rewrite Hw.
Defined.

(** X6. [succIP] indexes bytes 12..15 whatever the length of the slice: on
    a 4-byte address, and so on its own result, it panics, as it does on a
    slice that is no IPv4 address. *)
Theorem succIP_panics (ip : netIP) :
  (List.length ip = 4%nat → succIP ip = Panic "index out of range") ∧
  (To4 ip = [] → succIP ip = Panic "only IPv4 supported at the moment") ∧
  (∀ a b c d ip', isByte a → isByte b → isByte c → isByte d →
     succIP (IPv4 a b c d) = Ret ip' → succIP ip' = Panic "index out of range").
Proof.
  assert (H4 : ∀ ip0 : netIP, List.length ip0 = 4%nat →
                 succIP ip0 = Panic "index out of range").
  { intros ip0 Hl. destruct ip0 as [|x0 [|x1 [|x2 [|x3 [|]]]]]; try done. }
  split_and!.
  - apply H4.
  - unfold succIP. by intros ->.
  - intros a b c d ip' Ha Hb Hc Hd Hs.
    destruct (succIP_IPv4 a b c d Ha Hb Hc Hd) as (a' & b' & c' & d' & _ & _ & _ & _ & Hs' & _).
    rewrite Hs in Hs'. injection Hs' as ->. by apply H4.
Qed.

Lemma succIP_panics_witness :
  succIP [127; 2; 2; 1] = Panic "index out of range".
Proof. apply (proj1 (succIP_panics [127; 2; 2; 1])). reflexivity. Defined.

(** ** The address table *)

Lemma loopbackKey_canonical k : loopbackKey k → canonical k.
Proof.
  intros (b & c & d & Hb & Hc & Hd & -> & _). exists 127, b, c, d.
  split_and!; try done; unfold isByte; lia.
Qed.

Lemma loopbackKey_addrNum k :
  loopbackKey k → ipValue 127 2 2 1 ≤ addrNum k ≤ ipValue 127 255 255 255.
Proof.
  intros (b & c & d & Hb & Hc & Hd & -> & Hge).
  unfold addrNum. rewrite ParseIP_String, ipToInt_IPv4; try done; try (unfold isByte; lia).
  simpl. unfold isByte, ipValue in *. lia.
Qed.

Lemma loopbackKey_IsLoopback k : loopbackKey k → IsLoopback (ParseIP k) = true.
Proof.
  intros (b & c & d & Hb & Hc & Hd & -> & _).
  rewrite ParseIP_String; try done; unfold isByte; lia.
Qed.

(** The address a call adds to the table is a loopback address. *)
Lemma sourceAddrForPort_new_loopback env port dest st src st' addr :
  range_ok env → keys_canonical (sourceAddrs st) →
  sourceAddrForPort env port dest st = Ret (src, st') →
  sourceAddrs st !! addr = None → is_Some (sourceAddrs st' !! addr) →
  ∃ b c d, isByte b ∧ isByte c ∧ isByte d ∧ addr = IP_String [127; b; c; d].
Proof.
  intros Hr Hc Hs Hnew Hnow. unfold sourceAddrForPort in Hs.
  pose proof (scanSourceAddrs_spec (sourceAddrs st) port
                (rangeSourceAddrs env (sourceAddrs st)) "" [] Hc) as Hscan.
  destruct (scanSourceAddrs _ _ _ _ _) as [[a0 ls|last]|]; cbn [obind] in Hs; [| |done].
  - destruct Hscan as (_ & Hls & _); [by left|].
    destruct (getSourceAddr port a0); cbn [obind] in Hs; [|done].
    injection Hs as _ <-. cbn [sourceAddrs emit set_sourceAddrs] in Hnow.
    destruct (decide (a0 = addr)) as [->|Hne]; [congruence|].
    rewrite lookup_insert_ne, Hnew in Hnow by done. by destruct Hnow.
  - destruct Hscan as (_ & K2 & _ & _ & _); [by left|].
    assert (Hnext : ∃ b c d, isByte b ∧ isByte c ∧ isByte d ∧
              ∀ nextIP, nextSourceIP last = Ret nextIP → IsLoopback nextIP = true →
                        IP_String nextIP = IP_String [127; b; c; d]).
    { unfold nextSourceIP. destruct (decide (last = "")) as [->|Hne].
      - exists 2, 2, 1. unfold isByte. split_and!; try lia. by intros ? [= <-] _.
      - destruct K2 as [?|[_ Hlast]]; [done|].
        destruct (canonical_ParseIP _ (Hc _ Hlast))
          as (a & b & c & d & Ha & Hb & Hcc & Hd & _ & HP & _).
        rewrite HP. change (IPv4 a b c d) with (0 :: tail (IPv4 a b c d)).
        cbv iota. change (0 :: tail (IPv4 a b c d)) with (IPv4 a b c d).
        destruct (succIP_IPv4 a b c d Ha Hb Hcc Hd)
          as (a' & b' & c' & d' & Ha' & Hb' & Hc' & Hd' & -> & _).
        exists b', c', d'. split_and!; try done. intros ? [= <-].
        change (IsLoopback [a'; b'; c'; d']) with (a' =? 127).
        by intros ->%Z.eqb_eq. }
    destruct Hnext as (b & c & d & Hb & Hcc & Hd & Hnext).
    destruct (nextSourceIP last) as [nextIP|]; cbn [obind] in Hs; [|done].
    destruct (IsLoopback nextIP) eqn:Hlo; cbn [negb] in Hs; [|done].
    rewrite (Hnext nextIP eq_refl Hlo) in Hs.
    destruct (negb (ifconfigAlias env _)); [done|].
    destruct (getSourceAddr port _); cbn [obind] in Hs; [|done].
    injection Hs as _ <-. cbn [sourceAddrs emit set_sourceAddrs] in Hnow.
    exists b, c, d. split_and!; try done.
    destruct (decide (IP_String [127; b; c; d] = addr)) as [<-|Hne]; [done|].
    rewrite lookup_insert_ne, Hnew in Hnow by done. by destruct Hnow.
Qed.

Lemma AddrInv_init : AddrInv initState.
Proof.
  split; cbn.
  - intros k [? Hk]. by rewrite lookup_empty in Hk.
  - intros k v [? Hk]. by rewrite lookup_empty in Hk.
Qed.

Lemma sourceAddrForPort_AddrInv env port dest st src st' :
  range_ok env → keys_canonical (sourceAddrs st) → AddrInv st →
  sourceAddrForPort env port dest st = Ret (src, st') → AddrInv st'.
Proof.
  intros Hr Hc [HL HG] Hs.
  destruct (sourceAddrForPort_spec _ _ _ _ _ _ Hr Hc Hs)
    as (addr & Hcan & _ & _ & _ & _ & [Hre|Hpr]).
  - destruct Hre as (ls & Hls & _ & Hsa & _).
    assert (Hsame : ∀ k, is_Some (sourceAddrs st' !! k) ↔ is_Some (sourceAddrs st !! k)).
    { intros k. rewrite Hsa. destruct (decide (addr = k)) as [<-|Hne].
      - rewrite lookup_insert_eq, Hls. split; eauto.
      - by rewrite lookup_insert_ne. }
    split.
    + intros k Hk%Hsame. by apply HL.
    + intros k v Hk%Hsame Hv. destruct (HG k v Hk Hv) as (k' & Hk' & Hv').
      exists k'. split; [by apply Hsame|done].
  - pose proof Hpr as (Hn & _ & Hsa & _ & Hwhich).
    assert (Hlk : ∀ k, is_Some (sourceAddrs st' !! k) ↔
                       k = addr ∨ is_Some (sourceAddrs st !! k)).
    { intros k. rewrite Hsa. destruct (decide (addr = k)) as [<-|Hne].
      - rewrite lookup_insert_eq. split; eauto.
      - rewrite lookup_insert_ne by done. split; [by right|]. by intros [->|?]. }
    assert (Hnum : (sourceAddrs st = ∅ ∧ addrNum addr = ipValue 127 2 2 1) ∨
              ∃ kmax, is_Some (sourceAddrs st !! kmax) ∧
                (∀ k, is_Some (sourceAddrs st !! k) → addrNum k ≤ addrNum kmax) ∧
                addrNum addr = addrNum kmax + 1).
    { destruct Hwhich as [[He ->]|?]; [left; split; [done|apply start_addrNum]|by right]. }
    assert (Hlo : loopbackKey addr).
    { destruct (sourceAddrForPort_new_loopback _ _ _ _ _ _ addr Hr Hc Hs Hn)
        as (b & c & d & Hb & Hcc & Hd & Heq); [apply Hlk; by left|].
      exists b, c, d. split_and!; try done.
      assert (addrNum addr = ipValue 127 b c d) as Hv.
      { rewrite Heq. unfold addrNum.
        rewrite ParseIP_String, ipToInt_IPv4; try done; unfold isByte; lia. }
      rewrite <- Hv. destruct Hnum as [[_ ->]|(kmax & Hk & _ & ->)]; [done|].
      pose proof (loopbackKey_addrNum _ (HL _ Hk)). lia. }
    split.
    + intros k [->|Hk]%Hlk; [done|by apply HL].
    + intros k v Hk Hv.
      assert (Hold : ∀ k0, is_Some (sourceAddrs st !! k0) →
                ipValue 127 2 2 1 ≤ v ≤ addrNum k0 →
                ∃ k', is_Some (sourceAddrs st' !! k') ∧ addrNum k' = v).
      { intros k0 Hk0 Hv0. destruct (HG k0 v Hk0 Hv0) as (k' & Hk' & Hv').
        exists k'. split; [apply Hlk; by right|done]. }
      apply Hlk in Hk as [->|Hk]; [|by eapply Hold].
      destruct Hnum as [[He Hst]|(kmax & Hkm & Hmax & Hsucc)].
      * exists addr. split; [apply Hlk; by left|lia].
      * destruct (decide (v = addrNum addr)) as [->|Hne].
        -- exists addr. split; [apply Hlk; by left|done].
        -- apply (Hold kmax Hkm). lia.
Qed.

Lemma afterEntry_AddrInv cid st cp : AddrInv st → AddrInv (afterEntry cid st cp).
Proof.
  intros [HL HG].
  assert (Hsame : ∀ k, is_Some (sourceAddrs (afterEntry cid st cp) !! k)
                       ↔ is_Some (sourceAddrs st !! k)).
  { intros k. rewrite <- !elem_of_dom. by rewrite afterEntry_dom. }
  split.
  - intros k Hk%Hsame. by apply HL.
  - intros k v Hk%Hsame Hv. destruct (HG k v Hk Hv) as (k' & Hk' & Hv').
    exists k'. split; [by apply Hsame|done].
Qed.

Lemma addPorts_AddrInv fep dip env c ports out st out' st' :
  range_ok env → Inv st → AddrInv st →
  addPorts fep dip env c ports (out, st) = Ret (out', st') → AddrInv st'.
Proof.
  intros Hr. revert out st. induction ports as [|p ports IH]; intros out st HI HA;
    cbn [addPorts].
  - by intros [= _ <-].
  - destruct (addPort fep dip env c (out, st) p) as [[out1 st1]|] eqn:Hp; cbn [obind];
      [|done].
    apply IH; [by eapply addPort_Inv|].
    destruct (addPort_inv _ _ _ _ _ _ _ _ _ Hp) as
      [l0 _ _ ->|msg _ _ _ ->|l st2 _ HL _ _ ->]; [done..|].
    apply ListenerFromContainerAndPort_Ok in HL as (_ & _ & _ & _ & _ & _ & Hs).
    destruct (sourceAddrForPort_AddrInv _ _ _ _ _ _ Hr (inv_keys _ HI) HA Hs) as [H1 H2].
    by split.
Qed.

Lemma reachable_AddrInv fep dip st : reachable fep dip st → AddrInv st.
Proof.
  induction 1 as [|st st' Hreach IH Hstep]; [apply AddrInv_init|].
  pose proof (reachable_Inv _ _ _ Hreach) as HI.
  destruct Hstep as [env cid st out st' Hr Hadd|stops order cid st _].
  - unfold addContainer in Hadd. destruct (InspectContainer env cid).
    + by eapply addPorts_AddrInv.
    + by injection Hadd as _ <-.
  - apply removeContainer_preserves; [|done]. intros s cp. apply afterEntry_AddrInv.
Qed.

(** X7. The program binds loopback addresses only: in every state the
    control loop reaches, every address of the table is 127.b.c.d, at or
    after 127.2.2.1, and every registered listener listens on a loopback
    address, on a port in 0..65535. *)
Theorem only_loopback fep dip st :
  reachable fep dip st →
  (∀ k, is_Some (sourceAddrs st !! k) →
     loopbackKey k ∧ IsLoopback (ParseIP k) = true) ∧
  (∀ key l, containerListeners st !! key = Some l →
     IsLoopback (IP (Src l)) = true ∧ 0 ≤ Port (Src l) ≤ 65535).
Proof.
  intros Hreach. pose proof (reachable_Inv _ _ _ Hreach) as HI.
  pose proof (reachable_AddrInv _ _ _ Hreach) as HA. split.
  - intros k Hk. pose proof (ainv_loopback _ HA k Hk) as Hlo.
    split; [done|by apply loopbackKey_IsLoopback].
  - intros key l Hl. destruct (inv_src _ HI _ _ Hl) as (addr & Hc & Hsrc & Hport).
    split; [|done].
    destruct (inv_claimed _ HI _ _ Hl) as (ls & Hls & _).
    unfold claimOf in Hls. cbn [fst] in Hls. rewrite Hsrc in Hls. cbn [IP] in Hls.
    rewrite (canonical_roundtrip _ Hc) in Hls.
    rewrite Hsrc. cbn [IP]. apply loopbackKey_IsLoopback, (ainv_loopback _ HA). eauto.
Qed.

Lemma only_loopback_witness :
  IsLoopback (ParseIP "127.2.2.2") = true.
Proof.
  apply (proj1 (only_loopback Scenario.fep Scenario.dip Scenario.st2
                  Scenario_reachable_st2)).
  vm_compute. eauto.
Defined.

(** X8. The table has no gap: in every reachable state, every 32-bit value
    from that of 127.2.2.1 up to that of a held address is the value of a
    held address. *)
Theorem addresses_contiguous fep dip st k v :
  reachable fep dip st → is_Some (sourceAddrs st !! k) →
  ipValue 127 2 2 1 ≤ v ≤ addrNum k →
  ∃ k', is_Some (sourceAddrs st !! k') ∧ addrNum k' = v.
Proof. intros HA%reachable_AddrInv. apply (ainv_nogap _ HA). Qed.

Lemma addresses_contiguous_witness :
  ∃ k', is_Some (sourceAddrs Scenario.st3 !! k') ∧ addrNum k' = ipValue 127 2 2 1.
Proof.
  apply (addresses_contiguous Scenario.fep Scenario.dip Scenario.st3 "127.2.2.2"
           (ipValue 127 2 2 1) Scenario_reachable_st3).
  - vm_compute. eauto.
  - vm_compute. split; discriminate.
Defined.

(** ** When the allocator returns and when it panics *)

Lemma loopbackKey_ParseIP k :
  loopbackKey k → ∃ b c d, isByte b ∧ isByte c ∧ isByte d ∧
    k = IP_String [127; b; c; d] ∧ ParseIP k = IPv4 127 b c d ∧
    addrNum k = ipValue 127 b c d.
Proof.
  intros (b & c & d & Hb & Hc & Hd & -> & _). exists b, c, d.
  assert (isByte 127) by (unfold isByte; lia).
  split_and!; try done.
  - by apply ParseIP_String.
  - unfold addrNum. by rewrite ParseIP_String, ipToInt_IPv4.
Qed.

(** X9. The allocator fails on exhaustion only: in a reachable state, for a
    port in 0..65535, when ifconfig succeeds and the highest held address is
    below 127.255.255.255, [sourceAddrForPort] returns. *)
Theorem sourceAddrForPort_returns fep dip env port dest st :
  reachable fep dip st → range_ok env → 0 ≤ port ≤ 65535 →
  (∀ addr, ifconfigAlias env addr = true) →
  (∀ k, is_Some (sourceAddrs st !! k) → addrNum k < ipValue 127 255 255 255) →
  ∃ src st', sourceAddrForPort env port dest st = Ret (src, st').
Proof.
  intros Hreach Hr Hport Hif Hroom.
  pose proof (reachable_Inv _ _ _ Hreach) as HI.
  pose proof (reachable_AddrInv _ _ _ Hreach) as HA.
  pose proof (inv_keys _ HI) as Hc. unfold sourceAddrForPort.
  pose proof (scanSourceAddrs_spec (sourceAddrs st) port
                (rangeSourceAddrs env (sourceAddrs st)) "" [] Hc) as Hscan.
  destruct (scanSourceAddrs _ _ _ _ _) as [[a0 ls|last]|]; cbn [obind].
  - destruct Hscan as (_ & Hls & _); [by left|].
    rewrite (getSourceAddr_canonical port a0); [cbn [obind]; eauto| |done].
    apply Hc. eauto.
  - destruct Hscan as (_ & K2 & _ & _ & _); [by left|].
    assert (Hnext : ∃ nextIP b c d, isByte b ∧ isByte c ∧ isByte d ∧
              nextSourceIP last = Ret nextIP ∧ IsLoopback nextIP = true ∧
              IP_String nextIP = IP_String [127; b; c; d]).
    { unfold nextSourceIP. destruct (decide (last = "")) as [->|Hne].
      - exists SourceStartIP, 2, 2, 1. unfold isByte. split_and!; try done; lia.
      - destruct K2 as [?|[_ Hlast]]; [done|].
        destruct (loopbackKey_ParseIP _ (ainv_loopback _ HA _ Hlast))
          as (b & c & d & Hb & Hcc & Hd & _ & HP & HN).
        rewrite HP. change (IPv4 127 b c d) with (0 :: tail (IPv4 127 b c d)).
        cbv iota. change (0 :: tail (IPv4 127 b c d)) with (IPv4 127 b c d).
        assert (H127 : isByte 127) by (unfold isByte; lia).
        destruct (succIP_IPv4 127 b c d H127 Hb Hcc Hd)
          as (a' & b' & c' & d' & Ha' & Hb' & Hc' & Hd' & -> & Hv).
        specialize (Hroom _ Hlast). rewrite HN in Hroom.
        assert (a' = 127) as ->.
        { rewrite Z.mod_small in Hv
            by (unfold isByte, ipValue in *; change (2^32) with 4294967296; lia).
          unfold isByte, ipValue in *. lia. }
        exists [127; b'; c'; d'], b', c', d'. by split_and!. }
    destruct Hnext as (nextIP & b & c & d & Hb & Hcc & Hd & -> & Hlo & Htxt).
    cbn [obind]. rewrite Hlo, Htxt. cbn [negb]. rewrite Hif. cbn [negb].
    rewrite getSourceAddr_canonical; [cbn [obind]; eauto| |done].
    exists 127, b, c, d. split_and!; try done; unfold isByte; lia.
  - destruct Hscan. by left.
Qed.

Lemma sourceAddrForPort_returns_witness :
  ∃ src st', sourceAddrForPort Scenario.env0 9090 (mkTCPAddr (IPv4 10 0 0 1) 9090 "")
               Scenario.st3 = Ret (src, st').
Proof.
  apply (sourceAddrForPort_returns Scenario.fep Scenario.dip Scenario.env0 9090
           (mkTCPAddr (IPv4 10 0 0 1) 9090 "") Scenario.st3
           Scenario_reachable_st3 Scenario_range_ok); [lia|reflexivity|].
  intros k Hk%elem_of_keys.
  assert (Hkeys : keys (sourceAddrs Scenario.st3) = ["127.2.2.1"; "127.2.2.2"])
    by (vm_compute; reflexivity).
  rewrite Hkeys in Hk. clear Hkeys.
  apply elem_of_cons in Hk as [->|Hk]; [vm_compute; reflexivity|].
  apply elem_of_cons in Hk as [->|Hk]; [vm_compute; reflexivity|].
  destruct (not_elem_of_nil k Hk).
Defined.


Lemma last_address_text : IP_String [127; 255; 255; 255] = "127.255.255.255".
Proof. vm_compute. reflexivity. Qed.

(** X10. Exhaustion is fatal: when every address of the table is a
    loopback address (as in every reachable state), 127.255.255.255 is held
    and every held address has [port] claimed, [sourceAddrForPort] panics;
    it provisions no address outside 127.0.0.0/8. *)
Theorem sourceAddrForPort_exhausted env port dest st :
  (∀ k, is_Some (sourceAddrs st !! k) → loopbackKey k) → range_ok env →
  is_Some (sourceAddrs st !! "127.255.255.255") →
  (∀ a ls, sourceAddrs st !! a = Some ls → is_Some (ls !! port)) →
  sourceAddrForPort env port dest st = Panic "ran out of loopback addresses!".
Proof.
  intros HA Hr Htop Hfull.
  assert (Hc : keys_canonical (sourceAddrs st)).
  { intros k Hk. by apply loopbackKey_canonical, HA. }
  unfold sourceAddrForPort.
  pose proof (scanSourceAddrs_spec (sourceAddrs st) port
                (rangeSourceAddrs env (sourceAddrs st)) "" [] Hc) as Hscan.
  assert (Hin : "127.255.255.255" ∈ rangeSourceAddrs env (sourceAddrs st)).
  { rewrite (Hr _). by apply elem_of_keys. }
  destruct (scanSourceAddrs _ _ _ _ _) as [[a0 ls|last]|]; cbn [obind].
  - destruct Hscan as (_ & Hls & Hfree); [by left|].
    destruct (Hfull _ _ Hls) as [? ?]. congruence.
  - destruct Hscan as (_ & K2 & K3 & _ & K5); [by left|].
    assert (last = "127.255.255.255") as ->.
    { destruct K2 as [->|[_ Hlast]].
      - destruct Htop as [? Htop]. rewrite (K5 eq_refl _ Hin) in Htop. done.
      - apply canonical_addrNum_inj.
        + by apply Hc.
        + by apply Hc.
        + pose proof (K3 _ Hin Htop) as Hle.
          pose proof (loopbackKey_addrNum _ (HA _ Hlast)) as Hhi.
          assert (addrNum "127.255.255.255" = ipValue 127 255 255 255) as Htopv
            by (vm_compute; reflexivity).
          lia. }
    reflexivity.
  - destruct Hscan. by left.
Qed.


Lemma sourceAddrForPort_exhausted_witness :
  sourceAddrForPort Scenario.env0 80 (mkTCPAddr (IPv4 10 0 0 1) 80 "")
    {| sourceAddrs := {[ "127.255.255.255" := {[ 80 := mkTCPAddr (IPv4 10 0 0 2) 80 "" ]} ]};
       dnsZone := ∅; containerListeners := ∅; trace := [] |}
  = Panic "ran out of loopback addresses!".
Proof.
  apply sourceAddrForPort_exhausted.
  - intros k [ls Hk]. cbn [sourceAddrs] in Hk.
    apply lookup_singleton_Some in Hk as [<- _].
    exists 255, 255, 255. unfold isByte.
    split_and!; try lia; [vm_compute; reflexivity|vm_compute; discriminate].
  - apply Scenario_range_ok.
  - cbn [sourceAddrs]. rewrite lookup_singleton_eq. eauto.
  - intros a ls Hk. cbn [sourceAddrs] in Hk.
    apply lookup_singleton_Some in Hk as [_ <-]. rewrite lookup_singleton_eq. eauto.
Defined.

(** ** Provisioning happens once per address *)

(** X11. An address is provisioned once: in every reachable state the
    addresses the program has run [ifconfig lo0 alias] for are pairwise
    distinct, and they are exactly the addresses of the table. *)
Theorem provisioned_once fep dip st :
  reachable fep dip st →
  NoDup (aliased (trace st)) ∧
  ∀ k, k ∈ aliased (trace st) ↔ is_Some (sourceAddrs st !! k).
Proof. intros [? ?]%reachable_AliasInv. done. Qed.

Lemma provisioned_once_witness :
  aliased (trace Scenario.st3) = ["127.2.2.1"; "127.2.2.2"] ∧
  NoDup (aliased (trace Scenario.st3)).
Proof.
  split; [vm_compute; reflexivity|].
  apply (provisioned_once Scenario.fep Scenario.dip Scenario.st3 Scenario_reachable_st3).
Defined.

(** ** The zone is never stale *)

Lemma addPorts_zone_fresh fep dip env c ports out st out' st' :
  zone_fresh st →
  addPorts fep dip env c ports (out, st) = Ret (out', st') → zone_fresh st'.
Proof.
  revert out st. induction ports as [|p ports IH]; intros out st HZ; cbn [addPorts].
  - by intros [= _ <-].
  - destruct (addPort fep dip env c (out, st) p) as [[out1 st1]|] eqn:Hp; cbn [obind];
      [|done].
    apply IH.
    destruct (addPort_inv _ _ _ _ _ _ _ _ _ Hp) as
      [l0 _ _ ->|msg _ _ _ ->|l st2 Hk HL _ _ ->]; [done..|].
    apply ListenerFromContainerAndPort_Ok in HL as (_ & _ & _ & _ & _ & _ & Hs).
    apply sourceAddrForPort_frame in Hs as [Hz Hcl].
    intros n ip. cbn [dnsZone containerListeners]. rewrite Hz, Hcl.
    destruct (decide (DNSName l = n)) as [<-|Hne].
    + rewrite lookup_insert_eq. intros [= <-].
      exists (containerPortKey c p), l. by rewrite lookup_insert_eq.
    + rewrite lookup_insert_ne by done. intros (key & l0 & Hl0 & Hn0 & Hip)%HZ.
      exists key, l0. split; [|done]. rewrite lookup_insert_ne; [done|].
      intros <-. congruence.
Qed.

Lemma afterEntry_zone_fresh cid st cp : zone_fresh st → zone_fresh (afterEntry cid st cp).
Proof.
  intros HZ. destruct (afterEntry_inv cid st cp) as [_ ->|l Hl _ ->]; [done|].
  intros n ip. cbn [dnsZone containerListeners].
  intros [Hne (key & l0 & Hl0 & Hn0 & Hip)%HZ]%lookup_delete_Some.
  exists key, l0. split; [|done]. rewrite lookup_delete_ne; [done|].
  intros <-. congruence.
Qed.

Lemma reachable_zone_fresh fep dip st : reachable fep dip st → zone_fresh st.
Proof.
  induction 1 as [|st st' Hreach IH Hstep].
  { intros n ip Hn. cbn in Hn. by rewrite lookup_empty in Hn. }
  destruct Hstep as [env cid st out st' Hr Hadd|stops order cid st _].
  - unfold addContainer in Hadd. destruct (InspectContainer env cid).
    + by eapply addPorts_zone_fresh.
    + by injection Hadd as _ <-.
  - apply removeContainer_preserves; [|done]. intros s cp. apply afterEntry_zone_fresh.
Qed.

(** X12. The zone never points at a released address: in every reachable
    state, every entry of [dnsZone] maps a hostname to the source IP of a
    listener that is registered under that hostname. *)
Theorem dnsZone_never_stale fep dip st n ip :
  reachable fep dip st → dnsZone st !! n = Some ip →
  ∃ key l, containerListeners st !! key = Some l ∧ DNSName l = n ∧ IP (Src l) = ip.
Proof. intros Hreach. by apply (reachable_zone_fresh _ _ _ Hreach). Qed.

Lemma dnsZone_never_stale_witness :
  ∃ key l, containerListeners Scenario.st2 !! key = Some l ∧
    DNSName l = "web-app" ∧ IP (Src l) = IPv4 127 2 2 2.
Proof.
  apply (dnsZone_never_stale Scenario.fep Scenario.dip Scenario.st2 "web-app"
           (IPv4 127 2 2 2) Scenario_reachable_st2).
  vm_compute. reflexivity.
Defined.

(** ** What [addContainer] returns *)

Lemma addPorts_log fep dip env c ports out st out' st' :
  addPorts fep dip env c ports (out, st) = Ret (out', st') →
  ∃ more evs, out' = out ++ more ∧ trace st' = trace st ++ evs ∧
    (List.length more ≤ List.length ports)%nat ∧
    ∀ l, l ∈ more → EvStart l ∈ evs.
Proof.
  revert out st. induction ports as [|p ports IH]; intros out st; cbn [addPorts].
  - intros [= <- <-]. exists [], []. rewrite !app_nil_r. split_and!; try done.
    intros l Hl. destruct (not_elem_of_nil l Hl).
  - destruct (addPort fep dip env c (out, st) p) as [[out1 st1]|] eqn:Hp; cbn [obind];
      [|done].
    intros Hrest. destruct (IH _ _ Hrest) as (more & evs & -> & Htr & Hlen & Hst).
    destruct (addPort_inv _ _ _ _ _ _ _ _ _ Hp) as
      [l0 _ -> ->|msg _ _ -> ->|l st2 _ HL _ -> Hst1].
    + exists more, evs. split_and!; try done. simpl. lia.
    + exists more, evs. split_and!; try done. simpl. lia.
    + assert (∃ e0, trace st2 = trace st ++ e0) as [e0 He0].
      { apply ListenerFromContainerAndPort_Ok in HL as (_ & _ & _ & _ & _ & _ & Hs).
        unfold sourceAddrForPort in Hs.
        destruct (scanSourceAddrs _ _ _ _ _) as [[a0 ls|last]|]; cbn [obind] in Hs;
          [| |done].
        - destruct (getSourceAddr _ a0); cbn [obind] in Hs; [|done].
          injection Hs as _ <-. by eexists.
        - destruct (nextSourceIP last) as [nextIP|]; cbn [obind] in Hs; [|done].
          destruct (negb (IsLoopback nextIP)); [done|].
          destruct (negb (ifconfigAlias env (IP_String nextIP))); [done|].
          destruct (getSourceAddr _ _); cbn [obind] in Hs; [|done].
          injection Hs as _ <-. cbn. rewrite <- app_assoc. by eexists. }
      exists (l :: more),
        (e0 ++ [EvStart l; EvRegister (containerPortKey c p);
                EvPublish (DNSName l) (IP (Src l))] ++ evs).
      split_and!.
      * by rewrite <- app_assoc.
      * rewrite Htr, Hst1. cbn [trace]. rewrite He0. by rewrite <- !app_assoc.
      * simpl. lia.
      * intros l1 [->|Hin]%elem_of_cons.
        -- apply elem_of_app. right. left.
        -- apply elem_of_app. right. do 3 right. by apply Hst.
Qed.

(** X13. [addContainer] never removes or replaces a registered listener;
    the listeners it returns are at most one per port mapping, each
    registered under a key of the container, carrying the container's
    hostname, and started in the course of the call. *)
Theorem addContainer_returns fep dip env cid c st out st' :
  InspectContainer env cid = Some c →
  addContainer fep dip env cid st = Ret (out, st') →
  (∀ k l, containerListeners st !! k = Some l → containerListeners st' !! k = Some l) ∧
  (List.length out ≤ List.length (PortMappingAPI c))%nat ∧
  ∃ evs, trace st' = trace st ++ evs ∧
    ∀ l, l ∈ out →
      DNSName l = dnsNameFromContainerName (Name c) ∧
      (∃ port, containerListeners st' !! containerPortKey c port = Some l) ∧
      EvStart l ∈ evs.
Proof.
  intros Hc Hadd. unfold addContainer in Hadd. rewrite Hc in Hadd.
  destruct (addPorts_started _ _ _ _ _ _ _ _ _ Hadd) as (more & Hout & K1 & K2 & _ & _).
  destruct (addPorts_log _ _ _ _ _ _ _ _ _ Hadd) as (more' & evs & Hout' & Htr & Hlen & Hst).
  cbn [app] in Hout, Hout'. subst more more'.
  split_and!; try done. exists evs. split; [done|].
  intros l Hl. destruct (K2 _ Hl) as [Hn Hreg]. split_and!; try done. by apply Hst.
Qed.

Lemma addContainer_returns_witness :
  (List.length (Scenario.started
      (addContainer Scenario.fep Scenario.dip Scenario.env0 "c1" initState)) ≤ 2)%nat.
Proof.
  refine (proj1 (proj2 (addContainer_returns Scenario.fep Scenario.dip Scenario.env0 "c1"
                          Scenario.web initState _ Scenario.st1 _ _))).
  - reflexivity.
  - vm_compute. reflexivity.
Defined.

(** X14. [addContainer] fails open: a port mapping for which no listener
    can be constructed is skipped, and the other mappings are handled as if
    it were not there. *)
Theorem addPorts_skips_errors fep dip env c before port later acc :
  construction_error env c port →
  addPorts fep dip env c (before ++ port :: later) acc
  = addPorts fep dip env c (before ++ later) acc.
Proof.
  intros Herr. revert acc. induction before as [|p before IH]; intros acc; cbn [app addPorts].
  - destruct acc as [out st].
    rewrite (addPort_settled fep dip env c out st port) by (by right). done.
  - destruct (addPort fep dip env c acc p) as [acc1|]; cbn [obind]; [apply IH|done].
Qed.

Lemma addPorts_skips_errors_witness :
  addPorts Scenario.fep Scenario.dip Scenario.env0 Scenario.web
    ([mkAPIPort 8080 51234 "tcp" "0.0.0.0"] ++ mkAPIPort 53 0 "udp" "0.0.0.0"
       :: [mkAPIPort 443 32768 "tcp" "0.0.0.0"]) ([], initState)
  = addPorts Scenario.fep Scenario.dip Scenario.env0 Scenario.web
      ([mkAPIPort 8080 51234 "tcp" "0.0.0.0"] ++ [mkAPIPort 443 32768 "tcp" "0.0.0.0"])
      ([], initState).
Proof.
  apply addPorts_skips_errors. right. left. reflexivity.
Defined.

(** ** Removal that returns and removal that blocks *)

(** X26. When [removeContainer] returns, it has left no registry entry
    whose key belongs to the container (in particular none of a container
    with that ID) and has kept the others; for every entry it removed, the
    hostname is gone from the zone and the listener's claim from the
    allocator, its [Stop] has returned, and the log has the three deletions
    of that entry right before its [Stop]. *)
Theorem removeContainer_returned_cleanup stops order cid st st' :
  order ≡ₚ keys (containerListeners st) →
  removeContainer stops order cid st = Returned st' →
  (∀ cp, HasPrefix cp (cid +:+ ":") = true → containerListeners st' !! cp = None) ∧
  (∀ c port, ID c = cid → containerListeners st' !! containerPortKey c port = None) ∧
  (∀ cp, HasPrefix cp (cid +:+ ":") = false →
     containerListeners st' !! cp = containerListeners st !! cp) ∧
  (∀ cp l, containerListeners st !! cp = Some l → HasPrefix cp (cid +:+ ":") = true →
     dnsZone st' !! DNSName l = None ∧
     ¬ claimed (sourceAddrs st') (claimOf l).1 (claimOf l).2 ∧
     stops l = true ∧
     ∃ before later,
       trace st'
       = trace st ++ before ++
         [EvUnregister cp; EvUnpublish (DNSName l);
          EvRelease (claimOf l).1 (claimOf l).2; EvStop l] ++ later).
Proof. apply removeContainer_effects. Qed.

Lemma removeContainer_returned_cleanup_witness :
  containerListeners Scenario.st3 !! "c1:8080" = None ∧
  containerListeners Scenario.st3 !! "c1:443" = None ∧
  containerListeners Scenario.st3 !! "c2:8080" = containerListeners Scenario.st2 !! "c2:8080".
Proof.
  pose proof (removeContainer_returned_cleanup (λ _, true)
                (keys (containerListeners Scenario.st2)) "c1"
                Scenario.st2 Scenario.st3 (reflexivity _) Scenario_removeContainer_st2)
    as (H1 & _ & H3 & _).
  split_and!.
  - apply H1. vm_compute. reflexivity.
  - apply H1. vm_compute. reflexivity.
  - apply H3. vm_compute. reflexivity.
Defined.

(** X27. When a [Stop] blocks, [removeContainer] is blocked at an entry of
    the container: the bookkeeping of that entry is done (its registry
    entry, its hostname and its claim are gone, and the log ends with the
    three deletions and the call of [Stop]), and the entries the range loop
    had not reached are as they were, those of the container included. *)
Theorem removeContainer_blocked stops order cid st st' :
  order ≡ₚ keys (containerListeners st) →
  removeContainer stops order cid st = Blocked st' →
  ∃ visited cp rest l,
    order = visited ++ cp :: rest ∧
    containerListeners st !! cp = Some l ∧ HasPrefix cp (cid +:+ ":") = true ∧
    stops l = false ∧
    containerListeners st' !! cp = None ∧
    dnsZone st' !! DNSName l = None ∧
    ¬ claimed (sourceAddrs st') (claimOf l).1 (claimOf l).2 ∧
    (∃ before, trace st'
               = trace st ++ before ++
                 [EvUnregister cp; EvUnpublish (DNSName l);
                  EvRelease (claimOf l).1 (claimOf l).2; EvStop l]) ∧
    (∀ k, k ∈ rest → containerListeners st' !! k = containerListeners st !! k).
Proof.
  intros Hperm Hrun. pose proof (keys_NoDup _ _ Hperm) as Hnd.
  apply removeContainer_Blocked in Hrun
    as (visited & cp & rest & l & -> & -> & Hl & Hp & Hs).
  assert (Hncp : cp ∉ visited).
  { apply NoDup_app in Hnd as (_ & Hd & _). intros Hi. apply (Hd _ Hi). left. }
  assert (Hl0 : containerListeners st !! cp = Some l).
  { rewrite afterEntries_listeners, (bool_decide_eq_false_2 _ Hncp) in Hl. done. }
  assert (Hnd1 : NoDup (visited ++ [cp])).
  { change (visited ++ cp :: rest) with (visited ++ [cp] ++ rest) in Hnd.
    rewrite app_assoc in Hnd. by apply NoDup_app in Hnd as (? & _). }
  assert (Hin : cp ∈ visited ++ [cp]) by (apply elem_of_app; right; left).
  destruct (afterEntries_entry (visited ++ [cp]) cid st cp l Hnd1 Hin Hl0 Hp)
    as (Hz & Hc & _).
  exists visited, cp, rest, l. split_and!; try done.
  - rewrite afterEntries_listeners, Hp, (bool_decide_eq_true_2 _ Hin). done.
  - rewrite afterEntries_app.
    destruct (afterEntries_preserved visited cid st) as (_ & _ & _ & before & Ht).
    exists before. cbn [afterEntries foldl].
    destruct (afterEntry_inv cid (afterEntries visited cid st) cp)
      as [[Hn|Hq] _|l' Hl' _ Hst]; [congruence..|].
    rewrite Hl in Hl'. injection Hl' as <-.
    rewrite Hst. cbn [trace]. rewrite Ht. unfold removalEvents, claimOf. cbn [fst snd].
    by rewrite <- app_assoc.
  - intros k Hk. rewrite afterEntries_listeners.
    rewrite bool_decide_eq_false_2; [done|].
    apply NoDup_app in Hnd as (_ & Hd & [Hn _]%NoDup_cons).
    intros [Hk'|Hk'%list_elem_of_singleton]%elem_of_app.
    + apply (Hd _ Hk'). by right.
    + by subst k.
Qed.

Lemma removeContainer_blocked_witness :
  ∃ visited cp rest l,
    keys (containerListeners Scenario.st2) = visited ++ cp :: rest ∧
    containerListeners Scenario.st2 !! cp = Some l ∧
    HasPrefix cp ("c1" +:+ ":") = true ∧
    containerListeners Scenario.st2_blocked !! cp = None ∧
    ∀ k, k ∈ rest →
      containerListeners Scenario.st2_blocked !! k = containerListeners Scenario.st2 !! k.
Proof.
  assert (Hrun : removeContainer (λ _, false) (keys (containerListeners Scenario.st2))
                   "c1" Scenario.st2 = Blocked Scenario.st2_blocked)
    by (vm_compute; reflexivity).
  destruct (removeContainer_blocked (λ _, false) (keys (containerListeners Scenario.st2))
              "c1" Scenario.st2 Scenario.st2_blocked (reflexivity _) Hrun)
    as (visited & cp & rest & l & H1 & H2 & H3 & _ & H5 & _ & _ & _ & H9).
  exists visited, cp, rest, l. split_and!; done.
Defined.

(** ** Removal: nothing to do, twice, in any order *)

Lemma afterEntries_noop order cid st :
  (∀ cp, is_Some (containerListeners st !! cp) → HasPrefix cp (cid +:+ ":") = false) →
  afterEntries order cid st = st.
Proof.
  intros Hno. induction order as [|cp order IH]; [done|].
  rewrite afterEntries_cons.
  destruct (afterEntry_inv cid st cp) as [_ ->|l Hl Hp _]; [done|].
  rewrite (Hno cp) in Hp by eauto. done.
Qed.

Lemma removeContainer_noop stops order cid st :
  (∀ cp, is_Some (containerListeners st !! cp) → HasPrefix cp (cid +:+ ":") = false) →
  removeContainer stops order cid st = Returned st.
Proof.
  intros Hno. rewrite removeContainer_returns.
  - by rewrite afterEntries_noop.
  - intros cp l _ Hl Hp. rewrite (Hno cp) in Hp by eauto. done.
Qed.

(** X15. [removeContainer] for an identifier no registered key belongs to
    (an unknown container, or one whose listeners are gone) returns and
    changes nothing: no map, no log entry, no [Stop], so that it cannot
    block. *)
Theorem removeContainer_unknown stops order cid st :
  (∀ cp, is_Some (containerListeners st !! cp) → HasPrefix cp (cid +:+ ":") = false) →
  removeContainer stops order cid st = Returned st.
Proof. apply removeContainer_noop. Qed.

Lemma removeContainer_unknown_witness :
  removeContainer (λ _, false) (keys (containerListeners Scenario.st2)) "c7" Scenario.st2
  = Returned Scenario.st2.
Proof.
  apply removeContainer_unknown. intros cp Hcp%elem_of_keys.
  rewrite Scenario_keys_st2 in Hcp.
  repeat (apply elem_of_cons in Hcp as [->|Hcp]; [reflexivity|]).
  destruct (not_elem_of_nil cp Hcp).
Defined.

(** X16. Docker reports both [die] and [stop] for a container that stops:
    when the first [removeContainer] has returned, the second finds
    nothing, returns and changes nothing. *)
Theorem removeContainer_twice stops1 stops2 order1 order2 cid st st1 :
  order1 ≡ₚ keys (containerListeners st) →
  removeContainer stops1 order1 cid st = Returned st1 →
  removeContainer stops2 order2 cid st1 = Returned st1.
Proof.
  intros Hperm Hret. apply removeContainer_noop. intros cp [l Hl].
  destruct (HasPrefix cp (cid +:+ ":")) eqn:Hp; [|done].
  destruct (removeContainer_effects _ _ _ _ _ Hperm Hret) as (Hgone & _).
  rewrite (Hgone cp Hp) in Hl. done.
Qed.

Lemma removeContainer_twice_witness :
  removeContainer (λ _, false) (keys (containerListeners Scenario.st3)) "c1" Scenario.st3
  = Returned Scenario.st3.
Proof.
  apply (removeContainer_twice (λ _, true) (λ _, false)
           (keys (containerListeners Scenario.st2))
           (keys (containerListeners Scenario.st3)) "c1" Scenario.st2 Scenario.st3).
  - reflexivity.
  - apply Scenario_removeContainer_st2.
Defined.

Lemma same_maps_refl st : same_maps st st.
Proof. by split_and!. Qed.

Lemma same_maps_trans s1 s2 s3 : same_maps s1 s2 → same_maps s2 s3 → same_maps s1 s3.
Proof. intros (?&?&?) (?&?&?). split_and!; congruence. Qed.

Lemma afterEntry_same_maps cid s1 s2 cp :
  same_maps s1 s2 → same_maps (afterEntry cid s1 cp) (afterEntry cid s2 cp).
Proof.
  intros (Hsa & Hz & Hcl). unfold afterEntry, removeEntry. rewrite Hcl.
  destruct (containerListeners s2 !! cp) as [l|]; [|by split_and!].
  destruct (HasPrefix cp (cid +:+ ":")); [|by split_and!].
  split_and!; cbn; congruence.
Qed.

Lemma afterEntries_same_maps order cid s1 s2 :
  same_maps s1 s2 → same_maps (afterEntries order cid s1) (afterEntries order cid s2).
Proof.
  revert s1 s2. induction order as [|cp order IH]; intros s1 s2 H; [done|].
  rewrite !afterEntries_cons. by apply IH, afterEntry_same_maps.
Qed.

Lemma release_commute (sa : gmap string (gmap Z TCPAddr)) a1 p1 a2 p2 :
  alter (delete p1) a1 (alter (delete p2) a2 sa)
  = alter (delete p2) a2 (alter (delete p1) a1 sa).
Proof.
  destruct (decide (a1 = a2)) as [->|Hne]; [|by apply alter_alter_ne].
  rewrite !alter_alter_eq. apply map_eq. intros i.
  destruct (decide (a2 = i)) as [->|Hn].
  - rewrite !lookup_alter_eq. destruct (sa !! i); simpl; [|done].
    f_equal. apply delete_delete.
  - by rewrite !lookup_alter_ne.
Qed.

Lemma afterEntry_commute cid st a b :
  same_maps (afterEntry cid (afterEntry cid st a) b)
            (afterEntry cid (afterEntry cid st b) a).
Proof.
  destruct (decide (a = b)) as [->|Hne]; [apply same_maps_refl|].
  unfold afterEntry at 2 4. unfold removeEntry.
  destruct (containerListeners st !! a) as [la|] eqn:Ha,
           (containerListeners st !! b) as [lb|] eqn:Hb;
    destruct (HasPrefix a (cid +:+ ":")) eqn:Pa, (HasPrefix b (cid +:+ ":")) eqn:Pb;
    unfold afterEntry, removeEntry; cbn; rewrite ?lookup_delete_ne by done;
    rewrite ?Ha, ?Hb, ?Pa, ?Pb; cbn; try apply same_maps_refl.
  split_and!; cbn.
  - apply release_commute.
  - apply delete_delete.
  - apply delete_delete.
Qed.

Lemma afterEntries_order_irrelevant order1 order2 cid st :
  order1 ≡ₚ order2 →
  same_maps (afterEntries order1 cid st) (afterEntries order2 cid st).
Proof.
  intros Hperm. revert st.
  induction Hperm as [|x l l' _ IH|x y l|l l' l'' _ IH1 _ IH2]; intros st.
  - apply same_maps_refl.
  - rewrite !afterEntries_cons. apply IH.
  - rewrite !afterEntries_cons. apply afterEntries_same_maps, afterEntry_commute.
  - eapply same_maps_trans; [apply IH1|apply IH2].
Qed.

(** X17. The order in which the range loop of [removeContainer] visits
    the registry does not matter for a call that returns: with the same
    scheduling of the [Stop]s it returns for every other order as well, and
    leaves the same three maps (only the order of the log differs). *)
Theorem removeContainer_order_irrelevant stops order1 order2 cid st s1 :
  order1 ≡ₚ order2 →
  removeContainer stops order1 cid st = Returned s1 →
  ∃ s2, removeContainer stops order2 cid st = Returned s2 ∧ same_maps s1 s2.
Proof.
  intros Hperm Hret. exists (afterEntries order2 cid st). split.
  - apply removeContainer_returns. intros cp l Hcp Hl Hp.
    eapply removeContainer_Returned_stops; [exact Hret| |done..]. by rewrite Hperm.
  - apply removeContainer_Returned in Hret as ->.
    by apply afterEntries_order_irrelevant.
Qed.

Lemma removeContainer_order_irrelevant_witness :
  ∃ s2, removeContainer (λ _, true) (reverse (keys (containerListeners Scenario.st2)))
          "c1" Scenario.st2 = Returned s2 ∧
        same_maps Scenario.st3 s2.
Proof.
  apply (removeContainer_order_irrelevant (λ _, true)
           (keys (containerListeners Scenario.st2))
           (reverse (keys (containerListeners Scenario.st2))) "c1" Scenario.st2
           Scenario.st3).
  - symmetry. apply reverse_Permutation.
  - apply Scenario_removeContainer_st2.
Defined.

(** ** Registry keys *)

Lemma append_colon_inj s1 s2 t1 t2 :
  noColon s1 = true → noColon s2 = true →
  s1 +:+ String ":"%char t1 = s2 +:+ String ":"%char t2 → s1 = s2 ∧ t1 = t2.
Proof.
  revert s2. induction s1 as [|a s1 IH]; intros [|b s2]; simpl.
  - by intros _ _ [= ->].
  - intros _ [Hb _]%andb_prop [= <- _]. by rewrite Ascii.eqb_refl in Hb.
  - intros [Ha _]%andb_prop _ [= -> _]. by rewrite Ascii.eqb_refl in Ha.
  - intros [_ H1]%andb_prop [_ H2]%andb_prop [= -> Heq].
    destruct (IH _ H1 H2 Heq) as [-> ->]. done.
Qed.

Local Opaque ascii_dec.

Lemma prefix_colon_eq s1 s2 t :
  noColon s1 = true → noColon s2 = true →
  String.prefix (s1 +:+ ":") (s2 +:+ String ":"%char t) = true → s1 = s2.
Proof.
  revert s2. induction s1 as [|a s1 IH]; intros [|b s2]; simpl; try done.
  - intros _ [Hb _]%andb_prop. destruct (ascii_dec ":" b) as [<-|]; [|by intros ?].
    by rewrite Ascii.eqb_refl in Hb.
  - intros [Ha _]%andb_prop _. destruct (ascii_dec a ":") as [->|]; [|by intros ?].
    by rewrite Ascii.eqb_refl in Ha.
  - intros [_ H1]%andb_prop [_ H2]%andb_prop.
    destruct (ascii_dec a b) as [->|]; [|by intros ?]. intros Hp.
    by rewrite (IH _ H1 H2 Hp).
Qed.

Local Transparent ascii_dec.

(** X18. For container identifiers without a colon (Docker's are
    hexadecimal), the key of a registry entry determines the container and
    the private port, and nothing else of the port mapping; and a key has
    the prefix [cid:] that [afterEntries] looks for exactly when it is a
    key of the container [cid]. *)
Theorem containerPortKey_exact c1 p1 c2 p2 :
  noColon (ID c1) = true → noColon (ID c2) = true →
  (containerPortKey c1 p1 = containerPortKey c2 p2
   ↔ ID c1 = ID c2 ∧ PrivatePort p1 = PrivatePort p2) ∧
  (HasPrefix (containerPortKey c1 p1) (ID c2 +:+ ":") = true ↔ ID c1 = ID c2).
Proof.
  intros H1 H2. split; split.
  - unfold containerPortKey. intros [Hid Hp]%append_colon_inj; [|done..].
    split; [done|]. by apply (inj pretty).
  - unfold containerPortKey. by intros [-> ->].
  - unfold HasPrefix, containerPortKey. intros Hp. symmetry.
    by eapply prefix_colon_eq.
  - intros Heq. rewrite <- Heq. apply containerPortKey_prefix.
Qed.

Lemma containerPortKey_exact_witness :
  containerPortKey Scenario.web (mkAPIPort 53 5353 "tcp" "0.0.0.0")
  = containerPortKey Scenario.web (mkAPIPort 53 5354 "udp" "10.0.0.1") ∧
  HasPrefix (containerPortKey Scenario.web (mkAPIPort 53 5353 "tcp" "0.0.0.0"))
    (ID Scenario.web2 +:+ ":") ≠ true.
Proof.
  destruct (containerPortKey_exact Scenario.web (mkAPIPort 53 5353 "tcp" "0.0.0.0")
              Scenario.web (mkAPIPort 53 5354 "udp" "10.0.0.1") eq_refl eq_refl)
    as [[_ K] _].
  split; [by apply K|].
  destruct (containerPortKey_exact Scenario.web (mkAPIPort 53 5353 "tcp" "0.0.0.0")
              Scenario.web2 (mkAPIPort 53 5354 "udp" "10.0.0.1") eq_refl eq_refl)
    as [_ [K2 _]].
  intros Hp. specialize (K2 Hp). discriminate K2.
Defined.

(** ** Adding and removing a container is a round trip *)

Lemma alloc_claimed_inv st st' addr port dest a p :
  reused st st' addr port dest ∨ provisioned st st' addr port dest →
  claimed (sourceAddrs st') a p → claimed (sourceAddrs st) a p ∨ (a, p) = (addr, port).
Proof.
  intros Hcase (ls' & Hls' & Hp).
  destruct (decide ((a, p) = (addr, port))) as [?|Hne]; [by right|left].
  destruct Hcase as [(ls & Hls & _ & Hsa & _)|(Hn & _ & Hsa & _)]; rewrite Hsa in Hls'.
  - destruct (decide (addr = a)) as [->|Hna].
    + rewrite lookup_insert_eq in Hls'. injection Hls' as <-.
      rewrite lookup_insert_ne in Hp by congruence. by exists ls.
    + rewrite lookup_insert_ne in Hls' by done. by exists ls'.
  - destruct (decide (addr = a)) as [->|Hna].
    + rewrite lookup_insert_eq in Hls'. injection Hls' as <-.
      rewrite lookup_singleton_ne in Hp by congruence. by destruct Hp.
    + rewrite lookup_insert_ne in Hls' by done. by exists ls'.
Qed.

Lemma addPorts_delta fep dip env c ports out st out' st' :
  range_ok env → Inv st →
  addPorts fep dip env c ports (out, st) = Ret (out', st') →
  ∃ more, out' = out ++ more ∧
    (∀ k l, containerListeners st' !! k = Some l →
       containerListeners st !! k = Some l ∨
       (HasPrefix k (ID c +:+ ":") = true ∧ l ∈ more)) ∧
    (∀ a p, claimed (sourceAddrs st) a p → claimed (sourceAddrs st') a p) ∧
    (∀ a p, claimed (sourceAddrs st') a p →
       claimed (sourceAddrs st) a p ∨ ∃ l, l ∈ more ∧ claimOf l = (a, p)) ∧
    (∀ l, l ∈ more → ¬ claimed (sourceAddrs st) (claimOf l).1 (claimOf l).2).
Proof.
  intros Hr. revert out st. induction ports as [|p ports IH]; intros out st HI;
    cbn [addPorts].
  - intros [= <- <-]. exists []. rewrite app_nil_r. split_and!; try done; auto.
    intros l Hl. destruct (not_elem_of_nil l Hl).
  - destruct (addPort fep dip env c (out, st) p) as [[out1 st1]|] eqn:Hp; cbn [obind];
      [|done].
    intros Hrest. pose proof (addPort_Inv _ _ _ _ _ _ _ _ _ Hr HI Hp) as HI1.
    destruct (IH _ _ HI1 Hrest) as (more & -> & D1 & D2 & D3 & D4).
    destruct (addPort_inv _ _ _ _ _ _ _ _ _ Hp) as
      [l0 _ -> ->|msg _ _ -> ->|l st2 Hk HL _ -> Hst1].
    + exists more. by split_and!.
    + exists more. by split_and!.
    + apply ListenerFromContainerAndPort_Ok in HL as (_ & _ & _ & _ & _ & _ & Hs).
      destruct (sourceAddrForPort_spec _ _ _ _ _ _ Hr (inv_keys _ HI) Hs)
        as (addr & Hc & Hsrc & Hport & _ & Hcl & Hcase).
      assert (Hclaim : claimOf l = (addr, Port (Src l))).
      { unfold claimOf. rewrite Hsrc. cbn [IP Port]. by rewrite canonical_roundtrip. }
      assert (HP : Port (Src l)
                   = chooseSourcePort fep (PublicPort p) (PrivatePort p))
        by (by rewrite Hsrc).
      rewrite <- HP in Hcase.
      assert (Hsa1 : sourceAddrs st1 = sourceAddrs st2) by (by rewrite Hst1).
      assert (Hcl1 : containerListeners st1
                     = <[containerPortKey c p := l]> (containerListeners st))
        by (by rewrite Hst1, <- Hcl).
      exists (l :: more). split_and!.
      * by rewrite <- app_assoc.
      * intros k l1 [Hl1|[Hpre Hin]]%D1.
        -- rewrite Hcl1 in Hl1. destruct (decide (containerPortKey c p = k)) as [<-|Hne].
           ++ rewrite lookup_insert_eq in Hl1. injection Hl1 as <-. right.
              split; [apply containerPortKey_prefix|left].
           ++ rewrite lookup_insert_ne in Hl1 by done. by left.
        -- right. split; [done|by right].
      * intros a q Hq. apply D2. rewrite Hsa1. by eapply alloc_claimed.
      * intros a q [Hq|(l1 & Hin & Heq)]%D3.
        -- rewrite Hsa1 in Hq. destruct (alloc_claimed_inv _ _ _ _ _ _ _ Hcase Hq) as [?|Heq];
             [by left|]. right. exists l. split; [left|congruence].
        -- right. exists l1. split; [by right|done].
      * intros l1 [->|Hin]%elem_of_cons.
        -- rewrite Hclaim. cbn [fst snd]. by eapply alloc_fresh.
        -- intros Hq. apply (D4 _ Hin). rewrite Hsa1. by eapply alloc_claimed.
Qed.

Lemma add_afterEntries_roundtrip fep dip env cid c st out st' order :
  reachable fep dip st → range_ok env →
  InspectContainer env cid = Some c →
  (∀ k, is_Some (containerListeners st !! k) → HasPrefix k (ID c +:+ ":") = false) →
  addContainer fep dip env cid st = Ret (out, st') →
  order ≡ₚ keys (containerListeners st') →
  containerListeners (afterEntries order (ID c) st') = containerListeners st ∧
  (∀ a p, claimed (sourceAddrs (afterEntries order (ID c) st')) a p
          ↔ claimed (sourceAddrs st) a p) ∧
  dom (sourceAddrs st) ⊆ dom (sourceAddrs (afterEntries order (ID c) st')).
Proof.
  intros Hreach Hr Hc Hnone Hadd Hperm.
  pose proof (reachable_Inv _ _ _ Hreach) as HI.
  unfold addContainer in Hadd. rewrite Hc in Hadd.
  destruct (addPorts_delta _ _ _ _ _ _ _ _ _ Hr HI Hadd) as (more & Hout & D1 & D2 & D3 & D4).
  destruct (addPorts_started _ _ _ _ _ _ _ _ _ Hadd) as (more' & Hout' & K1 & K2 & _ & _).
  cbn [app] in Hout, Hout'. subst more more'.
  destruct (afterEntries_effects order (ID c) st' Hperm) as (E1 & _ & E3 & E4).
  set (st2 := afterEntries order (ID c) st') in *.
  assert (Hnew : ∀ k l, containerListeners st' !! k = Some l →
            HasPrefix k (ID c +:+ ":") = true → l ∈ out).
  { intros k l [Hl|[_ ?]]%D1 Hp; [|done]. rewrite (Hnone k) in Hp by eauto. done. }
  split_and!.
  - apply map_eq. intros k. destruct (HasPrefix k (ID c +:+ ":")) eqn:Hp.
    + rewrite (E1 k Hp). destruct (containerListeners st !! k) eqn:Hk; [|done].
      rewrite (Hnone k) in Hp by eauto. done.
    + rewrite (E3 k Hp). destruct (containerListeners st' !! k) as [l|] eqn:Hk.
      * destruct (D1 _ _ Hk) as [?|[Hp' _]]; [done|congruence].
      * destruct (containerListeners st !! k) as [l|] eqn:Hk0; [|done].
        rewrite (K1 _ _ Hk0) in Hk. done.
  - intros a p. split.
    + intros Hq.
      assert (Hq' : claimed (sourceAddrs st') a p).
      { destruct (sourceAddrs st' !! a) as [ls|] eqn:Hls.
        - destruct (ls !! p) as [d|] eqn:Hd; [by exists ls; eauto|].
          destruct (afterEntries_preserved order (ID c) st') as (_ & P2 & _).
          destruct (P2 a p); [|done]. intros (ls' & Hls' & Hd'). rewrite Hls in Hls'.
          injection Hls' as <-. rewrite Hd in Hd'. by destruct Hd'.
        - destruct (afterEntries_preserved order (ID c) st') as (_ & P2 & _).
          destruct (P2 a p); [|done]. intros (ls' & Hls' & _). congruence. }
      destruct (D3 _ _ Hq') as [?|(l & Hin & Heq)]; [done|].
      destruct (K2 _ Hin) as (_ & port & Hreg).
      destruct (E4 _ _ Hreg (containerPortKey_prefix c port)) as (_ & Hfree & _).
      rewrite Heq in Hfree. done.
    + intros Hq. apply afterEntries_keeps_claims; [by apply D2|].
      intros cp l Hl Hp Heq. apply (D4 l (Hnew _ _ Hl Hp)). by rewrite Heq.
  - unfold st2.
    destruct (afterEntries_preserved order (ID c) st') as (_ & _ & -> & _).
    by eapply addPorts_dom.
Qed.

(** X19. Starting and then stopping a container is a round trip for the
    registry and for the claims: in a reachable state that holds no entry
    of the container, [addContainer] followed by a [removeContainer] that
    returns leaves the registry as it was and exactly the claims that were
    live before; only the addresses provisioned meanwhile stay in the
    table. *)
Theorem add_remove_roundtrip fep dip env cid c st out st' stops order st'' :
  reachable fep dip st → range_ok env →
  InspectContainer env cid = Some c →
  (∀ k, is_Some (containerListeners st !! k) → HasPrefix k (ID c +:+ ":") = false) →
  addContainer fep dip env cid st = Ret (out, st') →
  order ≡ₚ keys (containerListeners st') →
  removeContainer stops order (ID c) st' = Returned st'' →
  containerListeners st'' = containerListeners st ∧
  (∀ a p, claimed (sourceAddrs st'') a p ↔ claimed (sourceAddrs st) a p) ∧
  dom (sourceAddrs st) ⊆ dom (sourceAddrs st'').
Proof.
  intros Hreach Hr Hc Hnone Hadd Hperm ->%removeContainer_Returned.
  by eapply add_afterEntries_roundtrip.
Qed.

Lemma add_remove_roundtrip_witness :
  ∃ st'', removeContainer (λ _, true) (keys (containerListeners Scenario.st1)) "c1"
            Scenario.st1 = Returned st'' ∧
          containerListeners st'' = containerListeners initState.
Proof.
  assert (Hret : removeContainer (λ _, true) (keys (containerListeners Scenario.st1)) "c1"
                   Scenario.st1
                 = Returned (afterEntries (keys (containerListeners Scenario.st1)) "c1"
                               Scenario.st1)).
  { by apply removeContainer_returns. }
  eexists. split; [exact Hret|].
  refine (proj1 (add_remove_roundtrip Scenario.fep Scenario.dip Scenario.env0 "c1"
                   Scenario.web initState
                   (Scenario.started
                      (addContainer Scenario.fep Scenario.dip Scenario.env0 "c1" initState))
                   Scenario.st1 (λ _, true) (keys (containerListeners Scenario.st1)) _
                   (reachable_init _ _) Scenario_range_ok eq_refl _ _ _ Hret)).
  - intros k [l Hl]. cbn in Hl. by rewrite lookup_empty in Hl.
  - vm_compute. reflexivity.
  - reflexivity.
Defined.

(** ** More on the goroutines of a relay *)

Section RelayMore.
Import Relay RelayInv.

Lemma run_invariant (P : RState → Prop) :
  (∀ l s s', P s → exec l s = Some s' → P s') →
  ∀ sched s s', P s → run sched s = Some s' → P s'.
Proof.
  intros Hstep sched. induction sched as [|l sched IH]; intros s s' HP; simpl.
  - by intros [= <-].
  - destruct (exec l s) as [s1|] eqn:He; [|done]. apply IH. by eapply Hstep.
Qed.

(** Case analysis on an enabled step. *)
Ltac exec_cases He l :=
  destruct l; cbn [exec] in He;
  first
    [ apply copy_step_inv in He as (?c1 & ?c2 & ?Hfc & ?Hcp & ?Hne & ->)
    | repeat (match type of He with
              | context [match ?x with _ => _ end] => destruct x eqn:?
              end; try discriminate He);
      try (injection He as <-) ].

(** X20. The counter of the wait group [finished] never goes negative (no
    [Done] without its [Add]): in every reachable state it is the number of
    [Done] calls still owed, by the tracker and by the copy goroutines. *)
Theorem finished_counter s :
  rreachable s → finished s = owed s ∧ 0 ≤ finished s.
Proof.
  intros HI%rreachable_RInv. pose proof (rinv_finished _ HI) as Hf.
  split; [done|]. rewrite Hf. unfold owed.
  pose proof (sumOwes_nonneg (forwards s)). destruct (tracker s); simpl; lia.
Qed.

Lemma finished_counter_witness :
  finished early_return_state = owed early_return_state ∧ 0 ≤ finished early_return_state.
Proof.
  apply finished_counter. exists early_return_schedule. apply run_early_return_schedule.
Defined.

Lemma exec_stuck l s s' :
  exec l s = Some s' → stopper s = SSendCloseAll → tracker s ≠ TSelect →
  stopper s' = SSendCloseAll ∧ tracker s' ≠ TSelect.
Proof.
  intros He Hst Ht. exec_cases He l; cbn in *; try done; congruence.
Qed.

(** X21. [Stop] can block for ever.  The tracker takes one close-all signal
    and two are sent, one by [Stop] and one by the accept loop when [Accept]
    fails: once the tracker has left its [select] while [Stop] is still
    sending, no schedule of the other goroutines lets [Stop] return. *)
Theorem Stop_deadlock s sched s' :
  stopper s = SSendCloseAll → tracker s ≠ TSelect →
  run sched s = Some s' →
  stopper s' = SSendCloseAll ∧ tracker s' ≠ TSelect.
Proof.
  intros Hst Ht Hrun.
  apply (run_invariant (λ s, stopper s = SSendCloseAll ∧ tracker s ≠ TSelect))
    with (s' := s') in Hrun; try done.
  intros l s0 s1 [? ?] He. by eapply exec_stuck.
Qed.

Lemma Stop_deadlock_witness :
  rreachable blocked_stop_state ∧
  stopper blocked_stop_state = SSendCloseAll ∧ tracker blocked_stop_state ≠ TSelect.
Proof.
  split; [exists blocked_stop_schedule; apply run_blocked_stop_schedule|].
  apply (Stop_deadlock blocked_stop_state [] blocked_stop_state);
    [reflexivity|discriminate|reflexivity].
Defined.

Lemma OneSignal_init : OneSignal initR.
Proof. split; cbn; [done|]. by intros [? ?]. Qed.

Lemma exec_OneSignal l s s' : OneSignal s → exec l s = Some s' → OneSignal s'.
Proof.
  intros [H1 H2] He. unfold OneSignal in *.
  exec_cases He l; cbn in *;
    (split; [intros Ht; try (destruct (H1 Ht)); try (destruct H1; [congruence|]);
             split; congruence
            |intros [Ha Hb]; try congruence;
             try (destruct H1 as [? ?]; [done|congruence]);
             try (apply H2; split; congruence)]).
Qed.

(** X22. [Stop] returning and the accept loop returning exclude each other:
    in no reachable state have both happened.  So whenever [Stop] returns,
    the accept loop, which sends its own close-all signal once [Accept]
    fails on the closed socket, stays blocked in that send. *)
Theorem Stop_or_accept_loop s :
  rreachable s → ¬ (stopper s = SReturned ∧ acceptor s = AExited).
Proof.
  intros [sched Hrun].
  apply (run_invariant OneSignal exec_OneSignal sched initR s OneSignal_init Hrun).
Qed.

Lemma Stop_or_accept_loop_witness :
  ¬ (stopper early_return_state = SReturned ∧ acceptor early_return_state = AExited).
Proof.
  apply Stop_or_accept_loop. exists early_return_schedule. apply run_early_return_schedule.
Defined.

End RelayMore.

Section RelayTracking.
Import Relay RelayInv.

Ltac exec_cases He l :=
  destruct l; cbn [exec] in He;
  first
    [ apply copy_step_inv in He as (?c1 & ?c2 & ?Hfc & ?Hcp & ?Hne & ->)
    | repeat (match type of He with
              | context [match ?x with _ => _ end] => destruct x eqn:?
              end; try discriminate He);
      try (injection He as <-) ].

Lemma TrackInv_init : TrackInv initR.
Proof. split; cbn; try done. by intros c [?|?]. Qed.

Lemma TrackInv_ext s s' :
  forwards s' = forwards s → openConnections s' = openConnections s →
  acceptor s' = acceptor s → TrackInv s → TrackInv s'.
Proof. intros Hf Ho Ha [H1 H2 H3]. split; rewrite ?Hf, ?Ho, ?Ha; done. Qed.

Lemma TrackInv_set_fwd s c f f' :
  TrackInv s → forwards s !! c = Some f → f ≠ FNotStarted →
  (fwdActive f' = true → c ∈ openConnections s) →
  TrackInv (set_fwd c f' s).
Proof.
  intros [H1 H2 H3] Hfc Hne Hact. split; cbn.
  - intros c0 f0. destruct (decide (c = c0)) as [<-|Hn].
    + rewrite list_lookup_insert_eq by (by eapply lookup_lt_Some). by intros [= <-].
    + rewrite list_lookup_insert_ne by done. apply H1.
  - done.
  - intros c0 Ha. rewrite list_lookup_insert_ne; [by apply H3|].
    intros <-. rewrite (H3 c Ha) in Hfc. congruence.
Qed.

Lemma exec_TrackInv l s s' : TrackInv s → exec l s = Some s' → TrackInv s'.
Proof.
  intros HT He. pose proof HT as [H1 H2 H3].
  assert (Hstep : ∀ s0 c f f',
            forwards s0 = forwards s → openConnections s0 = openConnections s →
            acceptor s0 = acceptor s →
            forwards s !! c = Some f → f ≠ FNotStarted → fwdActive f = true →
            TrackInv (set_fwd c f' s0)).
  { intros s0 c f f' Hf Ho Ha Hfc Hne Hact.
    apply (TrackInv_set_fwd s0 c f); [by apply (TrackInv_ext s)|by rewrite Hf|done|].
    intros _. rewrite Ho. by eapply H1. }
  exec_cases He l.
  - (* Accept returns a connection *)
    split; cbn.
    + intros c f Hc Hact. apply (H1 c f); [|done].
      apply lookup_app_Some in Hc as [?|[_ Hc]]; [done|].
      apply list_lookup_singleton_Some in Hc as [_ <-]. done.
    + done.
    + intros c [[= <-]|?]; [|done]. by rewrite lookup_app_r, Nat.sub_diag.
  - split; cbn; try done. by intros c [?|?].
  - (* newConn *)
    split; cbn.
    + intros c0 f Hc Hact. right. by eapply H1.
    + intros c0 [= <-]. left.
    + intros c0 [?|[= <-]]; [done|]. apply H3. by left.
  - (* go forward *)
    assert (Hs : forwards s !! c = Some FNotStarted) by (apply H3; by right).
    split; cbn.
    + intros c0 f. destruct (decide (c = c0)) as [<-|Hn].
      * intros _ _. by apply H2.
      * rewrite list_lookup_insert_ne by done. apply H1.
    + done.
    + by intros c0 [?|?].
  - split; cbn; try done. by intros c0 [?|?].
  - by split.
  - by split.
  - by split.
  - by split.
  - by split.
  - by split.
  - by eapply (Hstep s c FDial).
  - by eapply (Hstep s c FDial).
  - by eapply (Hstep _ c FAdd).
  - by eapply (Hstep _ c (FWait c1 c2)).
  - by eapply (Hstep _ c (FWait c1 c2)).
  - by eapply (Hstep _ c (FWait c1 c2)).
  - by eapply (Hstep _ c (FWait c1 c2)).
  - by eapply (Hstep s c (FWait _ _)).
  - (* closedConn *)
    split; cbn.
    + intros c0 f0. destruct (decide (c = c0)) as [<-|Hn].
      * rewrite list_lookup_insert_eq by (by eapply lookup_lt_Some). by intros [= <-].
      * rewrite list_lookup_insert_ne by done. intros Hc Hact.
        apply list_elem_of_filter. split; [congruence|by eapply H1].
    + intros c0 Ha. apply list_elem_of_filter. split; [|by apply H2].
      intros ->. assert (forwards s !! c = Some FNotStarted) by (apply H3; by right).
      congruence.
    + intros c0 Ha. rewrite list_lookup_insert_ne; [by apply H3|].
      intros <-. rewrite (H3 c Ha) in *. congruence.
Qed.

(** X23. A connection is registered with the tracker before its [forward]
    is launched: in every reachable state, the tracker's set holds every
    connection whose [forward] goroutine is running, so that close-all
    misses none of them. *)
Theorem tracked_before_forwarded s c f :
  rreachable s → forwards s !! c = Some f → fwdActive f = true →
  c ∈ openConnections s.
Proof.
  intros [sched Hrun].
  apply (track_active s
           (run_invariant TrackInv exec_TrackInv sched initR s TrackInv_init Hrun)).
Qed.

Lemma tracked_before_forwarded_witness : (0%nat : Conn) ∈ openConnections early_return_state.
Proof.
  apply (tracked_before_forwarded early_return_state 0%nat (FWait CCopy CCopy)).
  - exists early_return_schedule. apply run_early_return_schedule.
  - reflexivity.
  - reflexivity.
Defined.

Lemma exec_CloseInv l s s' : CloseInv s → exec l s = Some s' → CloseInv s'.
Proof.
  intros HC He. unfold CloseInv in *.
  exec_cases He l; cbn in *;
    repeat match goal with
           | H : tracker _ = _ |- _ => rewrite H in *
           end; try done.
  - intros c0 Hc0. by left.
  - intros c0 Hc0. by left.
  - intros c0 Hc0. destruct (HC c0 Hc0) as [[->|?]%elem_of_cons|?].
    + right. apply elem_of_app. right. left.
    + by left.
    + right. apply elem_of_app. by left.
  - intros c0 Hc0. destruct (HC c0 Hc0) as [?%elem_of_nil|?]; done.
  - destruct (tracker s); try done.
    + intros c0 Hc0. destruct (HC c0 Hc0) as [?|?]; [by left|].
      right. apply elem_of_app. by left.
    + intros c0 Hc0. apply elem_of_app. left. by apply HC.
Qed.

(** X24. When the tracker has returned, every connection it tracked has
    been closed, and so has every connection whose [forward] goroutine is
    still running. *)
Theorem tracker_closes_all s :
  rreachable s → tracker s = TExited →
  (∀ c, c ∈ openConnections s → c ∈ closedConns s) ∧
  (∀ c f, forwards s !! c = Some f → fwdActive f = true → c ∈ closedConns s).
Proof.
  intros [sched Hrun] Ht.
  assert (HC : CloseInv s).
  { apply (run_invariant CloseInv exec_CloseInv sched initR s); [by cbn|done]. }
  unfold CloseInv in HC. rewrite Ht in HC. split; [done|].
  intros c f Hc Hact. apply HC.
  exact (track_active s
           (run_invariant TrackInv exec_TrackInv sched initR s TrackInv_init Hrun)
           c f Hc Hact).
Qed.

Lemma tracker_closes_all_witness :
  ∃ s, run (early_return_schedule ++ [LCloseConn; LTrackerDone]) initR = Some s ∧
    tracker s = TExited ∧ (0%nat : Conn) ∈ closedConns s ∧
    forwards s !! 0%nat = Some (FWait CCopy CCopy).
Proof.
  eexists {| listening := false; tracker := TExited; openConnections := [0%nat];
             acceptor := AAccept; stopper := SReturned; waiter := WNotCalled;
             finished := 2; forwards := [FWait CCopy CCopy]; closedConns := [0%nat];
             openAtStop := [0%nat] |}.
  assert (Hrun : run (early_return_schedule ++ [LCloseConn; LTrackerDone]) initR
                 = Some {| listening := false; tracker := TExited;
                           openConnections := [0%nat];
                           acceptor := AAccept; stopper := SReturned;
                           waiter := WNotCalled;
                           finished := 2; forwards := [FWait CCopy CCopy];
                           closedConns := [0%nat]; openAtStop := [0%nat] |})
    by (vm_compute; reflexivity).
  split; [exact Hrun|]. split; [reflexivity|]. split; [|reflexivity].
  refine (proj2 (tracker_closes_all _ (ex_intro _ _ Hrun) eq_refl) 0%nat
            (FWait CCopy CCopy) eq_refl eq_refl).
Defined.

End RelayTracking.

(** ** The event loop *)

Lemma handleEvent_reachable fep dip t ev st r :
  turn_ok t → reachable fep dip st → handleEvent fep dip t ev st = Ret r →
  reachable fep dip (stateOf r).
Proof.
  intros [Hr Ho] Hreach. unfold handleEvent.
  destruct (_ || _).
  - destruct (addContainer fep dip (turnEnv t) (Event_ID ev) st) as [[out st1]|] eqn:Hadd;
      cbn [obind]; [|done].
    intros [= <-]. eapply reachable_step; [done|]. by eapply step_add.
  - destruct (_ || _); intros [= <-]; [|done].
    eapply reachable_step; [done|]. by apply step_remove.
Qed.

Lemma eventLoop_reachable fep dip evs st r :
  Forall (λ te, turn_ok te.1) evs → reachable fep dip st →
  eventLoop fep dip evs st = Ret r → reachable fep dip (stateOf r).
Proof.
  intros Hok. revert st. induction Hok as [|[t ev] evs Ht _ IH]; intros st Hreach;
    cbn [eventLoop].
  - by intros [= <-].
  - destruct (handleEvent fep dip t ev st) as [r1|] eqn:Hh; cbn [obind]; [|done].
    pose proof (handleEvent_reachable _ _ _ _ _ _ Ht Hreach Hh) as Hr1.
    destruct r1 as [st1|st1]; [by apply IH|]. by intros [= <-].
Qed.

Lemma startupLoop_reachable fep dip cs st st' :
  Forall (λ tc, turn_ok tc.1) cs → reachable fep dip st →
  startupLoop fep dip cs st = Ret st' → reachable fep dip st'.
Proof.
  intros Hok. revert st. induction Hok as [|[t cid] cs [Hr _] _ IH]; intros st Hreach;
    cbn [startupLoop].
  - by intros [= <-].
  - destruct (addContainer fep dip (turnEnv t) cid st) as [[out st1]|] eqn:Hadd;
      cbn [obind]; [|done].
    apply IH. eapply reachable_step; [done|]. by eapply step_add.
Qed.

(** X25. Whatever containers are listed at startup and whatever events
    follow, with whatever enumeration orders and scheduling, a run of
    [main]'s loop that does not panic, whether it has taken every event or
    is blocked in a [Stop], leaves a state where no two registered listeners
    share an (address, port) pair, every listener's claim is live, and the
    zone points at registered listeners only.  Events other than start,
    unpause, stop, pause and die change nothing. *)
Theorem mainLoop_safe fep dip cs evs r :
  Forall (λ tc, turn_ok tc.1) cs → Forall (λ te, turn_ok te.1) evs →
  mainLoop fep dip cs evs = Ret r →
  reachable fep dip (stateOf r) ∧
  (∀ k1 k2 l1 l2,
     containerListeners (stateOf r) !! k1 = Some l1 →
     containerListeners (stateOf r) !! k2 = Some l2 →
     k1 ≠ k2 → claimOf l1 ≠ claimOf l2) ∧
  (∀ key l, containerListeners (stateOf r) !! key = Some l →
     claimed (sourceAddrs (stateOf r)) (claimOf l).1 (claimOf l).2) ∧
  (∀ n ip, dnsZone (stateOf r) !! n = Some ip →
     ∃ key l, containerListeners (stateOf r) !! key = Some l ∧ DNSName l = n ∧
              IP (Src l) = ip) ∧
  (∀ t ev s0, Status ev ∉ ["start"; "unpause"; "stop"; "pause"; "die"] →
     handleEvent fep dip t ev s0 = Ret (Returned s0)).
Proof.
  intros Hcs Hevs Hmain. unfold mainLoop in Hmain.
  destruct (startupLoop fep dip cs initState) as [st0|] eqn:Hs; cbn [obind] in Hmain;
    [|done].
  assert (Hreach : reachable fep dip (stateOf r)).
  { eapply eventLoop_reachable; [done| |done].
    eapply startupLoop_reachable; [done|apply reachable_init|done]. }
  pose proof (reachable_Inv _ _ _ Hreach) as HI.
  split_and!; try done.
  - intros k1 k2 l1 l2 H1 H2 Hne Heq. apply Hne. by eapply (inv_unique _ HI).
  - apply (inv_claimed _ HI).
  - apply (reachable_zone_fresh _ _ _ Hreach).
  - intros t ev s0 Hst. unfold handleEvent.
    rewrite !bool_decide_eq_false_2; [done|..];
      intros Heq; apply Hst; rewrite Heq; set_solver.
Qed.

Lemma mainLoop_safe_witness :
  mainLoop Scenario.fep Scenario.dip
    [(mkTurn Scenario.env0 keys (λ _, true), "c1")]
    [(mkTurn Scenario.env0 keys (λ _, true), mkAPIEvents "start" "c2");
     (mkTurn Scenario.env0 keys (λ _, true), mkAPIEvents "create" "c3");
     (mkTurn Scenario.env0 keys (λ _, false), mkAPIEvents "die" "c1");
     (mkTurn Scenario.env0 keys (λ _, true), mkAPIEvents "start" "c1")]
  = Ret (Blocked Scenario.st2_blocked) ∧
  reachable Scenario.fep Scenario.dip Scenario.st2_blocked.
Proof.
  assert (Hrun : mainLoop Scenario.fep Scenario.dip
                   [(mkTurn Scenario.env0 keys (λ _, true), "c1")]
                   [(mkTurn Scenario.env0 keys (λ _, true), mkAPIEvents "start" "c2");
                    (mkTurn Scenario.env0 keys (λ _, true), mkAPIEvents "create" "c3");
                    (mkTurn Scenario.env0 keys (λ _, false), mkAPIEvents "die" "c1");
                    (mkTurn Scenario.env0 keys (λ _, true), mkAPIEvents "start" "c1")]
                 = Ret (Blocked Scenario.st2_blocked)) by (vm_compute; reflexivity).
  split; [exact Hrun|].
  assert (Hok : ∀ stops, turn_ok (mkTurn Scenario.env0 keys stops)).
  { intros stops. split; [apply Scenario_range_ok|]. intros m. reflexivity. }
  refine (proj1 (mainLoop_safe _ _ _ _ _ _ _ Hrun)).
  - repeat first [apply Hok | apply List.Forall_nil | apply List.Forall_cons].
  - repeat first [apply Hok | apply List.Forall_nil | apply List.Forall_cons].
Defined.
